(** * Versioned configuration lifecycle manager (src/lib/configs/initConfig.ts)

    A shallow embedding of the config loader, the migration driver, the
    blank-line formatter and the mutable handle cache, followed by the
    properties established about them.  The Rust toolchain set-up
    (src/lib/rust.ts), the dependency filter of the versions command
    (src/commands/dep/versions.ts) and the compute-peer prompts are
    embedded in modules of their own. *)

From Stdlib Require Import ZArith NArith QArith List Ascii String Lia Bool.
From Stdlib Require Import Qround DecimalString.
From stdpp Require Import base option list gmap.

Set Default Proof Using "Type".
Local Open Scope N_scope.
Local Open Scope list_scope.

(** ** JavaScript strings

    A JavaScript string is a sequence of UTF-16 code units; a code unit is a
    number.  String literals of the source are written with [str]. *)

Module JsString.

Abbreviation jsstring := (list N).

Definition str (s : string) : jsstring :=
  map N_of_ascii (list_ascii_of_string s).

(** [WhiteSpace] and [LineTerminator] code units, the ones that
    [String.prototype.trim] strips. *)
Definition is_ws (c : N) : bool :=
  (c =? 9) || (c =? 10) || (c =? 11) || (c =? 12) || (c =? 13) || (c =? 32)
  || (c =? 160) || (c =? 5760) || ((8192 <=? c) && (c <=? 8202))
  || (c =? 8232) || (c =? 8233) || (c =? 8239) || (c =? 8287)
  || (c =? 12288) || (c =? 65279).

Fixpoint trimStart (s : jsstring) : jsstring :=
  match s with
  | [] => []
  | c :: r => if is_ws c then trimStart r else s
  end.

Definition trimEnd (s : jsstring) : jsstring := rev (trimStart (rev s)).

Definition trim (s : jsstring) : jsstring := trimEnd (trimStart s).

Definition NL : N := 10.

(** The string ["\n"]. *)
Definition nl : jsstring := [NL].

(** [s.split("\n")] *)
Fixpoint split_nl (s : jsstring) : list jsstring :=
  match s with
  | [] => [[]]
  | c :: r =>
      if c =? NL then [] :: split_nl r
      else match split_nl r with
           | h :: t => (c :: h) :: t
           | [] => [[c]]
           end
  end.

(** [ar.join("\n")] *)
Fixpoint join_nl (ar : list jsstring) : jsstring :=
  match ar with
  | [] => []
  | [x] => x
  | x :: rest => x ++ NL :: join_nl rest
  end.

(** [s.startsWith(p)] *)
Fixpoint startsWith (s p : jsstring) : bool :=
  match p, s with
  | [], _ => true
  | _ :: _, [] => false
  | a :: p', b :: s' => (a =? b) && startsWith s' p'
  end.

(** [s.endsWith(p)] *)
Definition endsWith (s p : jsstring) : bool := startsWith (rev s) (rev p).

(** [s.slice(0, -k)] for a positive [k]. *)
Definition slice_0_neg (s : jsstring) (k : nat) : jsstring :=
  take (length s - k) s.

(** [s.replace(p, "")] with a string pattern: the first occurrence of [p]
    is removed. *)
Fixpoint replace_first_empty (s p : jsstring) : jsstring :=
  if startsWith s p then drop (length p) s
  else match s with
       | [] => []
       | c :: r => c :: replace_first_empty r p
       end.

Definition jsstring_eqb (a b : jsstring) : bool := bool_decide (a = b).

(** [ar[z]] with a JavaScript index: [undefined] out of range. *)
Definition array_get {A} (ar : list A) (z : Z) : option A :=
  if (z <? 0)%Z then None else ar !! Z.to_nat z.

(** [ar.flatMap((x, i, ar) => f x i ar)] *)
Definition flatMap {A B} (f : A -> nat -> list A -> list B) (ar : list A)
  : list B :=
  concat (imap (fun i x => f x i ar) ar).

End JsString.
Export JsString.

(** ** The blank-line formatter *)

(** The callback given to [flatMap] in [formatConfig]. *)
Definition formatLine (line : jsstring) (i : nat) (ar : list jsstring)
  : list jsstring :=
  if jsstring_eqb (trim line) (str "") then []
  else
    let maybePreviousLine := array_get ar (Z.of_nat i - 1) in
    let isComment := startsWith line (str "#") in
    let isPreviousLineComment :=
      match maybePreviousLine with
      | Some p => startsWith p (str "#")
      | None => false
      end in
    let addNewLineBeforeBlockOfComments :=
      isComment && negb isPreviousLineComment in
    if addNewLineBeforeBlockOfComments then [str ""; line]
    else
      let isFirstLine :=
        match maybePreviousLine with None => true | Some _ => false end in
      let isIndentedCode := startsWith line (str " ") in
      let doNotAddNewLine :=
        isFirstLine || isIndentedCode || isComment || isPreviousLineComment in
      if doNotAddNewLine then [line] else [str ""; line].

Definition formatConfig (configString : jsstring) : jsstring :=
  let formattedConfig :=
    join_nl (flatMap formatLine (split_nl (trim configString))) in
  trim formattedConfig ++ nl.

(** ** JavaScript numbers and the [version] field *)

(** A number is NaN, an infinity or a finite value; every finite double is a
    rational. *)
Inductive jsnum : Type :=
  | JNaN
  | JInf (negative : bool)
  | JFin (q : Q).

Definition jsnum_of_nat (n : nat) : jsnum := JFin (inject_Z (Z.of_nat n)).

(** [a < len] where [len] is the length of an array. *)
Definition js_lt_length (a : jsnum) (len : nat) : bool :=
  match a with
  | JNaN => false
  | JInf negative => negative
  | JFin q =>
      match (q ?= inject_Z (Z.of_nat len))%Q with Lt => true | _ => false end
  end.

(** The first index kept by [ar.slice(start)] on an array of length [len]:
    [start] is truncated towards zero (NaN gives 0), a negative value counts
    from the end. *)
Definition slice_start (start : jsnum) (len : nat) : nat :=
  match start with
  | JNaN => 0%nat
  | JInf true => 0%nat
  | JInf false => len
  | JFin q =>
      let z := Z.quot (Qnum q) (Zpos (Qden q)) in
      if (z <? 0)%Z then Z.to_nat (Z.max (Z.of_nat len + z) 0)
      else Nat.min (Z.to_nat z) len
  end.

(** [ar.slice(start)] *)
Definition slice {A} (ar : list A) (start : jsnum) : list A :=
  drop (slice_start start (length ar)) ar.

(** [version: number | string] of [BaseConfig]. *)
Inductive Version : Type :=
  | VerNum (n : jsnum)
  | VerStr (s : jsstring).

(** [ValidationResult] of helpers/validations: [true] or an error string. *)
Inductive ValidationResult : Type :=
  | Valid
  | Invalid (error : jsstring).

(** ** External collaborators

    The YAML library, yaml-diff-patch, node:path and the [Number] conversion
    of strings are not part of the module; the model is parameterised by
    them.  [Config] is the type of parsed YAML values, which the validators
    narrow to [BaseConfig]; [version c] is what [c.version] reads.  [None]
    stands for a thrown exception. *)
Class Externals : Type := {
  Config : Type;
  version : Config -> Version;
  emptyObject : Config;
  parse : jsstring -> option Config;
  yamlDiffPatch : jsstring -> Config -> Config -> option jsstring;
  stringToNumber : jsstring -> jsnum;
  path_join : jsstring -> jsstring -> jsstring;
  path_dirname : jsstring -> jsstring;
  path_relative : jsstring -> jsstring -> jsstring;
}.

(** [Number(v)] for [v : number | string]. *)
Definition Number `{Externals} (v : Version) : jsnum :=
  match v with
  | VerNum n => n
  | VerStr s => stringToNumber s
  end.

(** Modelled from the spec: the constants [YAML_EXT], [YML_EXT] and
    [SCHEMAS_DIR_NAME] of lib/const, which is not among the sources; the
    extensions carry no dot, as [`${name}.${YAML_EXT}`] shows. *)
Definition YAML_EXT : jsstring := str "yaml".
Definition YML_EXT : jsstring := str "yml".
Definition SCHEMAS_DIR_NAME : jsstring := str "schemas".

(** What [commandObj.error] is called with (the message text is left out). *)
Inductive FatalReport : Type :=
  | InvalidConfigAt (configPath : jsstring)
  | CouldntMigrate (configPath : jsstring)
  | InvalidAfterMigration (configPath migratedConfigString error : jsstring)
  | InvalidConfig (configPath : jsstring)
  | InvalidConfigErrors (configPath error : jsstring).

(** Thrown values. *)
Inductive Exn : Type :=
  | ENOENT (path : jsstring)
  | AssertionError
  | YamlError
  | CouldntSaveConfig (configPath newConfigString : jsstring)
  | DanglingReference.

(** The outcome of an asynchronous function: a value, a call of the
    process-level reporter [commandObj.error], or a thrown exception. *)
Inductive Result (A : Type) : Type :=
  | Ok (a : A)
  | Fatal (r : FatalReport)
  | Throw (e : Exn).
Arguments Ok {A} a.
Arguments Fatal {A} r.
Arguments Throw {A} e.

(** ** The world: files, handles, the instance cache and a trace *)

Section Model.
Context `{Externals}.

(** A mutable handle object together with the variables its closures
    capture: [$commit] and [$getConfigString] share [configString]. *)
Record Handle : Type := mkHandle {
  h_data : Config;
  h_configPath : jsstring;
  h_configString : jsstring;
  h_validateLatest : Config -> bool;
}.

(** What the trace records: the calls of [readFile], [writeFile] and
    [mkdir], and each call of a migration with its index in [migrations]
    and the config it receives. *)
Inductive Event : Type :=
  | EvReadFile (path : jsstring)
  | EvWriteFile (path content : jsstring)
  | EvMkdir (path : jsstring)
  | EvMigration (index : nat) (input : Config).

(** [files] is the disk.  The file system is idealised: a read fails
    exactly when the path is absent, and [mkdir] and the writes succeed.
    In the source [mkdir] and [writeFile] can reject as well (a file in the
    place of the directory, a full disk), and a rejection inside the outer
    [try] of the loader is caught together with the failed reads; these
    runs are left out, and what is stated about the files holds for the
    runs in which the directory can be created and the files written.
    [heap] holds the handle objects by reference, [initializedConfigs] is
    the module-level [Map].  [docsInConfigs] is
    [userConfig?.docsInConfigs]. *)
Record World : Type := mkWorld {
  files : gmap jsstring jsstring;
  heap : gmap nat Handle;
  initializedConfigs : gmap jsstring nat;
  docsInConfigs : option bool;
  trace : list Event;
}.

Definition M (A : Type) : Type := World -> Result A * World.

Definition ret {A} (a : A) : M A := fun w => (Ok a, w).

Definition bind {A B} (m : M A) (k : A -> M B) : M B :=
  fun w =>
    match m w with
    | (Ok a, w') => k a w'
    | (Fatal r, w') => (Fatal r, w')
    | (Throw e, w') => (Throw e, w')
    end.

Definition throw {A} (e : Exn) : M A := fun w => (Throw e, w).

Definition get_world : M World := fun w => (Ok w, w).

Definition commandObj_error {A} (r : FatalReport) : M A :=
  fun w => (Fatal r, w).

(** [try { m } catch (e) { handler e }].  A call of [commandObj.error]
    passes through; the module makes none inside a [try] block. *)
Definition try_catch {A} (m : M A) (handler : Exn -> M A) : M A :=
  fun w =>
    match m w with
    | (Throw e, w') => handler e w'
    | other => other
    end.

Definition lift_option {A} (o : option A) (e : Exn) : M A :=
  match o with
  | Some a => ret a
  | None => throw e
  end.

Definition log (e : Event) : M unit :=
  fun w => (Ok tt, mkWorld (files w) (heap w) (initializedConfigs w)
                           (docsInConfigs w) (trace w ++ [e])).

Definition readFile (path : jsstring) : M jsstring :=
  bind (log (EvReadFile path)) (fun _ w =>
    match files w !! path with
    | Some content => (Ok content, w)
    | None => (Throw (ENOENT path), w)
    end).

(** [await writeFile(path, content, FS_OPTIONS)], taken to succeed. *)
Definition writeFile (path content : jsstring) : M unit :=
  bind (log (EvWriteFile path content)) (fun _ w =>
    (Ok tt, mkWorld (<[path := content]> (files w)) (heap w)
                    (initializedConfigs w) (docsInConfigs w) (trace w))).

(** [await mkdir(path, { recursive: true })], taken to succeed. *)
Definition mkdir (path : jsstring) : M unit := log (EvMkdir path).

End Model.

Notation "'let*' x ':=' m 'in' k" := (bind m (fun x => k))
  (at level 10, x pattern, m at level 100, k at level 200).
Notation "m ';;' k" := (bind m (fun _ => k))
  (at level 100, k at level 200, right associativity).

(** ** The operations of initConfig.ts *)

(** [InitConfigOptions].  The two validators are what Ajv compiles from
    [oneOf: allSchemas] and from [latestSchema]; [latestSchemaJson] is
    [jsonStringify(latestSchema)] and [latestSchemaDescription] is
    [latestSchema.description] when it is a string.  The path getters and
    the default-config generator are taken by the value they return, and a
    migration [(config: Config) => Config | Promise<Config>] by the
    function from its argument to the config it resolves to. *)
Record InitConfigOptions `{Externals} : Type := mkOptions {
  validateAllConfigVersions : Config -> bool;
  validateLatestConfig : Config -> bool;
  latestSchemaJson : jsstring;
  latestSchemaDescription : option jsstring;
  migrations : list (Config -> Config);
  name : jsstring;
  getConfigOrConfigDirPath : jsstring;
  getSchemaDirPath : option jsstring;
  validate : option (Config -> jsstring -> ValidationResult);
}.

(** [InitializedReadonlyConfig]: the latest-version data and what the
    accessors [$getPath], [$getConfigString] and [$validateLatest] give. *)
Record ReadonlyConfig `{Externals} : Type := mkReadonly {
  ro_data : Config;
  ro_getPath : jsstring;
  ro_getConfigString : jsstring;
  ro_validateLatest : Config -> bool;
}.

Arguments mkReadonly {_} _ _ _ _.
Arguments mkOptions {_} _ _ _ _ _ _ _ _ _.

Section Operations.
Context `{Externals}.

Definition schemaPath (name configDirPath : jsstring)
    (getSchemaDirPath : option jsstring) : jsstring :=
  path_join
    (path_join (match getSchemaDirPath with
                | None => configDirPath
                | Some p => p
                end) SCHEMAS_DIR_NAME)
    (name ++ str ".json").

Definition ensureSchema (name configDirPath : jsstring)
    (getSchemaDirPath : option jsstring) (schemaJson : jsstring)
  : M jsstring :=
  let schemaDir :=
    path_join (match getSchemaDirPath with
               | None => configDirPath
               | Some p => p
               end) SCHEMAS_DIR_NAME in
  mkdir schemaDir ;;
  let schemaPath := path_join schemaDir (name ++ str ".json") in
  let correctSchemaContent := schemaJson ++ nl in
  try_catch
    (let* schemaContent := readFile schemaPath in
     if jsstring_eqb schemaContent correctSchemaContent then ret tt
     else throw AssertionError)
    (fun _ => writeFile schemaPath correctSchemaContent) ;;
  ret (path_relative configDirPath schemaPath).

Definition saveConfig (configPath migratedConfigString : jsstring)
  : M jsstring :=
  let configToSave := formatConfig migratedConfigString in
  writeFile configPath configToSave ;;
  ret configToSave.

(** The loop of [migrateConfig]; [index] is the position in [migrations] of
    the head of [slice], recorded in the trace at each call. *)
Fixpoint applyMigrations (index : nat) (slice : list (Config -> Config))
    (migratedConfig : Config) : M Config :=
  match slice with
  | [] => ret migratedConfig
  | migration :: rest =>
      log (EvMigration index migratedConfig) ;;
      applyMigrations (S index) rest (migration migratedConfig)
  end.

(** [validate !== undefined && (await validate(config, configPath))],
    tested with [typeof ... === "string"]. *)
Definition maybeValidationError
    (validate : option (Config -> jsstring -> ValidationResult))
    (config : Config) (configPath : jsstring) : option jsstring :=
  match validate with
  | None => None
  | Some f => match f config configPath with
              | Valid => None
              | Invalid e => Some e
              end
  end.

(** Lines 100-142 of [migrateConfig]: the migrated value is merged into the
    text, parsed again, validated, and saved when the text changed. *)
Definition persistMigrated (configString configPath : jsstring)
    (validateLatestConfig : Config -> bool)
    (validate : option (Config -> jsstring -> ValidationResult))
    (migratedConfig : Config) : M (Config * jsstring) :=
  let* parsed := lift_option (parse configString) YamlError in
  let* migratedConfigString :=
    lift_option (yamlDiffPatch configString parsed migratedConfig)
                YamlError in
  let* latestConfig := lift_option (parse migratedConfigString) YamlError in
  if negb (validateLatestConfig latestConfig) then
    commandObj_error (CouldntMigrate configPath)
  else
    match maybeValidationError validate latestConfig configPath with
    | Some e =>
        commandObj_error
          (InvalidAfterMigration configPath migratedConfigString e)
    | None =>
        (if negb (jsstring_eqb configString migratedConfigString)
         then saveConfig configPath migratedConfigString ;; ret tt
         else ret tt) ;;
        ret (latestConfig, migratedConfigString)
    end.

Definition migrateConfig (configString : jsstring)
    (migrations : list (Config -> Config)) (configPath : jsstring)
    (validateLatestConfig : Config -> bool) (config : Config)
    (validate : option (Config -> jsstring -> ValidationResult))
  : M (Config * jsstring) :=
  let start := Number (version config) in
  let* migratedConfig :=
    applyMigrations (slice_start start (length migrations))
                    (slice migrations start) config in
  persistMigrated configString configPath validateLatestConfig validate
                  migratedConfig.

Definition ensureConfigIsValidLatest (configPath : jsstring)
    (validateLatestConfig : Config -> bool) (config : Config)
    (validate : option (Config -> jsstring -> ValidationResult))
  : M Config :=
  if negb (validateLatestConfig config) then
    commandObj_error (InvalidConfig configPath)
  else
    match maybeValidationError validate config configPath with
    | Some e => commandObj_error (InvalidConfigErrors configPath e)
    | None => ret config
    end.

(** The pair [(configPath, configDirPath)]. *)
Definition getConfigPath (configOrConfigDirPath configName : jsstring)
  : jsstring * jsstring :=
  if endsWith configOrConfigDirPath YAML_EXT
     || endsWith configOrConfigDirPath YML_EXT
  then (configOrConfigDirPath, path_dirname configOrConfigDirPath)
  else (path_join configOrConfigDirPath configName, configOrConfigDirPath).

Definition schemaPathCommentStart : jsstring :=
  str "# yaml-language-server: $schema=".

(** The path tried when the first read fails. *)
Definition siblingPath (configPath : jsstring) : jsstring :=
  let endsWithYaml := endsWith configPath (str "." ++ YAML_EXT) in
  slice_0_neg configPath (length (if endsWithYaml then YAML_EXT else YML_EXT))
  ++ (if endsWithYaml then YML_EXT else YAML_EXT).

(** Lines 343-361: the read and its retry; the result is the content and
    the value of the variable [configPath] afterwards. *)
Definition readConfigFile (configPath : jsstring) (hasDefault : bool)
  : M (jsstring * jsstring) :=
  try_catch
    (let* fileContent := readFile configPath in ret (fileContent, configPath))
    (fun e =>
       let endsWithYaml := endsWith configPath (str "." ++ YAML_EXT) in
       let endsWithYml := endsWith configPath (str "." ++ YML_EXT) in
       if negb endsWithYaml && negb endsWithYml && hasDefault then throw e
       else
         let newConfigPath := siblingPath configPath in
         let* fileContent := readFile newConfigPath in
         ret (fileContent, newConfigPath)).

(** Lines 367-371: the text with the schema comment inserted or replaced. *)
Definition withSchemaComment (schemaPathComment fileContent : jsstring)
  : jsstring :=
  if startsWith fileContent schemaPathCommentStart
  then trim (join_nl (schemaPathComment :: drop 1 (split_nl fileContent)))
       ++ nl
  else schemaPathComment ++ nl ++ trim fileContent ++ nl.

(** Lines 363-375: the schema comment is inserted or replaced and the file
    is saved when the text changed. *)
Definition syncSchemaComment (options : InitConfigOptions)
    (configDirPath fileContent configPath : jsstring)
  : M (jsstring * jsstring) :=
  let* schemaRelPath :=
    ensureSchema (name options) configDirPath (getSchemaDirPath options)
                 (latestSchemaJson options) in
  let schemaPathComment := schemaPathCommentStart ++ schemaRelPath in
  let configString := withSchemaComment schemaPathComment fileContent in
  (if negb (jsstring_eqb configString fileContent)
   then saveConfig configPath configString ;; ret tt
   else ret tt) ;;
  ret (configString, configPath).

(** Lines 337-375: the body of the outer [try]. *)
Definition readExisting (options : InitConfigOptions)
    (configPath configDirPath : jsstring) (hasDefault : bool)
  : M (jsstring * jsstring) :=
  let* (fileContent, configPath) := readConfigFile configPath hasDefault in
  syncSchemaComment options configDirPath fileContent configPath.

Definition documentationLinkComment (name : jsstring) : jsstring :=
  str "# Documentation: https://github.com/fluencelabs/cli/tree/main/docs/configs/"
  ++ replace_first_empty name (str "." ++ YAML_EXT) ++ str ".md".

(** Lines 381-408: the [catch] branch when a default generator is given;
    [defConf] is what the generator returns. *)
Definition createDefault (options : InitConfigOptions)
    (configPath configDirPath defConf : jsstring)
  : M (jsstring * jsstring) :=
  let* schemaRelPath :=
    ensureSchema (name options) configDirPath (getSchemaDirPath options)
                 (latestSchemaJson options) in
  let schemaPathComment := schemaPathCommentStart ++ schemaRelPath in
  let description :=
    match latestSchemaDescription options with
    | Some d => nl ++ nl ++ str "# " ++ d
    | None => str ""
    end in
  let* w := get_world in
  let* configString :=
    if default false (docsInConfigs w)
    then ret (schemaPathComment ++ nl ++ nl
              ++ documentationLinkComment (name options) ++ nl ++ defConf)
    else
      let* parsed := lift_option (parse defConf) YamlError in
      lift_option
        (yamlDiffPatch
           (schemaPathComment ++ nl ++ description ++ nl ++ nl
            ++ documentationLinkComment (name options) ++ nl)
           emptyObject parsed)
        YamlError in
  saveConfig configPath configString ;;
  ret (configString, configPath).

(** Lines 411-459: parse, validate against all versions, migrate or check
    against the latest schema, and build the read-only handle. *)
Definition validateAndBuild (options : InitConfigOptions)
    (configPath configString : jsstring) : M ReadonlyConfig :=
  let* config := lift_option (parse configString) YamlError in
  if negb (validateAllConfigVersions options config) then
    commandObj_error (InvalidConfigAt configPath)
  else
    let* (latestConfig, configString) :=
      if js_lt_length (Number (version config))
                      (length (migrations options))
      then migrateConfig configString (migrations options) configPath
                         (validateLatestConfig options) config
                         (validate options)
      else
        let* latestConfig :=
          ensureConfigIsValidLatest configPath (validateLatestConfig options)
                                    config (validate options) in
        ret (latestConfig, configString) in
    ret (mkReadonly latestConfig configPath configString
                    (validateLatestConfig options)).

(** The function returned by [getReadonlyConfigInitFunction(options,
    getDefaultConfig)]; [None] is [null].  With [mkdir] and the writes
    taken to succeed, only the two reads can throw inside the outer [try],
    both before [configPath] is reassigned, so the [catch] branch sees the
    requested path. *)
Definition getReadonlyConfigInitFunction (options : InitConfigOptions)
    (getDefaultConfig : option jsstring) : M (option ReadonlyConfig) :=
  let configFullName := name options ++ str "." ++ YAML_EXT in
  let '(configPath, configDirPath) :=
    getConfigPath (getConfigOrConfigDirPath options) configFullName in
  let* loaded :=
    try_catch
      (let* r := readExisting options configPath configDirPath
                              (bool_decide (getDefaultConfig <> None)) in
       ret (Some r))
      (fun _ =>
         match getDefaultConfig with
         | None => ret None
         | Some defConf =>
             let* r := createDefault options configPath configDirPath
                                     defConf in
             ret (Some r)
         end) in
  match loaded with
  | None => ret None
  | Some (configString, configPath) =>
      let* config := validateAndBuild options configPath configString in
      ret (Some config)
  end.

(** *** The mutable handle and the instance cache *)

(** Allocation of the object [config] of [getConfigInitFunction]. *)
Definition alloc (h : Handle) : M nat :=
  fun w =>
    let l := fresh (dom (heap w)) in
    (Ok l, mkWorld (files w) (<[l := h]> (heap w)) (initializedConfigs w)
                   (docsInConfigs w) (trace w)).

Definition deref (l : nat) : M Handle :=
  fun w =>
    match heap w !! l with
    | Some h => (Ok h, w)
    | None => (Throw DanglingReference, w)
    end.

Definition store (l : nat) (h : Handle) : M unit :=
  fun w => (Ok tt, mkWorld (files w) (<[l := h]> (heap w))
                           (initializedConfigs w) (docsInConfigs w)
                           (trace w)).

(** [initializedConfigs.set(configPath, config)] *)
Definition cache_set (configPath : jsstring) (l : nat) : M unit :=
  fun w => (Ok tt, mkWorld (files w) (heap w)
                           (<[configPath := l]> (initializedConfigs w))
                           (docsInConfigs w) (trace w)).

(** The function returned by [getConfigInitFunction(options,
    getDefaultConfig)]: a reference to the handle, or [None] for [null]. *)
Definition getConfigInitFunction (options : InitConfigOptions)
    (getDefaultConfig : option jsstring) : M (option nat) :=
  let configFullName := name options ++ str "." ++ YAML_EXT in
  let configPath :=
    fst (getConfigPath (getConfigOrConfigDirPath options) configFullName) in
  let* w := get_world in
  match initializedConfigs w !! configPath with
  | Some previouslyInitializedConfig =>
      ret (Some previouslyInitializedConfig)
  | None =>
      let* initializedReadonlyConfig :=
        getReadonlyConfigInitFunction options getDefaultConfig in
      match initializedReadonlyConfig with
      | None => ret None
      | Some ro =>
          let configPath := ro_getPath ro in
          let configString := ro_getConfigString ro in
          let* config :=
            alloc (mkHandle (ro_data ro) configPath configString
                            (ro_validateLatest ro)) in
          cache_set configPath config ;;
          ret (Some config)
      end
  end.

(** [handle.$commit()]; [removeProperties] keeps the data fields. *)
Definition commit (handle : nat) : M unit :=
  let* this := deref handle in
  let config := h_data this in
  let configString := h_configString this in
  let configPath := h_configPath this in
  let* parsed := lift_option (parse configString) YamlError in
  let* patched :=
    lift_option (yamlDiffPatch configString parsed config) YamlError in
  let newConfigString := trim patched ++ nl in
  if negb (h_validateLatest this config) then
    throw (CouldntSaveConfig configPath newConfigString)
  else if negb (jsstring_eqb configString newConfigString) then
    let* saved := saveConfig configPath newConfigString in
    store handle (mkHandle config configPath saved (h_validateLatest this))
  else ret tt.

(** Assignment of data fields through a handle reference. *)
Definition assign (handle : nat) (update : Config -> Config) : M unit :=
  let* this := deref handle in
  store handle (mkHandle (update (h_data this)) (h_configPath this)
                         (h_configString this) (h_validateLatest this)).

Definition getData (handle : nat) : M Config :=
  let* this := deref handle in ret (h_data this).

(** [handle.$getPath()] *)
Definition getPath (handle : nat) : M jsstring :=
  let* this := deref handle in ret (h_configPath this).

(** [handle.$getConfigString()] *)
Definition getConfigString (handle : nat) : M jsstring :=
  let* this := deref handle in ret (h_configString this).

End Operations.

(** ** Definitions used to state the properties *)

(** A line that [line.trim() === ""] holds for. *)
Definition blank (line : jsstring) : bool := forallb is_ws line.

(** No two neighbouring lines are both blank. *)
Fixpoint no_two_blank (lines : list jsstring) : bool :=
  match lines with
  | a :: (b :: _) as rest => negb (blank a && blank b) && no_two_blank rest
  | _ => true
  end.

(** The body of [formatLine] with the previous line given directly. *)
Definition formatWithPrev (maybePreviousLine : option jsstring)
    (line : jsstring) : list jsstring :=
  if jsstring_eqb (trim line) (str "") then []
  else
    let isComment := startsWith line (str "#") in
    let isPreviousLineComment :=
      match maybePreviousLine with
      | Some p => startsWith p (str "#")
      | None => false
      end in
    if isComment && negb isPreviousLineComment then [str ""; line]
    else
      let isFirstLine :=
        match maybePreviousLine with None => true | Some _ => false end in
      if isFirstLine || startsWith line (str " ") || isComment
         || isPreviousLineComment
      then [line] else [str ""; line].

(** [flatMap formatLine] as a recursion that carries the previous line. *)
Fixpoint formatLines (prev : option jsstring) (lines : list jsstring)
  : list jsstring :=
  match lines with
  | [] => []
  | line :: rest => formatWithPrev prev line ++ formatLines (Some line) rest
  end.

(** *** Views of the world used in the statements *)

Section Views.
Context `{Externals}.

Definition add_trace (events : list Event) (w : World) : World :=
  mkWorld (files w) (heap w) (initializedConfigs w) (docsInConfigs w)
          (trace w ++ events).

Definition set_file (path content : jsstring) (w : World) : World :=
  mkWorld (<[path := content]> (files w)) (heap w) (initializedConfigs w)
          (docsInConfigs w) (trace w).

(** The migrations called, with the configuration each one received. *)
Definition migration_calls (events : list Event) : list (nat * Config) :=
  omap (fun e => match e with
                 | EvMigration i c => Some (i, c)
                 | _ => None
                 end) events.

(** The files written, with the content written. *)
Definition writes (events : list Event) : list (jsstring * jsstring) :=
  omap (fun e => match e with
                 | EvWriteFile p c => Some (p, c)
                 | _ => None
                 end) events.

(** The paths read. *)
Definition reads (events : list Event) : list jsstring :=
  omap (fun e => match e with
                 | EvReadFile p => Some p
                 | _ => None
                 end) events.

(** The events added by running [m] in [w]. *)
Definition events_of {A} (m : M A) (w : World) : list Event :=
  drop (length (trace w)) (trace (snd (m w))).

(** The result of the loop of [migrateConfig]. *)
Definition migrated (slice : list (Config -> Config)) (config : Config)
  : Config :=
  fold_left (fun c migration => migration c) slice config.

(** The events of the loop of [migrateConfig]. *)
Fixpoint migration_events (index : nat) (slice : list (Config -> Config))
    (config : Config) : list Event :=
  match slice with
  | [] => []
  | migration :: rest =>
      EvMigration index config
      :: migration_events (S index) rest (migration config)
  end.

End Views.

(** The number [a] is the natural number [V]. *)
Definition is_nat_number (a : jsnum) (V : nat) : Prop :=
  match a with
  | JFin q => (q == inject_Z (Z.of_nat V))%Q
  | _ => False
  end.

(** A text as [saveConfig] leaves it on disk. *)
Definition well_formatted (content : jsstring) : Prop :=
  exists body,
    content = body ++ nl /\ trim body = body /\ last body <> Some NL
    /\ no_two_blank (split_nl body) = true.

(** The lines that are not blank, the last of them without the white space
    at its end. *)
Definition nonblank_lines (lines : list jsstring) : list jsstring :=
  List.filter (fun l => negb (blank l)) lines.

Fixpoint trimEnd_last (lines : list jsstring) : list jsstring :=
  match lines with
  | [] => []
  | [x] => [trimEnd x]
  | x :: rest => x :: trimEnd_last rest
  end.

(** *** A small instance of the collaborators

    Flat YAML documents, one [key: value] per line, comment lines kept by
    the patch; paths joined with a slash.  It serves to run the model on
    concrete worlds. *)
Module Demo.

Fixpoint split_colon (line : jsstring) : option (jsstring * jsstring) :=
  match line with
  | [] => None
  | c :: r =>
      if c =? 58 then Some ([], trimStart r)
      else match split_colon r with
           | Some (k, v) => Some (c :: k, v)
           | None => None
           end
  end.

Fixpoint parse_lines (lines : list jsstring)
  : option (list (jsstring * jsstring)) :=
  match lines with
  | [] => Some []
  | l :: r =>
      if blank l || startsWith l (str "#") then parse_lines r
      else match split_colon l, parse_lines r with
           | Some kv, Some c => Some (kv :: c)
           | _, _ => None
           end
  end.

Fixpoint digits (s : jsstring) (acc : nat) : option nat :=
  match s with
  | [] => Some acc
  | c :: r =>
      if (48 <=? c) && (c <=? 57)
      then digits r (10 * acc + N.to_nat (c - 48))
      else None
  end.

Fixpoint assoc (key : jsstring) (c : list (jsstring * jsstring))
  : option jsstring :=
  match c with
  | [] => None
  | (k, v) :: r => if jsstring_eqb k key then Some v else assoc key r
  end.

Definition demo_version (c : list (jsstring * jsstring)) : Version :=
  match assoc (str "version") c with
  | None => VerNum JNaN
  | Some [] => VerStr []
  | Some v => match digits v 0 with
              | Some n => VerNum (jsnum_of_nat n)
              | None => VerStr v
              end
  end.

Definition demo_patch (old : jsstring) (_ new : list (jsstring * jsstring))
  : option jsstring :=
  Some (join_nl (List.filter (fun l => startsWith l (str "#")) (split_nl old)
                 ++ map (fun kv => fst kv ++ str ": " ++ snd kv) new)
        ++ nl).

Definition demo_relative (dir path : jsstring) : jsstring :=
  if startsWith path (dir ++ str "/") then drop (S (length dir)) path
  else path.

Fixpoint demo_dirname_rev (rpath : jsstring) : jsstring :=
  match rpath with
  | [] => []
  | c :: r => if c =? 47 then r else demo_dirname_rev r
  end.

#[export] Instance demo : Externals := {|
  Config := list (jsstring * jsstring);
  version := demo_version;
  emptyObject := [];
  parse := fun s => parse_lines (split_nl s);
  yamlDiffPatch := demo_patch;
  stringToNumber := fun s => match digits s 0 with
                             | Some n => jsnum_of_nat n
                             | None => JNaN
                             end;
  path_join := fun a b => a ++ str "/" ++ b;
  path_dirname := fun p => rev (demo_dirname_rev (rev p));
  path_relative := demo_relative;
|}.

Definition latest_is (v : nat) (c : list (jsstring * jsstring)) : bool :=
  match demo_version c with
  | VerNum (JFin q) => Qeq_bool q (inject_Z (Z.of_nat v))
  | _ => false
  end.

Definition has_version (c : list (jsstring * jsstring)) : bool :=
  match assoc (str "version") c with Some _ => true | None => false end.

Definition set_key (key value : jsstring) (c : list (jsstring * jsstring))
  : list (jsstring * jsstring) :=
  (key, value) :: List.filter (fun kv => negb (jsstring_eqb (fst kv) key)) c.

(** Three migrations, from versions 0, 1 and 2. *)
Definition demo_migrations
  : list (list (jsstring * jsstring) -> list (jsstring * jsstring)) :=
  [ set_key (str "version") (str "1");
    set_key (str "version") (str "2");
    set_key (str "version") (str "3") ].

Definition demo_options (migrations : list (Config -> Config))
    (latest : nat) : InitConfigOptions :=
  mkOptions has_version (latest_is latest) (str "{}") None migrations
            (str "config") (str "dir") None None.

Definition empty_world : World :=
  mkWorld ∅ ∅ ∅ None [].

Definition world_with (path content : jsstring) : World :=
  set_file path content empty_world.

Definition schema_comment : jsstring :=
  schemaPathCommentStart ++ str "schemas/config.json".

(** A world with one handle, at reference 0, for the file [path]. *)
Definition world_with_handle (path content : jsstring)
    (data : list (jsstring * jsstring)) (latest : nat) : World :=
  mkWorld {[ path := content ]}
          {[ 0%nat := mkHandle data path content (latest_is latest) ]}
          {[ path := 0%nat ]} None [].

End Demo.

(** *** Further definitions used in the statements and proofs *)

Definition starts_nonws (s : jsstring) : Prop :=
  exists c r, s = c :: r /\ is_ws c = false.

Definition ends_nonws (s : jsstring) : Prop :=
  exists z d, s = z ++ [d] /\ is_ws d = false.

Definition nlfree (s : jsstring) : Prop := Forall (fun c => c <> NL) s.

Definition isComment (line : jsstring) : bool := startsWith line (str "#").

(** The two ways of swapping the extension. *)
Definition swapped (from to : jsstring) : Prop :=
  (from = str ".yaml" /\ to = str ".yml")
  \/ (from = str ".yml" /\ to = str ".yaml").

(** The rethrow of line 350: the path has neither extension and a default
    generator was given. *)
Definition rethrows (p : jsstring) (hasDefault : bool) : bool :=
  negb (endsWith p (str "." ++ YAML_EXT))
  && negb (endsWith p (str "." ++ YML_EXT)) && hasDefault.

Definition isIndented (line : jsstring) : bool := startsWith line (str " ").

Section StatementDefinitions.
Context `{Externals}.

(** Every event that [m] adds to the trace satisfies [Q], and a value it
    returns satisfies [P]. *)
Definition only_events (Q : Event -> Prop) {A} (P : A -> Prop) (m : M A)
  : Prop :=
  forall w,
    (exists d, trace (snd (m w)) = trace w ++ d /\ Forall Q d)
    /\ (forall a, fst (m w) = Ok a -> P a).

(** The world after [ensureSchema]: the schema file is written unless it
    already holds the right content. *)
Definition ensureSchema_world (n d : jsstring) (g : option jsstring)
    (j : jsstring) (w : World) : World :=
  let dir := path_join (match g with None => d | Some p => p end)
                       SCHEMAS_DIR_NAME in
  let w1 := add_trace [EvMkdir dir; EvReadFile (schemaPath n d g)] w in
  if bool_decide (files w !! schemaPath n d g = Some (j ++ nl)) then w1
  else set_file (schemaPath n d g) (j ++ nl)
                (add_trace [EvWriteFile (schemaPath n d g) (j ++ nl)] w1).

(** The path asked for: [getConfigPath] on what the options give. *)
Definition requestedPath (options : InitConfigOptions) : jsstring :=
  fst (getConfigPath (getConfigOrConfigDirPath options)
                     (name options ++ str "." ++ YAML_EXT)).

Definition requestedDir (options : InitConfigOptions) : jsstring :=
  snd (getConfigPath (getConfigOrConfigDirPath options)
                     (name options ++ str "." ++ YAML_EXT)).

(** The schema comment of a config in directory [d]. *)
Definition schemaPathComment (options : InitConfigOptions) (d : jsstring)
  : jsstring :=
  schemaPathCommentStart
  ++ path_relative d (schemaPath (name options) d (getSchemaDirPath options)).

(** A write of the schema file, or a write of a formatted text. *)
Definition schema_or_formatted (options : InitConfigOptions) (e : Event)
  : Prop :=
  match e with
  | EvWriteFile p c =>
      (p = schemaPath (name options) (requestedDir options)
                      (getSchemaDirPath options)
       /\ c = latestSchemaJson options ++ nl)
      \/ (exists s, c = formatConfig s)
  | _ => True
  end.

Definition formatted_write (e : Event) : Prop :=
  match e with
  | EvWriteFile _ c => exists s, c = formatConfig s
  | _ => True
  end.

(** No read, and writes to [p] only. *)
Definition writes_to (p : jsstring) (e : Event) : Prop :=
  match e with
  | EvReadFile _ => False
  | EvWriteFile q _ => q = p
  | _ => True
  end.

(** [m] changes neither the handle objects nor the instance cache. *)
Definition keeps_handles {A} (m : M A) : Prop :=
  forall w, heap (snd (m w)) = heap w
            /\ initializedConfigs (snd (m w)) = initializedConfigs w.

End StatementDefinitions.

(** *** The spacing rule of the formatter *)

(** Two neighbouring lines of a formatted text: a blank line is not followed
    by an indented line, and a line that is neither blank nor indented comes
    right after a non-blank line only if that line is a comment. *)
Definition spacing_ok (a b : jsstring) : bool :=
  if blank b then true
  else if blank a then negb (isIndented b)
  else isIndented b || isComment a.

Fixpoint well_spaced_from (a : jsstring) (lines : list jsstring) : bool :=
  match lines with
  | [] => true
  | b :: rest => spacing_ok a b && well_spaced_from b rest
  end.

Definition well_spaced (lines : list jsstring) : bool :=
  match lines with
  | [] => true
  | a :: rest => well_spaced_from a rest
  end.

(** *** Outcomes *)

Definition succeeded {A} (r : Result A) : bool :=
  match r with Ok _ => true | _ => false end.

Definition is_fatal {A} (r : Result A) : bool :=
  match r with Fatal _ => true | _ => false end.

(** The init function returned [null]. *)
Definition is_null {A} (r : Result (option A)) : bool :=
  match r with Ok None => true | _ => false end.

(** The init function returned an object. *)
Definition returned_object {A} (r : Result (option A)) : bool :=
  match r with Ok (Some _) => true | _ => false end.

(** What holds of a read-only handle built by the loader: its data pass
    the latest-schema validator and the optional validator, its text parses
    to its data, and it carries the latest-schema validator. *)
Definition valid_readonly `{Externals} (options : InitConfigOptions)
    (ro : ReadonlyConfig) : Prop :=
  validateLatestConfig options (ro_data ro) = true
  /\ maybeValidationError (validate options) (ro_data ro) (ro_getPath ro)
     = None
  /\ parse (ro_getConfigString ro) = Some (ro_data ro)
  /\ ro_validateLatest ro = validateLatestConfig options.


(** * Rust toolchain set-up (src/lib/rust.ts)

    The module shells out to [cargo], [rustup] and [curl] through
    [execPromise].  What the commands answer is not in the hands of the
    program: [execPromise] is a parameter that, given the command and the
    state of the machine, either resolves with the output or rejects.  The
    regular expression [regExpRecommendedToolchain] has the [g] flag, so
    its [test] method keeps a position between calls; the method is a
    parameter that may read and change the state as well.  The spinner
    message, [printOutput] and the [shell] option of a call are left out:
    only the command and its arguments are kept. *)

Module Rust.

(** [s.includes(p)] *)
Fixpoint includes (s p : jsstring) : bool :=
  startsWith s p
  || match s with
     | [] => false
     | _ :: r => includes r p
     end.

(** [s.split(sep)] for a separator of one code unit. *)
Fixpoint split (s : jsstring) (sep : N) : list jsstring :=
  match s with
  | [] => [[]]
  | c :: r =>
      if c =? sep then [] :: split r sep
      else match split r sep with
           | h :: t => (c :: h) :: t
           | [] => [[c]]
           end
  end.

(** The code unit of the double quote. *)
Definition QUOTE : N := 34.

Record Command : Type := mkCommand {
  command : jsstring;
  args : list jsstring
}.

Class Shell : Type := {
  Env : Type;
  (** [None]: the promise is rejected *)
  execPromise : Command -> Env -> option jsstring * Env;
  (** [regExpRecommendedToolchain.test] *)
  regExpRecommendedToolchain : jsstring -> Env -> bool * Env;
  (** [commandObj.config.windows] *)
  windows : bool;
  REQUIRED_RUST_TOOLCHAIN : jsstring;
  RUST_WASM32_WASI_TARGET : jsstring
}.

(** The messages given to [commandObj.error]. *)
Inductive ErrorMessage : Type :=
  | RustNeedsToBeInstalled
  | RustNotInPath
  | ToolchainNotInstalled
  | TargetNotInstalled
  | LatestVersionNotFound (name : jsstring).

(** The outcome of an asynchronous function: a value, a call of
    [commandObj.error] (which throws), or the rejection of [execPromise]. *)
Inductive Outcome (A : Type) : Type :=
  | Returned (a : A)
  | Errored (m : ErrorMessage)
  | Rejected.
Arguments Returned {A} a.
Arguments Errored {A} m.
Arguments Rejected {A}.

(** A command that was run, with its output if it succeeded. *)
Definition Executed : Type := Command * option jsstring.

Section Monad.
Context `{Shell}.

(** A computation gives an outcome, the new state of the machine and the
    commands it ran, in order. *)
Definition M (A : Type) : Type := Env -> Outcome A * Env * list Executed.

Definition ret {A} (a : A) : M A := fun e => (Returned a, e, []).

Definition bind {A B} (m : M A) (k : A -> M B) : M B :=
  fun e =>
    match m e with
    | (Returned a, e1, t1) =>
        match k a e1 with
        | (r, e2, t2) => (r, e2, t1 ++ t2)
        end
    | (Errored x, e1, t1) => (Errored x, e1, t1)
    | (Rejected, e1, t1) => (Rejected, e1, t1)
    end.

Definition commandObj_error {A} (x : ErrorMessage) : M A :=
  fun e => (Errored x, e, []).

(** [await execPromise({command, args})] *)
Definition exec (c : Command) : M jsstring :=
  fun e =>
    match execPromise c e with
    | (Some output, e1) => (Returned output, e1, [(c, Some output)])
    | (None, e1) => (Rejected, e1, [(c, None)])
    end.

(** [try { m } catch { handler }] *)
Definition try_catch {A} (m : M A) (handler : M A) : M A :=
  fun e =>
    match m e with
    | (Returned a, e1, t1) => (Returned a, e1, t1)
    | (_, e1, t1) =>
        match handler e1 with
        | (r, e2, t2) => (r, e2, t1 ++ t2)
        end
    end.

(** [regExpRecommendedToolchain.test(s)] *)
Definition regExpRecommendedToolchain_test (s : jsstring) : M bool :=
  fun e =>
    match regExpRecommendedToolchain s e with
    | (b, e1) => (Returned b, e1, [])
    end.

End Monad.

Declare Scope rust_scope.
Notation "'let*' x ':=' m 'in' k" := (bind m (fun x => k))
  (at level 10, x pattern, m at level 100, k at level 200) : rust_scope.
Notation "m ';;' k" := (bind m (fun _ => k))
  (at level 100, k at level 200, right associativity) : rust_scope.
Local Open Scope rust_scope.

Section Operations.
Context `{Shell}.

Definition CARGO : jsstring := str "cargo".
Definition RUSTUP : jsstring := str "rustup".

Definition cargoVersion : Command := mkCommand CARGO [str "--version"].
Definition rustupVersion : Command := mkCommand RUSTUP [str "--version"].
Definition installRust : Command :=
  mkCommand (str "curl")
            [str "--proto"; str "'=https'"; str "--tlsv1.2"; str "-sSf";
             str "https://sh.rustup.rs"; str "|"; str "sh"; str "-s";
             str "--"; str "--quiet"; str "-y"].
Definition toolchainList : Command :=
  mkCommand RUSTUP [str "toolchain"; str "list"].
Definition overrideSet : Command :=
  mkCommand RUSTUP [str "override"; str "set"; REQUIRED_RUST_TOOLCHAIN].
Definition installToolchain : Command :=
  mkCommand RUSTUP [str "install"; REQUIRED_RUST_TOOLCHAIN].
Definition targetList : Command :=
  mkCommand RUSTUP [str "target"; str "list"].
Definition targetAdd : Command :=
  mkCommand RUSTUP [str "target"; str "add"; RUST_WASM32_WASI_TARGET].
Definition cargoSearch (name : jsstring) : Command :=
  mkCommand CARGO [str "search"; name; str "--limit"; str "1"].

Definition isRustInstalled : M bool :=
  try_catch
    (exec cargoVersion ;;
     exec rustupVersion ;;
     ret true)
    (ret false).

Definition hasRequiredRustToolchain : M bool :=
  let* toolChainList := exec toolchainList in
  let hasRequiredRustToolchain :=
    includes toolChainList REQUIRED_RUST_TOOLCHAIN in
  (if hasRequiredRustToolchain
   then let* recommended := regExpRecommendedToolchain_test toolChainList in
        if negb recommended then exec overrideSet ;; ret tt else ret tt
   else ret tt) ;;
  ret hasRequiredRustToolchain.

Definition hasRequiredRustTarget : M bool :=
  let* targets := exec targetList in
  ret (includes targets (RUST_WASM32_WASI_TARGET ++ str " (installed)")).

Definition ensureRust : M unit :=
  (let* installed := isRustInstalled in
   if negb installed
   then (if windows then commandObj_error RustNeedsToBeInstalled
         else ret tt) ;;
        exec installRust ;;
        let* installed := isRustInstalled in
        if negb installed then commandObj_error RustNotInPath else ret tt
   else ret tt) ;;
  (let* toolchain := hasRequiredRustToolchain in
   if negb toolchain
   then exec installToolchain ;;
        let* toolchain := hasRequiredRustToolchain in
        if negb toolchain then commandObj_error ToolchainNotInstalled
        else ret tt
   else ret tt) ;;
  let* target := hasRequiredRustTarget in
  if negb target
  then exec targetAdd ;;
       let* target := hasRequiredRustTarget in
       if negb target then commandObj_error TargetNotInstalled else ret tt
  else ret tt.

Definition getLatestVersionOfCargoDependency (name : jsstring)
  : M jsstring :=
  let* output := exec (cargoSearch name) in
  let* version :=
    match array_get (split output QUOTE) 1 with
    | Some version => ret version
    | None => commandObj_error (LatestVersionNotFound name)
    end in
  ret (trim version).

End Operations.

(** The parts of a run. *)
Definition outcome {E A} (r : Outcome A * E * list Executed) : Outcome A :=
  fst (fst r).
Definition final {E A} (r : Outcome A * E * list Executed) : E :=
  snd (fst r).
Definition executed {E A} (r : Outcome A * E * list Executed)
  : list Executed :=
  snd r.

Definition is_returned {A} (r : Outcome A) : bool :=
  match r with
  | Returned _ => true
  | _ => false
  end.

(** [c] was run in [t], its last run gave an output, and the output
    satisfies [P]. *)
Definition last_output (t : list Executed) (c : Command)
    (P : jsstring -> bool) : Prop :=
  exists before output after,
    t = before ++ (c, Some output) :: after
    /\ P output = true
    /\ Forall (fun x => fst x <> c) after.

(** [c] was run in [t]. *)
Definition ran (t : list Executed) (c : Command) : Prop :=
  exists result, In (c, result) t.

(** The text between the first and the second double quote of [s] (up to
    the end without a second one), if [s] has a double quote. *)
Fixpoint up_to_quote (s : jsstring) : jsstring :=
  match s with
  | [] => []
  | c :: r => if c =? QUOTE then [] else c :: up_to_quote r
  end.

Fixpoint quoted (s : jsstring) : option jsstring :=
  match s with
  | [] => None
  | c :: r => if c =? QUOTE then Some (up_to_quote r) else quoted r
  end.

(** The three steps of [ensureRust]. *)
Section Steps.
Context `{Shell}.

Definition ensureInstalled : M unit :=
  let* installed := isRustInstalled in
  if negb installed
  then (if windows then commandObj_error RustNeedsToBeInstalled
        else ret tt) ;;
       exec installRust ;;
       let* installed := isRustInstalled in
       if negb installed then commandObj_error RustNotInPath else ret tt
  else ret tt.

Definition ensureToolchain : M unit :=
  let* toolchain := hasRequiredRustToolchain in
  if negb toolchain
  then exec installToolchain ;;
       let* toolchain := hasRequiredRustToolchain in
       if negb toolchain then commandObj_error ToolchainNotInstalled
       else ret tt
  else ret tt.

Definition ensureTarget : M unit :=
  let* target := hasRequiredRustTarget in
  if negb target
  then exec targetAdd ;;
       let* target := hasRequiredRustTarget in
       if negb target then commandObj_error TargetNotInstalled else ret tt
  else ret tt.

(** A check, and when it fails an installation followed by the same
    check. *)
Definition checkInstallCheck (check : M bool) (install : Command)
    (message : ErrorMessage) : M unit :=
  let* ok := check in
  if negb ok
  then exec install ;;
       let* ok := check in
       if negb ok then commandObj_error message else ret tt
  else ret tt.

(** What a run of each step shows: the commands it may run, what its
    success tells, and what a run of its installation command tells.  [ok]
    says whether the step returned. *)
Definition installed_step (ok : bool) (t : list Executed) : Prop :=
  Forall (fun x => In (fst x) [installRust; cargoVersion; rustupVersion]) t
  /\ (ok = true ->
      last_output t cargoVersion (fun _ => true)
      /\ last_output t rustupVersion (fun _ => true))
  /\ (ran t installRust ->
      windows = false
      /\ (In (cargoVersion, None) t \/ In (rustupVersion, None) t)).

Definition toolchain_step (ok : bool) (t : list Executed) : Prop :=
  Forall (fun x => In (fst x) [installToolchain; toolchainList; overrideSet])
         t
  /\ (ok = true ->
      last_output t toolchainList
                  (fun o => includes o REQUIRED_RUST_TOOLCHAIN))
  /\ (ran t installToolchain ->
      exists o, In (toolchainList, Some o) t
                /\ includes o REQUIRED_RUST_TOOLCHAIN = false)
  /\ (ran t overrideSet ->
      exists o, In (toolchainList, Some o) t
                /\ includes o REQUIRED_RUST_TOOLCHAIN = true).

Definition target_step (ok : bool) (t : list Executed) : Prop :=
  Forall (fun x => In (fst x) [targetAdd; targetList]) t
  /\ (ok = true ->
      last_output t targetList
        (fun o => includes o (RUST_WASM32_WASI_TARGET ++ str " (installed)")))
  /\ (ran t targetAdd ->
      exists o,
        In (targetList, Some o) t
        /\ includes o (RUST_WASM32_WASI_TARGET ++ str " (installed)")
           = false).

End Steps.

(** A machine for the examples: the state says whether Rust is there;
    [curl] installs it, and every other command succeeds only when it is
    there. *)
Module Demo.

Definition demo_output : jsstring :=
  str "nightly-x86_64 (override)" ++ nl ++ str "wasm32-wasi (installed)".

#[export] Instance demo_shell : Shell := {
  Env := bool;
  execPromise c e :=
    if bool_decide (command c = str "curl") then (Some [], true)
    else if e then (Some demo_output, e) else (None, e);
  regExpRecommendedToolchain s e := (true, e);
  windows := true;
  REQUIRED_RUST_TOOLCHAIN := str "nightly-x86_64";
  RUST_WASM32_WASI_TARGET := str "wasm32-wasi"
}.

End Demo.

End Rust.

(** * The versions command (src/commands/dep/versions.ts) *)

Module Versions.

(** An object with string values is kept as the list of its entries in
    property order, which is what [Object.entries] returns.  An assignment
    to a property keeps the place of a key that is there and puts a new key
    last; this is the order of keys that are not array indices, as the
    names of packages are. *)
Definition JsObject : Type := list (jsstring * jsstring).

Definition Object_entries (o : JsObject) : list (jsstring * jsstring) := o.

(** [o[k] = v] *)
Fixpoint set (o : JsObject) (k v : jsstring) : JsObject :=
  match o with
  | [] => [(k, v)]
  | (k', v') :: rest =>
      if jsstring_eqb k' k then (k', v) :: rest else (k', v') :: set rest k v
  end.

Definition Object_fromEntries (entries : list (jsstring * jsstring))
  : JsObject :=
  fold_left (fun o entry => set o (fst entry) (snd entry)) entries [].

Definition filterOutNonFluenceDependencies (dependencies : JsObject)
  : JsObject :=
  Object_fromEntries
    (List.filter (fun '(dep, _) => startsWith dep (str "@fluencelabs/"))
                 (Object_entries dependencies)).

(** The keys of an object are distinct. *)
Definition distinct_keys (o : JsObject) : Prop := NoDup (fmap fst o).

End Versions.

(** * The provider prompts (addComputePeers)

    The answers to the prompts and the two chain queries made before the
    loop are not in the hands of the program: they are parameters that,
    given the state of the outside world, resolve with a value or reject.
    The helpers of other modules ([numToStr], [bigintToStr], [Number],
    [color.yellow]) and their constants are parameters as well.
    [computePeersCounter] is kept as a natural number: the number of the
    source is exact up to 2^53.  The two objects that the function fills
    are kept as finite maps from names to values. *)

Module Provider.

Record InputArgs (V : Type) : Type := mkInputArgs {
  message : jsstring;
  default : option jsstring;
  validate : option V
}.
Arguments mkInputArgs {V} message default validate.
Arguments message {V} i.
Arguments default {V} i.
Arguments validate {V} i.

Class Prompts : Type := {
  Env : Type;
  (** the type of the [validate] callbacks *)
  Validator : Type;
  validatePositiveNumberOrEmpty : Validator;
  validateAddress : Validator;
  validatePercent : Validator;
  (** [None]: the promise is rejected *)
  input : InputArgs Validator -> Env -> option jsstring * Env;
  confirm : jsstring -> Env -> option bool * Env;
  getMinCCDuration : Env -> option Z * Env;
  ccDurationValidator : Env -> option Validator * Env;
  isInteractive : bool;
  numToStr : jsnum -> jsstring;
  bigintToStr : Z -> jsstring;
  Number : jsstring -> jsnum;
  (** [color.yellow] *)
  yellow : jsstring -> jsstring;
  DEFAULT_NUMBER_OF_COMPUTE_UNITS_ON_NOX : jsnum;
  DEFAULT_CC_STAKER_REWARD : jsnum;
  DURATION_EXAMPLE : jsstring
}.

Record ComputePeer : Type := mkComputePeer {
  computeUnits : jsnum
}.

Record CapacityCommitment : Type := mkCapacityCommitment {
  duration : jsstring;
  delegator : jsstring;
  stakerReward : jsnum
}.

(** The two properties of [providerConfig] that [addComputePeers] fills. *)
Record ProviderConfig : Type := mkProviderConfig {
  computePeers : gmap jsstring ComputePeer;
  capacityCommitments : gmap jsstring CapacityCommitment
}.

(** The outcome of the function: it returned, a promise it awaited was
    rejected, or its loop was still running when the fuel ran out. *)
Inductive Outcome (A : Type) : Type :=
  | Returned (a : A)
  | Rejected
  | Unfinished.
Arguments Returned {A} a.
Arguments Rejected {A}.
Arguments Unfinished {A}.

(** [a > b] for a number [a] and a counter [b]. *)
Definition js_gt (a : jsnum) (b : nat) : bool :=
  match a with
  | JNaN => false
  | JInf negative => negb negative
  | JFin q =>
      match (q ?= inject_Z (Z.of_nat b))%Q with
      | Gt => true
      | _ => false
      end
  end.

Definition DEFAULT_NUMBER_OF_NOXES : nat := 3.

Section Model.
Context `{Prompts}.

(** A prompt that was shown, with the answer if there was one. *)
Inductive Asked : Type :=
  | AskedInput (args : InputArgs Validator) (answer : option jsstring)
  | AskedConfirm (message : jsstring) (answer : option bool).

Record State : Type := mkState {
  env : Env;
  providerConfig : ProviderConfig
}.

Definition M (A : Type) : Type := State -> Outcome A * State * list Asked.

Definition ret {A} (a : A) : M A := fun s => (Returned a, s, []).

Definition bind {A B} (m : M A) (k : A -> M B) : M B :=
  fun s =>
    match m s with
    | (Returned a, s1, t1) =>
        match k a s1 with
        | (r, s2, t2) => (r, s2, t1 ++ t2)
        end
    | (Rejected, s1, t1) => (Rejected, s1, t1)
    | (Unfinished, s1, t1) => (Unfinished, s1, t1)
    end.

Definition unfinished {A} : M A := fun s => (Unfinished, s, []).

(** An awaited call that shows no prompt. *)
Definition await {A} (f : Env -> option A * Env) : M A :=
  fun s =>
    match f (env s) with
    | (Some a, e1) => (Returned a, mkState e1 (providerConfig s), [])
    | (None, e1) => (Rejected, mkState e1 (providerConfig s), [])
    end.

(** [await input(args)] *)
Definition await_input (args : InputArgs Validator) : M jsstring :=
  fun s =>
    match input args (env s) with
    | (Some answer, e1) =>
        (Returned answer, mkState e1 (providerConfig s),
         [AskedInput args (Some answer)])
    | (None, e1) =>
        (Rejected, mkState e1 (providerConfig s), [AskedInput args None])
    end.

(** [await confirm({message})] *)
Definition await_confirm (message : jsstring) : M bool :=
  fun s =>
    match confirm message (env s) with
    | (Some answer, e1) =>
        (Returned answer, mkState e1 (providerConfig s),
         [AskedConfirm message (Some answer)])
    | (None, e1) =>
        (Rejected, mkState e1 (providerConfig s),
         [AskedConfirm message None])
    end.

(** [providerConfig.capacityCommitments[name] = value] *)
Definition set_capacityCommitment (name : jsstring)
    (value : CapacityCommitment) : M unit :=
  fun s =>
    (Returned tt,
     mkState (env s)
             (mkProviderConfig
                (computePeers (providerConfig s))
                (<[name := value]> (capacityCommitments (providerConfig s)))),
     []).

(** [providerConfig.computePeers[name] = value] *)
Definition set_computePeer (name : jsstring) (value : ComputePeer) : M unit :=
  fun s =>
    (Returned tt,
     mkState (env s)
             (mkProviderConfig
                (<[name := value]> (computePeers (providerConfig s)))
                (capacityCommitments (providerConfig s))),
     []).

End Model.

Declare Scope provider_scope.
Notation "'let*' x ':=' m 'in' k" := (bind m (fun x => k))
  (at level 10, x pattern, m at level 100, k at level 200) : provider_scope.
Notation "m ';;' k" := (bind m (fun _ => k))
  (at level 100, k at level 200, right associativity) : provider_scope.
Local Open Scope provider_scope.

Section Operations.
Context `{Prompts}.

(** The [do ... while] loop of [addComputePeers]: [fuel] bounds the number
    of times the body is run. *)
Fixpoint addComputePeers_loop (fuel : nat) (numberOfNoxes : option jsnum)
    (minDuration : Z) (validateCCDuration : Validator)
    (computePeersCounter : nat) : M unit :=
  match fuel with
  | O => unfinished
  | S fuel =>
      let defaultName :=
        str "nox-" ++ numToStr (jsnum_of_nat computePeersCounter) in
      let* name :=
        match numberOfNoxes with
        | None =>
            await_input (mkInputArgs (str "Enter name for compute peer")
                                     (Some defaultName) None)
        | Some _ => ret defaultName
        end in
      let computePeersCounter :=
        if jsstring_eqb name defaultName then S computePeersCounter
        else computePeersCounter in
      let* computeUnitsString :=
        await_input
          (mkInputArgs
             (str "Enter number of compute units for " ++ yellow name)
             (Some (numToStr DEFAULT_NUMBER_OF_COMPUTE_UNITS_ON_NOX))
             (Some validatePositiveNumberOrEmpty)) in
      let* capacityCommitmentDuration :=
        await_input
          (mkInputArgs
             (str "Enter capacity commitment duration " ++ DURATION_EXAMPLE)
             (Some (bigintToStr minDuration ++ str " sec"))
             (Some validateCCDuration)) in
      let* capacityCommitmentDelegator :=
        await_input
          (mkInputArgs (str "Enter capacity commitment delegator address")
                       None (Some validateAddress)) in
      let* capacityCommitmentStakerReward :=
        await_input
          (mkInputArgs
             (str "Enter capacity commitment staker reward (in %)")
             (Some (numToStr DEFAULT_CC_STAKER_REWARD))
             (Some validatePercent)) in
      set_capacityCommitment name
        (mkCapacityCommitment capacityCommitmentDuration
                              capacityCommitmentDelegator
                              (Number capacityCommitmentStakerReward)) ;;
      set_computePeer name (mkComputePeer (Number computeUnitsString)) ;;
      let* isAddingMoreComputePeers :=
        match numberOfNoxes with
        | Some numberOfNoxes => ret (js_gt numberOfNoxes computePeersCounter)
        | None =>
            if isInteractive
            then await_confirm (str "Do you want to add more compute peers")
            else ret (computePeersCounter <? DEFAULT_NUMBER_OF_NOXES)%nat
        end in
      if isAddingMoreComputePeers
      then addComputePeers_loop fuel numberOfNoxes minDuration
                                validateCCDuration computePeersCounter
      else ret tt
  end.

Definition addComputePeers (fuel : nat) (numberOfNoxes : option jsnum)
  : M unit :=
  let* minDuration := await getMinCCDuration in
  let* validateCCDuration := await ccDurationValidator in
  addComputePeers_loop fuel numberOfNoxes minDuration validateCCDuration 0.

End Operations.

(** The parts of a run. *)
Definition outcome {S T A} (r : Outcome A * S * T) : Outcome A :=
  fst (fst r).
Definition final {S T A} (r : Outcome A * S * T) : S := snd (fst r).
Definition asked {S T A} (r : Outcome A * S * T) : T := snd r.

Definition is_returned {A} (r : Outcome A) : bool :=
  match r with
  | Returned _ => true
  | _ => false
  end.

Definition is_unfinished {A} (r : Outcome A) : bool :=
  match r with
  | Unfinished => true
  | _ => false
  end.

Section Statements.
Context `{Prompts}.

(** The default name of the peer number [i]. *)
Definition nox (i : nat) : jsstring :=
  str "nox-" ++ numToStr (jsnum_of_nat i).

(** The default names of [count] peers from the number [from] on. *)
Definition noxes (from count : nat) : gset jsstring :=
  list_to_set (nox <$> seq from count).

(** [name] is a key of both objects. *)
Definition has_peer (config : ProviderConfig) (name : jsstring) : Prop :=
  is_Some (computePeers config !! name)
  /\ is_Some (capacityCommitments config !! name).

Definition is_confirm (a : Asked) : bool :=
  match a with
  | AskedConfirm _ _ => true
  | AskedInput _ _ => false
  end.

(** The prompts for one peer called [name], and the two assignments. *)
Definition addComputePeer (name : jsstring) (minDuration : Z)
    (validateCCDuration : Validator) : M unit :=
  let* computeUnitsString :=
    await_input
      (mkInputArgs
         (str "Enter number of compute units for " ++ yellow name)
         (Some (numToStr DEFAULT_NUMBER_OF_COMPUTE_UNITS_ON_NOX))
         (Some validatePositiveNumberOrEmpty)) in
  let* capacityCommitmentDuration :=
    await_input
      (mkInputArgs
         (str "Enter capacity commitment duration " ++ DURATION_EXAMPLE)
         (Some (bigintToStr minDuration ++ str " sec"))
         (Some validateCCDuration)) in
  let* capacityCommitmentDelegator :=
    await_input
      (mkInputArgs (str "Enter capacity commitment delegator address")
                   None (Some validateAddress)) in
  let* capacityCommitmentStakerReward :=
    await_input
      (mkInputArgs
         (str "Enter capacity commitment staker reward (in %)")
         (Some (numToStr DEFAULT_CC_STAKER_REWARD))
         (Some validatePercent)) in
  set_capacityCommitment name
    (mkCapacityCommitment capacityCommitmentDuration
                          capacityCommitmentDelegator
                          (Number capacityCommitmentStakerReward)) ;;
  set_computePeer name (mkComputePeer (Number computeUnitsString)).

End Statements.

(** How many times the body of the loop runs for a given number of noxes:
    once at least, and never to an end for [Infinity]. *)
Definition iterations (numberOfNoxes : jsnum) : option nat :=
  match numberOfNoxes with
  | JNaN => Some 1%nat
  | JInf true => Some 1%nat
  | JInf false => None
  | JFin q => Some (Z.to_nat (Z.max 1 (Qceiling q)))
  end.

(** Prompts for the examples: every input is answered with its default
    (the empty string without one), every confirmation with no, and the
    mode is not interactive. *)
Module Demo.

#[export] Instance demo_prompts : Prompts := {
  Env := unit;
  Validator := unit;
  validatePositiveNumberOrEmpty := tt;
  validateAddress := tt;
  validatePercent := tt;
  input args e :=
    (Some match Provider.default args with
          | Some answer => answer
          | None => []
          end, e);
  confirm _ e := (Some false, e);
  getMinCCDuration e := (Some 3600%Z, e);
  ccDurationValidator e := (Some tt, e);
  isInteractive := false;
  numToStr n :=
    match n with
    | JFin q => str (NilZero.string_of_int (Z.to_int (Qfloor q)))
    | _ => str "NaN"
    end;
  bigintToStr z := str (NilZero.string_of_int (Z.to_int z));
  Number s := JNaN;
  yellow s := s;
  DEFAULT_NUMBER_OF_COMPUTE_UNITS_ON_NOX := JFin 32;
  DEFAULT_CC_STAKER_REWARD := JFin 20;
  DURATION_EXAMPLE := str "(5 min)"
}.

Definition empty_state : State :=
  mkState tt (mkProviderConfig empty empty).

End Demo.

End Provider.

(** * Properties *)

(** ** Strings *)

Section StringFacts.

Lemma is_ws_NL : is_ws NL = true.
Proof. reflexivity. Qed.

Lemma trimStart_snoc_nonws s c :
  is_ws c = false -> trimStart (s ++ [c]) = trimStart s ++ [c].
Proof.
  intros Hc. induction s as [|d s IH]; simpl.
  - now rewrite Hc.
  - destruct (is_ws d); [exact IH | reflexivity].
Qed.

Lemma trimStart_blank s : blank s = true -> trimStart s = [].
Proof.
  induction s as [|c s IH]; simpl; [reflexivity|].
  intros [Hc Hs]%andb_prop. rewrite Hc. auto.
Qed.

Lemma trimStart_nil_blank s : trimStart s = [] -> blank s = true.
Proof.
  induction s as [|c s IH]; simpl; [reflexivity|].
  destruct (is_ws c) eqn:Hc; [auto | discriminate].
Qed.

Lemma blank_rev s : blank (rev s) = blank s.
Proof.
  unfold blank. induction s as [|c s IH]; simpl; [reflexivity|].
  rewrite forallb_app, IH. simpl. rewrite andb_true_r. apply andb_comm.
Qed.

Lemma trimStart_blank_iff s : trimStart s = [] <-> blank s = true.
Proof. split; [apply trimStart_nil_blank | apply trimStart_blank]. Qed.

Lemma blank_trimStart s : blank (trimStart s) = blank s.
Proof.
  induction s as [|c s IH]; simpl; [reflexivity|].
  destruct (is_ws c) eqn:Hc; simpl; rewrite ?Hc; auto.
Qed.

Lemma trim_nil_iff s : trim s = [] <-> blank s = true.
Proof.
  unfold trim, trimEnd. split.
  - intros E. apply (f_equal (@rev N)) in E. rewrite rev_involutive in E.
    simpl in E. apply trimStart_nil_blank in E.
    now rewrite blank_rev, blank_trimStart in E.
  - intros E. now rewrite (trimStart_blank s E).
Qed.

Lemma trim_eqb_blank line : jsstring_eqb (trim line) (str "") = blank line.
Proof.
  unfold jsstring_eqb. simpl str.
  destruct (blank line) eqn:E.
  - apply bool_decide_eq_true. now apply trim_nil_iff.
  - apply bool_decide_eq_false. intros Hn. apply trim_nil_iff in Hn. congruence.
Qed.

Lemma trimEnd_snoc_nonws s c : is_ws c = false -> trimEnd (s ++ [c]) = s ++ [c].
Proof.
  intros Hc. unfold trimEnd. rewrite rev_app_distr. simpl. rewrite Hc.
  simpl. now rewrite rev_involutive.
Qed.

Lemma trimEnd_snoc_ws s c : is_ws c = true -> trimEnd (s ++ [c]) = trimEnd s.
Proof.
  intros Hc. unfold trimEnd. rewrite rev_app_distr. simpl. now rewrite Hc.
Qed.

Lemma trimStart_head s : trimStart s = [] \/ starts_nonws (trimStart s).
Proof.
  induction s as [|c s IH]; simpl; [now left|].
  destruct (is_ws c) eqn:Hc; [exact IH|]. right. now exists c, s.
Qed.

Lemma trimStart_fixed s : starts_nonws s -> trimStart s = s.
Proof. intros (c & r & -> & Hc). simpl. now rewrite Hc. Qed.

Lemma trimEnd_fixed s : ends_nonws s -> trimEnd s = s.
Proof. intros (z & d & -> & Hd). now apply trimEnd_snoc_nonws. Qed.

Lemma trim_fixed s : starts_nonws s -> ends_nonws s -> trim s = s.
Proof.
  intros Hs He. unfold trim. rewrite (trimStart_fixed s Hs).
  now apply trimEnd_fixed.
Qed.

(** The shape of a trimmed string: empty, or delimited by two code units
    that are not white space. *)
Lemma trim_shape s :
  trim s = [] \/ (starts_nonws (trim s) /\ ends_nonws (trim s)).
Proof.
  unfold trim.
  destruct (trimStart_head s) as [E | (c & r & E & Hc)]; rewrite E.
  - now left.
  - right. unfold trimEnd. simpl rev.
    rewrite (trimStart_snoc_nonws _ _ Hc).
    rewrite rev_app_distr. simpl. split.
    + now exists c, (rev (trimStart (rev r))).
    + destruct (trimStart_head (rev r)) as [E' | (d & v & E' & Hd)]; rewrite E'.
      * now exists [], c.
      * exists (c :: rev v), d. simpl. now rewrite app_comm_cons.
Qed.

Lemma trim_trim s : trim (trim s) = trim s.
Proof.
  destruct (trim_shape s) as [E | [Hs He]].
  - now rewrite E.
  - now apply trim_fixed.
Qed.

Lemma ends_nonws_not_nil s : ends_nonws s -> s <> [].
Proof. intros (z & d & -> & _). now destruct z. Qed.

(** Trimming a trimmed string followed by a newline gives it back. *)
Lemma trim_snoc_nl s : trim s = s -> trim (s ++ nl) = s.
Proof.
  intros E. destruct (trim_shape s) as [E' | [Hs He]]; rewrite E in *.
  - subst s. reflexivity.
  - unfold trim.
    destruct Hs as (c & r & -> & Hc). simpl. rewrite Hc.
    change (c :: r ++ nl) with ((c :: r) ++ [NL]).
    rewrite trimEnd_snoc_ws by reflexivity. now apply trimEnd_fixed.
Qed.

(** *** [split] and [join] *)

Lemma split_nl_not_nil s : split_nl s <> [].
Proof.
  destruct s as [|c s]; simpl; [discriminate|].
  destruct (c =? NL); [discriminate|]. now destruct (split_nl s).
Qed.

Lemma split_nl_nlfree s : Forall nlfree (split_nl s).
Proof.
  induction s as [|c s IH]; simpl.
  - repeat constructor.
  - destruct (N.eqb_spec c NL) as [->|Hc].
    + constructor; [constructor | exact IH].
    + destruct (split_nl s) as [|h t]; [repeat constructor; assumption|].
      inversion IH; subst. constructor; [|assumption].
      now constructor.
Qed.

Lemma split_nl_app_nlfree x rest :
  nlfree x -> split_nl (x ++ NL :: rest) = x :: split_nl rest.
Proof.
  induction 1 as [|c x Hc Hx IH]; simpl.
  - reflexivity.
  - destruct (N.eqb_spec c NL); [contradiction|]. now rewrite IH.
Qed.

Lemma split_nl_single x : nlfree x -> split_nl x = [x].
Proof.
  induction 1 as [|c x Hc Hx IH]; simpl; [reflexivity|].
  destruct (N.eqb_spec c NL); [contradiction|]. now rewrite IH.
Qed.

Lemma split_join lines :
  lines <> [] -> Forall nlfree lines -> split_nl (join_nl lines) = lines.
Proof.
  induction lines as [|x [|y r] IH]; intros Hne Hall; [contradiction| |].
  - simpl. apply split_nl_single. now inversion Hall.
  - inversion Hall; subst.
    change (join_nl (x :: y :: r)) with (x ++ NL :: join_nl (y :: r)).
    rewrite split_nl_app_nlfree by assumption.
    f_equal. now apply IH.
Qed.

Lemma join_split s : join_nl (split_nl s) = s.
Proof.
  induction s as [|c s IH]; simpl; [reflexivity|].
  destruct (N.eqb_spec c NL) as [->|Hc].
  - pose proof (split_nl_not_nil s) as Hn.
    destruct (split_nl s) as [|h t]; [contradiction|].
    simpl in *. now rewrite IH.
  - pose proof (split_nl_not_nil s) as Hn.
    destruct (split_nl s) as [|h [|h' t]]; [contradiction| |];
      simpl in *; now rewrite <- IH.
Qed.

Lemma nonws_not_NL c : is_ws c = false -> c <> NL.
Proof. intros H ->. discriminate. Qed.

(** The first line of a string that starts with a code unit other than a
    newline starts with it. *)
Lemma split_nl_cons c s :
  c <> NL -> exists h t, split_nl (c :: s) = (c :: h) :: t
                         /\ split_nl s = h :: t.
Proof.
  intros Hc. simpl. destruct (N.eqb_spec c NL); [contradiction|].
  pose proof (split_nl_not_nil s).
  destruct (split_nl s) as [|h t]; [contradiction|]. eauto.
Qed.

(** The last line of a string that ends with a code unit other than a
    newline ends with it. *)
Lemma split_nl_snoc z c :
  c <> NL -> exists ls x, split_nl (z ++ [c]) = ls ++ [x ++ [c]].
Proof.
  intros Hc. induction z as [|d z (ls & x & IH)]; simpl.
  - destruct (N.eqb_spec c NL); [contradiction|]. now exists [], [].
  - rewrite IH. destruct (d =? NL).
    + now exists ([] :: ls), x.
    + destruct ls as [|h t]; simpl.
      * now exists [], (d :: x).
      * now exists ((d :: h) :: t), x.
Qed.

Lemma join_nl_snoc lines x :
  join_nl (lines ++ [x])
  = match lines with [] => x | _ => join_nl lines ++ NL :: x end.
Proof.
  induction lines as [|a [|b r] IH]; [reflexivity..|].
  change (join_nl ((a :: b :: r) ++ [x]))
    with (a ++ NL :: join_nl ((b :: r) ++ [x])).
  rewrite IH.
  change (join_nl (a :: b :: r)) with (a ++ NL :: join_nl (b :: r)).
  now rewrite <- app_assoc.
Qed.

Lemma join_nl_ends lines x :
  ends_nonws x -> ends_nonws (join_nl (lines ++ [x])).
Proof.
  intros (z & d & -> & Hd). rewrite join_nl_snoc.
  destruct lines as [|a r]; [now exists z, d|].
  exists (join_nl (a :: r) ++ NL :: z), d. split; [|assumption].
  now rewrite <- app_assoc.
Qed.

End StringFacts.

(** ** The formatter *)

Section Formatter.

Lemma array_get_prev (pre l : list jsstring) :
  array_get (pre ++ l) (Z.of_nat (length pre) - 1) = last pre.
Proof.
  unfold array_get. destruct pre as [|a pre] using rev_ind.
  - reflexivity.
  - rewrite length_app. simpl length.
    destruct (Z.ltb_spec (Z.of_nat (length pre + 1) - 1) 0); [lia|].
    replace (Z.to_nat (Z.of_nat (length pre + 1) - 1)) with (length pre) by lia.
    rewrite last_snoc, <- app_assoc. simpl.
    now rewrite list_lookup_middle.
Qed.

Lemma formatLine_prev line i ar :
  formatLine line i ar = formatWithPrev (array_get ar (Z.of_nat i - 1)) line.
Proof. reflexivity. Qed.

Lemma flatMap_formatLine_from (pre l : list jsstring) :
  concat (imap (fun i x => formatLine x (length pre + i) (pre ++ l)) l)
  = formatLines (last pre) l.
Proof.
  revert pre. induction l as [|x r IH]; intros pre; [reflexivity|].
  simpl. f_equal.
  - rewrite formatLine_prev, Nat.add_0_r. now rewrite array_get_prev.
  - specialize (IH (pre ++ [x])). rewrite last_snoc in IH. rewrite <- IH.
    f_equal. apply imap_ext. intros i y _. simpl.
    rewrite length_app, <- app_assoc. simpl.
    now replace (length pre + 1 + i)%nat with (length pre + S i)%nat by lia.
Qed.

(** The [flatMap] of the source is the recursion on the previous line. *)
Lemma flatMap_formatLine ar : flatMap formatLine ar = formatLines None ar.
Proof. exact (flatMap_formatLine_from [] ar). Qed.

Lemma formatWithPrev_blank prev line :
  blank line = true -> formatWithPrev prev line = [].
Proof. intros Hb. unfold formatWithPrev. now rewrite trim_eqb_blank, Hb. Qed.

Lemma startsWith_single s a :
  startsWith s [a] = match s with c :: _ => a =? c | [] => false end.
Proof.
  destruct s as [|c r]; [reflexivity|]. cbn [startsWith].
  destruct r; apply andb_true_r.
Qed.

Lemma isComment_not_indented line :
  isComment line = true -> isIndented line = false.
Proof.
  unfold isComment, isIndented.
  change (str "#") with [35]. change (str " ") with [32].
  rewrite !startsWith_single. destruct line as [|c r]; [discriminate|].
  intros <-%N.eqb_eq. reflexivity.
Qed.

Lemma isComment_not_blank line : isComment line = true -> blank line = false.
Proof.
  unfold isComment. change (str "#") with [35].
  rewrite startsWith_single. destruct line as [|c r]; [discriminate|].
  intros <-%N.eqb_eq. reflexivity.
Qed.

(** After some previous line, a blank line is put before a line exactly when
    the line is not indented and the previous one is not a comment. *)
Lemma formatWithPrev_some p line :
  blank line = false ->
  formatWithPrev (Some p) line
  = if negb (isComment p) && negb (isIndented line)
    then [[]; line] else [line].
Proof.
  intros Hb. unfold formatWithPrev. rewrite trim_eqb_blank, Hb.
  fold (isComment line) (isComment p) (isIndented line).
  pose proof (isComment_not_indented line) as Hci.
  destruct (isComment line), (isComment p), (isIndented line);
    simpl; try reflexivity; now specialize (Hci eq_refl).
Qed.

Lemma formatWithPrev_none line :
  blank line = false ->
  formatWithPrev None line = if isComment line then [[]; line] else [line].
Proof.
  intros Hb. unfold formatWithPrev. rewrite trim_eqb_blank, Hb.
  fold (isComment line). now destruct (isComment line).
Qed.

(** Formatting again, after any previous line that is a comment whenever
    the first one was, changes nothing. *)
Lemma formatLines_idem lines p q :
  (isComment p = true -> isComment q = true) ->
  formatLines (Some q) (formatLines (Some p) lines)
  = formatLines (Some p) lines.
Proof.
  revert p q. induction lines as [|x r IH]; intros p q Hpq; [reflexivity|].
  cbn [formatLines]. destruct (blank x) eqn:Hb.
  - rewrite formatWithPrev_blank by assumption. cbn [app].
    apply IH. intros Hx. apply isComment_not_blank in Hx. congruence.
  - rewrite formatWithPrev_some by assumption.
    destruct (isComment p) eqn:Hp; cbn [negb andb app formatLines].
    + rewrite formatWithPrev_some by assumption.
      rewrite (Hpq eq_refl). cbn [negb andb app]. f_equal. now apply IH.
    + destruct (isIndented x) eqn:Hi; cbn [negb andb app formatLines].
      * rewrite formatWithPrev_some, Hi by assumption.
        rewrite andb_false_r. cbn [app]. f_equal. now apply IH.
      * rewrite (formatWithPrev_blank (Some q) []) by reflexivity.
        rewrite (formatWithPrev_some [] x), Hi by assumption.
        change (isComment []) with false.
        cbn [negb andb app]. do 2 f_equal. now apply IH.
Qed.

Lemma formatLines_snoc lines prev y :
  formatLines prev (lines ++ [y])
  = formatLines prev lines
    ++ formatWithPrev (match last lines with Some l => Some l | None => prev end) y.
Proof.
  revert prev. induction lines as [|x r IH]; intros prev; simpl.
  - now rewrite app_nil_r.
  - rewrite IH, <- app_assoc. do 2 f_equal.
    destruct r as [|x' r']; [reflexivity|].
    change (last (x :: x' :: r')) with (last (x' :: r')).
    destruct (last (x' :: r')) eqn:E; [reflexivity|].
    now apply last_None in E.
Qed.

Lemma formatWithPrev_ends prev y :
  blank y = false -> exists o, formatWithPrev prev y = o ++ [y].
Proof.
  intros Hb. destruct prev as [p|].
  - rewrite formatWithPrev_some by assumption.
    destruct (_ && _); [now exists [[]] | now exists []].
  - rewrite formatWithPrev_none by assumption.
    destruct (isComment y); [now exists [[]] | now exists []].
Qed.

Lemma formatLines_ends lines prev y :
  blank y = false -> exists o, formatLines prev (lines ++ [y]) = o ++ [y].
Proof.
  intros Hb. rewrite formatLines_snoc.
  destruct (formatWithPrev_ends
              (match last lines with Some l => Some l | None => prev end) y Hb)
    as (o & ->).
  exists (formatLines prev lines ++ o). now rewrite app_assoc.
Qed.

Lemma formatLines_Forall (P : jsstring -> Prop) prev lines :
  P [] -> Forall P lines -> Forall P (formatLines prev lines).
Proof.
  intros Hnil. revert prev. induction lines as [|x r IH]; intros prev Hall.
  - constructor.
  - apply Forall_cons in Hall as [Hx Hr]. simpl.
    apply Forall_app. split; [|now apply IH].
    destruct (blank x) eqn:Hb.
    + rewrite formatWithPrev_blank by assumption. constructor.
    + assert (Forall P [[]; x]) by (repeat constructor; assumption).
      assert (Forall P [x]) by (repeat constructor; assumption).
      destruct prev as [p|].
      * rewrite formatWithPrev_some by assumption.
        now destruct (negb (isComment p) && negb (isIndented x)).
      * rewrite formatWithPrev_none by assumption.
        now destruct (isComment x).
Qed.

Lemma blank_cons_nonws c r : is_ws c = false -> blank (c :: r) = false.
Proof. intros Hc. unfold blank. simpl. now rewrite Hc. Qed.

Lemma blank_snoc_nonws x d : is_ws d = false -> blank (x ++ [d]) = false.
Proof.
  intros Hd. unfold blank. rewrite forallb_app. simpl. rewrite Hd.
  apply andb_false_r.
Qed.

Lemma trim_cons_NL s : trim (NL :: s) = trim s.
Proof. reflexivity. Qed.

(** What [formatConfig] computes on a text whose trimmed form is not empty:
    the first line of the trimmed text, then the other lines formatted, and
    the final [trim] removes at most one leading newline. *)
Lemma formatConfig_structure s :
  trim s <> [] ->
  exists L1 rest,
    split_nl (trim s) = L1 :: rest /\ blank L1 = false /\
    trim (join_nl (formatLines None (L1 :: rest)))
    = join_nl (L1 :: formatLines (Some L1) rest) /\
    starts_nonws (join_nl (L1 :: formatLines (Some L1) rest)) /\
    ends_nonws (join_nl (L1 :: formatLines (Some L1) rest)).
Proof.
  intros Hne. destruct (trim_shape s) as [E | [Hs He]]; [contradiction|].
  destruct Hs as (c & r & Et & Hc).
  destruct (split_nl_cons c r (nonws_not_NL c Hc)) as (h & rest & Hsplit & _).
  rewrite <- Et in Hsplit.
  exists (c :: h), rest.
  assert (Hb : blank (c :: h) = false) by now apply blank_cons_nonws.
  set (X := formatLines (Some (c :: h)) rest).
  assert (Hstart : starts_nonws (join_nl ((c :: h) :: X))).
  { destruct X as [|x X']; [now exists c, h|].
    now exists c, (h ++ NL :: join_nl (x :: X')). }
  assert (Hend : ends_nonws (join_nl ((c :: h) :: X))).
  { destruct He as (z & d & Ez & Hd).
    destruct (split_nl_snoc z d (nonws_not_NL d Hd)) as (ls & x & Hsn).
    rewrite <- Ez, Hsplit in Hsn.
    assert (Hy : ends_nonws (x ++ [d])) by now exists x, d.
    destruct ls as [|a ls'].
    - injection Hsn as Hl Hr. subst rest. subst X. simpl. now rewrite Hl.
    - injection Hsn as Hl Hr. subst X. rewrite Hr.
      destruct (formatLines_ends ls' (Some (c :: h)) (x ++ [d])
                  (blank_snoc_nonws x d Hd)) as (o & Ho).
      rewrite Ho, app_comm_cons. now apply join_nl_ends. }
  repeat split; try assumption.
  cbn [formatLines]. rewrite formatWithPrev_none by assumption. fold X.
  destruct (isComment (c :: h)).
  - change (join_nl ([[]; c :: h] ++ X)) with (NL :: join_nl ((c :: h) :: X)).
    rewrite trim_cons_NL. now apply trim_fixed.
  - now apply trim_fixed.
Qed.

Lemma formatConfig_blank s : trim s = [] -> formatConfig s = nl.
Proof. intros E. unfold formatConfig. now rewrite E. Qed.

Lemma formatConfig_nonblank s :
  trim s <> [] ->
  exists L1 rest,
    split_nl (trim s) = L1 :: rest /\ blank L1 = false /\
    formatConfig s = join_nl (L1 :: formatLines (Some L1) rest) ++ nl /\
    starts_nonws (join_nl (L1 :: formatLines (Some L1) rest)) /\
    ends_nonws (join_nl (L1 :: formatLines (Some L1) rest)).
Proof.
  intros Hne.
  destruct (formatConfig_structure s Hne) as (L1 & rest & Hs & Hb & Ht & H1 & H2).
  exists L1, rest. repeat split; try assumption.
  unfold formatConfig. now rewrite flatMap_formatLine, Hs, Ht.
Qed.

Lemma no_two_blank_cons_nonblank x lines :
  blank x = false -> no_two_blank (x :: lines) = no_two_blank lines.
Proof. intros Hb. destruct lines; simpl; [reflexivity|]. now rewrite Hb. Qed.

Lemma no_two_blank_sep x lines :
  blank x = false -> no_two_blank ([] :: x :: lines) = no_two_blank lines.
Proof.
  intros Hb. change (no_two_blank ([] :: x :: lines))
    with (negb (blank [] && blank x) && no_two_blank (x :: lines)).
  rewrite Hb, no_two_blank_cons_nonblank by assumption. reflexivity.
Qed.

Lemma formatLines_no_two_blank prev lines :
  no_two_blank (formatLines prev lines) = true.
Proof.
  revert prev. induction lines as [|x r IH]; intros prev; [reflexivity|].
  cbn [formatLines]. destruct (blank x) eqn:Hb.
  - rewrite formatWithPrev_blank by assumption. apply IH.
  - specialize (IH (Some x)). destruct prev as [p|].
    + rewrite formatWithPrev_some by assumption.
      destruct (negb (isComment p) && negb (isIndented x)); cbn [app].
      * now rewrite no_two_blank_sep.
      * now rewrite no_two_blank_cons_nonblank.
    + rewrite formatWithPrev_none by assumption.
      destruct (isComment x); cbn [app].
      * now rewrite no_two_blank_sep.
      * now rewrite no_two_blank_cons_nonblank.
Qed.

(** The lines that are not blank are kept, in order. *)
Lemma formatLines_nonblank prev lines :
  List.filter (fun l => negb (blank l)) (formatLines prev lines)
  = List.filter (fun l => negb (blank l)) lines.
Proof.
  revert prev. induction lines as [|x r IH]; intros prev; [reflexivity|].
  cbn [formatLines]. rewrite List.filter_app, IH. simpl.
  destruct (blank x) eqn:Hb; simpl.
  - now rewrite formatWithPrev_blank.
  - destruct prev as [p|].
    + rewrite formatWithPrev_some by assumption.
      destruct (negb (isComment p) && negb (isIndented x)); simpl;
        now rewrite Hb.
    + rewrite formatWithPrev_none by assumption.
      destruct (isComment x); simpl; now rewrite Hb.
Qed.

End Formatter.

Section FormatterTheorems.

(** C6. The blank-line formatter is idempotent: for every text [s],
    [formatConfig (formatConfig s) = formatConfig s]. *)
Theorem formatConfig_idempotent (s : jsstring) :
  formatConfig (formatConfig s) = formatConfig s.
Proof.
  destruct (decide (trim s = [])) as [E|Hne].
  - rewrite (formatConfig_blank s E). reflexivity.
  - destruct (formatConfig_nonblank s Hne)
      as (L1 & rest & Hsplit & Hb & HF & Hstart & Hend).
    set (B := join_nl (L1 :: formatLines (Some L1) rest)) in *.
    assert (HB : trim B = B) by now apply trim_fixed.
    assert (Hfree : Forall nlfree (L1 :: rest)).
    { rewrite <- Hsplit. apply split_nl_nlfree. }
    apply Forall_cons in Hfree as [HL1 Hrest].
    assert (HsplitB : split_nl B = L1 :: formatLines (Some L1) rest).
    { apply split_join; [discriminate|]. constructor; [assumption|].
      apply formatLines_Forall; [constructor | assumption]. }
    rewrite HF at 1. unfold formatConfig at 1.
    rewrite (trim_snoc_nl B HB), HsplitB, flatMap_formatLine.
    cbn [formatLines]. rewrite formatLines_idem by auto.
    change (formatWithPrev None L1 ++ formatLines (Some L1) rest)
      with (formatLines None (L1 :: rest)).
    unfold formatConfig. now rewrite flatMap_formatLine, Hsplit.
Qed.

(** The text written by [formatConfig]: a trimmed body, one newline after
    it, and no two neighbouring blank lines in the body. *)
Lemma formatConfig_shape (s : jsstring) :
  exists body,
    formatConfig s = body ++ nl /\ trim body = body
    /\ last body <> Some NL
    /\ no_two_blank (split_nl body) = true.
Proof.
  destruct (decide (trim s = [])) as [E|Hne].
  - exists []. rewrite (formatConfig_blank s E). now repeat split.
  - destruct (formatConfig_nonblank s Hne)
      as (L1 & rest & Hsplit & Hb & HF & Hstart & Hend).
    set (B := join_nl (L1 :: formatLines (Some L1) rest)) in *.
    exists B. split; [assumption|]. split; [now apply trim_fixed|]. split.
    + destruct Hend as (z & d & -> & Hd). rewrite last_snoc.
      intros [= ->]. discriminate.
    + assert (Hfree : Forall nlfree (L1 :: rest)).
      { rewrite <- Hsplit. apply split_nl_nlfree. }
      apply Forall_cons in Hfree as [HL1 Hrest].
      unfold B. rewrite split_join.
      * rewrite no_two_blank_cons_nonblank by assumption.
        apply formatLines_no_two_blank.
      * discriminate.
      * constructor; [assumption|].
        apply formatLines_Forall; [constructor | assumption].
Qed.

End FormatterTheorems.

(** ** Effects: what each operation adds to the trace *)

Section TraceInvariants.
Context `{Externals}.

Variable Q : Event -> Prop.

Lemma only_weaken {A} (P P' : A -> Prop) (m : M A) :
  only_events Q P m -> (forall a, P a -> P' a) -> only_events Q P' m.
Proof.
  intros Hm HP w. destruct (Hm w) as [Hd Ha]. split; [assumption|].
  intros a Ea. auto.
Qed.

Lemma only_silent {A} (P : A -> Prop) (m : M A) :
  (forall w, trace (snd (m w)) = trace w) ->
  (forall w a, fst (m w) = Ok a -> P a) ->
  only_events Q P m.
Proof.
  intros Hm HP w. split; [|apply HP].
  exists []. now rewrite Hm, app_nil_r.
Qed.

Lemma only_ret {A} (P : A -> Prop) (a : A) : P a -> only_events Q P (ret a).
Proof. intros Ha. apply only_silent; [reflexivity|]. now intros w b [= <-]. Qed.

Lemma only_throw {A} (P : A -> Prop) e : only_events Q P (throw e).
Proof. now apply only_silent. Qed.

Lemma only_error {A} (P : A -> Prop) r : only_events Q P (commandObj_error r).
Proof. now apply only_silent. Qed.

Lemma only_get_world : only_events Q (fun _ => True) get_world.
Proof. now apply only_silent. Qed.

Lemma only_lift_option {A} (o : option A) e :
  only_events Q (fun a => o = Some a) (lift_option o e).
Proof. destruct o; [now apply only_ret | apply only_throw]. Qed.

Lemma only_bind {A B} (P : A -> Prop) (R : B -> Prop) (m : M A)
    (k : A -> M B) :
  only_events Q P m -> (forall a, P a -> only_events Q R (k a)) ->
  only_events Q R (bind m k).
Proof.
  intros Hm Hk w. unfold bind. destruct (Hm w) as [(d & Hd & HQ) Ha].
  destruct (m w) as [[a|r|e] w1]; simpl in *;
    try (split; [now exists d | discriminate]).
  destruct (Hk a (Ha a eq_refl) w1) as [(d' & Hd' & HQ') Hb].
  split; [|assumption].
  exists (d ++ d'). rewrite Hd', Hd, app_assoc. split; [reflexivity|].
  now apply Forall_app.
Qed.

Lemma only_try {A} (P : A -> Prop) (m : M A) (h : Exn -> M A) :
  only_events Q P m -> (forall e, only_events Q P (h e)) ->
  only_events Q P (try_catch m h).
Proof.
  intros Hm Hh w. unfold try_catch. destruct (Hm w) as [(d & Hd & HQ) Ha].
  destruct (m w) as [[a|r|e] w1]; simpl in *;
    try (split; [now exists d | assumption || discriminate]).
  destruct (Hh e w1) as [(d' & Hd' & HQ') Hb].
  split; [|assumption].
  exists (d ++ d'). rewrite Hd', Hd, app_assoc. split; [reflexivity|].
  now apply Forall_app.
Qed.

Lemma only_log e : Q e -> only_events Q (fun _ => True) (log e).
Proof.
  intros He w. split; [|trivial].
  exists [e]. split; [reflexivity|]. now constructor.
Qed.

Lemma only_readFile p :
  Q (EvReadFile p) -> only_events Q (fun _ => True) (readFile p).
Proof.
  intros He. eapply only_bind; [now apply only_log|].
  intros _ _. apply only_silent; [|trivial].
  intros w. now destruct (files w !! p).
Qed.

Lemma only_writeFile p c :
  Q (EvWriteFile p c) -> only_events Q (fun _ => True) (writeFile p c).
Proof.
  intros He. eapply only_bind; [now apply only_log|].
  intros _ _. now apply only_silent.
Qed.

Lemma only_saveConfig p s :
  Q (EvWriteFile p (formatConfig s)) ->
  only_events Q (fun _ => True) (saveConfig p s).
Proof.
  intros He. eapply only_bind; [now apply only_writeFile|].
  intros _ _. now apply only_ret.
Qed.

Lemma only_ensureSchema n d g j :
  Q (EvMkdir (path_join (match g with None => d | Some p => p end)
                        SCHEMAS_DIR_NAME)) ->
  Q (EvReadFile (schemaPath n d g)) ->
  Q (EvWriteFile (schemaPath n d g) (j ++ nl)) ->
  only_events Q (fun rel => rel = path_relative d (schemaPath n d g))
              (ensureSchema n d g j).
Proof.
  intros Hm Hr Hw. unfold ensureSchema.
  eapply only_bind; [now apply only_log|]. intros _ _.
  eapply only_bind with (P := fun _ => True); [|intros _ _; now apply only_ret].
  apply only_try.
  - eapply only_bind; [now apply only_readFile|]. intros c _.
    destruct (jsstring_eqb _ _); [now apply only_ret | apply only_throw].
  - intros _. now apply only_writeFile.
Qed.

Lemma only_applyMigrations i ms c :
  (forall k x, Q (EvMigration k x)) ->
  only_events Q (fun _ => True) (applyMigrations i ms c).
Proof.
  intros Hq. revert i c. induction ms as [|m r IH]; intros i c; simpl.
  - now apply only_ret.
  - eapply only_bind; [now apply only_log|]. intros _ _. apply IH.
Qed.

Lemma only_alloc h : only_events Q (fun _ => True) (alloc h).
Proof. now apply only_silent. Qed.

Lemma only_deref l : only_events Q (fun _ => True) (deref l).
Proof.
  apply only_silent; [|trivial].
  intros w. unfold deref. now destruct (heap w !! l).
Qed.

Lemma only_store l h : only_events Q (fun _ => True) (store l h).
Proof. now apply only_silent. Qed.

Lemma only_cache_set p l : only_events Q (fun _ => True) (cache_set p l).
Proof. now apply only_silent. Qed.

(** *** The operations of the module *)

Lemma only_save_if (b : bool) p s :
  Q (EvWriteFile p (formatConfig s)) ->
  only_events Q (fun _ => True)
    (if b then saveConfig p s ;; ret tt else ret tt).
Proof.
  intros Hq. destruct b; [|now apply only_ret].
  eapply only_bind; [now apply only_saveConfig|]. intros _ _.
  now apply only_ret.
Qed.

Lemma only_persistMigrated cs p vl v mc :
  (forall s, Q (EvWriteFile p (formatConfig s))) ->
  only_events Q (fun _ => True) (persistMigrated cs p vl v mc).
Proof.
  intros Hsave. unfold persistMigrated.
  eapply only_bind; [apply only_lift_option|]. intros parsed _.
  eapply only_bind; [apply only_lift_option|]. intros mcs _.
  eapply only_bind; [apply only_lift_option|]. intros latest _.
  destruct (negb (vl latest)); [apply only_error|].
  destruct (maybeValidationError v latest p); [apply only_error|].
  eapply only_bind; [now apply only_save_if|]. intros _ _.
  now apply only_ret.
Qed.

Lemma only_migrateConfig cs ms p vl c v :
  (forall k x, Q (EvMigration k x)) ->
  (forall s, Q (EvWriteFile p (formatConfig s))) ->
  only_events Q (fun _ => True) (migrateConfig cs ms p vl c v).
Proof.
  intros Hmig Hsave. unfold migrateConfig.
  eapply only_bind; [now apply only_applyMigrations|]. intros mc _.
  now apply only_persistMigrated.
Qed.

Lemma only_ensureConfigIsValidLatest p vl c v :
  only_events Q (fun r => r = c) (ensureConfigIsValidLatest p vl c v).
Proof.
  unfold ensureConfigIsValidLatest.
  destruct (negb (vl c)); [apply only_error|].
  destruct (maybeValidationError v c p); [apply only_error|].
  now apply only_ret.
Qed.

Lemma only_validateAndBuild options p cs :
  (forall k x, Q (EvMigration k x)) ->
  (forall s, Q (EvWriteFile p (formatConfig s))) ->
  only_events Q (fun ro => ro_getPath ro = p) (validateAndBuild options p cs).
Proof.
  intros Hmig Hsave. unfold validateAndBuild.
  eapply only_bind; [apply only_lift_option|]. intros config _.
  destruct (negb (validateAllConfigVersions options config));
    [apply only_error|].
  eapply only_bind with (P := fun _ => True).
  - destruct (js_lt_length _ _); [now apply only_migrateConfig|].
    eapply only_bind; [apply only_ensureConfigIsValidLatest|].
    intros latest _. now apply only_ret.
  - intros [latest cs'] _. now apply only_ret.
Qed.

Lemma only_readConfigFile p hasDefault :
  Q (EvReadFile p) -> Q (EvReadFile (siblingPath p)) ->
  only_events Q (fun r => snd r = p \/ snd r = siblingPath p)
              (readConfigFile p hasDefault).
Proof.
  intros Hp Hs. unfold readConfigFile. apply only_try.
  - eapply only_bind; [now apply only_readFile|]. intros c _.
    apply only_ret. now left.
  - intros e. destruct (_ && _); [apply only_throw|].
    eapply only_bind; [now apply only_readFile|]. intros c _.
    apply only_ret. now right.
Qed.

End TraceInvariants.

(** ** Effects: what each operation does to a given world *)

Section Runs.
Context `{Externals}.

Lemma add_trace_add_trace a b w :
  add_trace b (add_trace a w) = add_trace (a ++ b) w.
Proof. unfold add_trace. simpl. now rewrite app_assoc. Qed.

Lemma run_bind {A B} (m : M A) (k : A -> M B) w a w1 :
  m w = (Ok a, w1) -> bind m k w = k a w1.
Proof. intros E. unfold bind. now rewrite E. Qed.

Lemma run_bind_eq {A B} (m : M A) (k : A -> M B) w a w1 r :
  m w = (Ok a, w1) -> k a w1 = r -> bind m k w = r.
Proof. intros E <-. now apply run_bind. Qed.

Lemma run_bind_throw {A B} (m : M A) (k : A -> M B) w e w1 :
  m w = (Throw e, w1) -> bind m k w = (Throw e, w1).
Proof. intros E. unfold bind. now rewrite E. Qed.

Lemma run_try_ok {A} (m : M A) h w a w1 :
  m w = (Ok a, w1) -> try_catch m h w = (Ok a, w1).
Proof. intros E. unfold try_catch. now rewrite E. Qed.

Lemma run_try_throw {A} (m : M A) h w e w1 :
  m w = (Throw e, w1) -> try_catch m h w = h e w1.
Proof. intros E. unfold try_catch. now rewrite E. Qed.

Lemma readFile_run p w :
  readFile p w
  = (match files w !! p with
     | Some c => Ok c
     | None => Throw (ENOENT p)
     end, add_trace [EvReadFile p] w).
Proof. unfold readFile, bind. simpl. now destruct (files w !! p). Qed.

Lemma writeFile_run p c w :
  writeFile p c w = (Ok tt, set_file p c (add_trace [EvWriteFile p c] w)).
Proof. reflexivity. Qed.

Lemma saveConfig_run p s w :
  saveConfig p s w
  = (Ok (formatConfig s),
     set_file p (formatConfig s)
              (add_trace [EvWriteFile p (formatConfig s)] w)).
Proof. reflexivity. Qed.

Lemma ensureSchema_run n d g j w :
  ensureSchema n d g j w
  = (Ok (path_relative d (schemaPath n d g)), ensureSchema_world n d g j w).
Proof.
  unfold ensureSchema, ensureSchema_world, schemaPath, mkdir.
  set (dir := path_join _ SCHEMAS_DIR_NAME).
  set (sp := path_join dir _).
  unfold bind at 1. simpl log.
  change (log (EvMkdir dir) w) with (Ok tt, add_trace [EvMkdir dir] w).
  cbv iota beta.
  unfold bind at 1. unfold try_catch, bind at 1.
  rewrite readFile_run. rewrite add_trace_add_trace. simpl app.
  change (files (add_trace [EvMkdir dir] w)) with (files w).
  destruct (files w !! sp) as [c|] eqn:E.
  - unfold jsstring_eqb. destruct (decide (c = j ++ nl)) as [->|Hc].
    + rewrite bool_decide_eq_true_2 by reflexivity.
      rewrite bool_decide_eq_true_2 by reflexivity. reflexivity.
    + rewrite bool_decide_eq_false_2 by assumption.
      rewrite bool_decide_eq_false_2 by congruence. reflexivity.
  - rewrite bool_decide_eq_false_2 by discriminate. reflexivity.
Qed.

Lemma add_trace_nil w : add_trace [] w = w.
Proof. destruct w. unfold add_trace. simpl. now rewrite app_nil_r. Qed.

Lemma applyMigrations_run i ms c w :
  applyMigrations i ms c w
  = (Ok (migrated ms c), add_trace (migration_events i ms c) w).
Proof.
  revert i c w. induction ms as [|m r IH]; intros i c w; simpl.
  - unfold ret. now rewrite add_trace_nil.
  - unfold bind at 1.
    change (log (EvMigration i c) w)
      with (Ok tt, add_trace [EvMigration i c] w).
    cbv iota beta. now rewrite IH, add_trace_add_trace.
Qed.

Lemma migration_calls_app a b :
  migration_calls (a ++ b) = migration_calls a ++ migration_calls b.
Proof. apply omap_app. Qed.

Lemma migration_calls_none d :
  Forall (fun e => forall k x, e <> EvMigration k x) d ->
  migration_calls d = [].
Proof.
  induction 1 as [|e d He Hd IH]; [reflexivity|].
  destruct e; try exact IH. now destruct (He index input).
Qed.

(** The calls of the loop: indices in ascending order, one call each. *)
Lemma migration_events_indices i ms c :
  map fst (migration_calls (migration_events i ms c)) = seq i (length ms).
Proof.
  revert i c. induction ms as [|m r IH]; intros i c; [reflexivity|].
  simpl. f_equal. apply IH.
Qed.

Lemma migration_events_first i m r c :
  migration_calls (migration_events i (m :: r) c) !! 0%nat = Some (i, c).
Proof. reflexivity. Qed.

(** Each call after the first receives what the previous call returned. *)
Lemma migration_events_chain i ms c k j x j' x' :
  migration_calls (migration_events i ms c) !! k = Some (j, x) ->
  migration_calls (migration_events i ms c) !! S k = Some (j', x') ->
  exists m, ms !! (j - i)%nat = Some m /\ (i <= j)%nat /\ x' = m x.
Proof.
  revert i c k. induction ms as [|m r IH]; intros i c k H1 H2; [discriminate|].
  destruct k as [|k].
  - injection H1 as <- <-. exists m. rewrite Nat.sub_diag.
    split; [reflexivity|]. split; [lia|].
    destruct r as [|m' r']; [discriminate|]. now injection H2 as _ <-.
  - change (migration_calls (migration_events (S i) r (m c)) !! k
            = Some (j, x)) in H1.
    change (migration_calls (migration_events (S i) r (m c)) !! S k
            = Some (j', x')) in H2.
    destruct (IH _ _ _ H1 H2) as (m0 & Hm0 & Hle & Hx).
    exists m0. split; [|split; [lia | assumption]].
    replace (j - i)%nat with (S (j - S i)) by lia. exact Hm0.
Qed.

Lemma slice_start_nat a V len :
  is_nat_number a V -> (V <= len)%nat -> slice_start a len = V.
Proof.
  destruct a as [| |q]; try contradiction. simpl. intros Hq Hle.
  unfold Qeq in Hq. simpl in Hq. rewrite Z.mul_1_r in Hq.
  rewrite Hq, Z.quot_mul by discriminate.
  destruct (Z.ltb_spec (Z.of_nat V) 0); [lia|].
  rewrite Nat2Z.id. lia.
Qed.

Lemma events_of_delta {A} (m : M A) w d :
  trace (snd (m w)) = trace w ++ d -> events_of m w = d.
Proof. intros E. unfold events_of. now rewrite E, drop_app_length. Qed.

End Runs.

Section MigrationOrder.
Context `{Externals}.

(** The calls made by [migrateConfig], whatever the version is: those of
    the loop over [migrations.slice(Number(config.version))]. *)
Lemma migrateConfig_calls configString migrations configPath
    validateLatestConfig config validate w :
  let k := slice_start (Number (version config)) (length migrations) in
  migration_calls
    (events_of (migrateConfig configString migrations configPath
                              validateLatestConfig config validate) w)
  = migration_calls (migration_events k (drop k migrations) config).
Proof.
  intros k. unfold migrateConfig, slice. fold k.
  destruct (only_persistMigrated
              (fun e => forall k x, e <> EvMigration k x)
              configString configPath validateLatestConfig validate
              (migrated (drop k migrations) config)
              ltac:(discriminate)
              (add_trace (migration_events k (drop k migrations) config) w))
    as [(d & Hd & HQ) _].
  erewrite events_of_delta.
  2:{ erewrite run_bind by apply applyMigrations_run.
      rewrite Hd. simpl. rewrite <- app_assoc. reflexivity. }
  rewrite migration_calls_app, (migration_calls_none d HQ).
  apply app_nil_r.
Qed.

(** A negative start counts from the end of the array and a fractional one
    is truncated, as [Array.prototype.slice] does. *)
Example slice_start_negative : slice_start (JFin (-1 # 1)) 3 = 2%nat.
Proof. reflexivity. Qed.

Example slice_start_fraction : slice_start (JFin (3 # 2)) 3 = 1%nat.
Proof. reflexivity. Qed.

(** C1. For a config whose version is the number [V] with
    [V < migrations.length], [migrateConfig] calls the migrations at the
    indices [V], [V+1], ..., [migrations.length - 1], each once and in
    this order; the first receives the parsed config and every other one
    receives what the previous one returned. *)
Theorem migrateConfig_applies_migrations_in_order
    (configString : jsstring) (migrations : list (Config -> Config))
    (configPath : jsstring) (validateLatestConfig : Config -> bool)
    (config : Config)
    (validate : option (Config -> jsstring -> ValidationResult))
    (V : nat) (w : World) :
  is_nat_number (Number (version config)) V ->
  (V < length migrations)%nat ->
  let calls :=
    migration_calls
      (events_of (migrateConfig configString migrations configPath
                                validateLatestConfig config validate) w) in
  map fst calls = seq V (length migrations - V)
  /\ calls !! 0%nat = Some (V, config)
  /\ (forall k i x i' x',
        calls !! k = Some (i, x) -> calls !! S k = Some (i', x') ->
        exists migration, migrations !! i = Some migration
                          /\ x' = migration x).
Proof.
  intros HV Hlt calls. subst calls.
  rewrite migrateConfig_calls. cbv zeta.
  rewrite (slice_start_nat _ V _ HV) by lia.
  split; [|split].
  - rewrite migration_events_indices. now rewrite length_drop.
  - destruct (drop V migrations) as [|m r] eqn:E; [|reflexivity].
    apply (f_equal (@length _)) in E. rewrite length_drop in E.
    simpl in E. lia.
  - intros k i x i' x' H1 H2.
    destruct (migration_events_chain _ _ _ _ _ _ _ _ H1 H2)
      as (m & Hm & Hle & Hx).
    exists m. split; [|assumption].
    rewrite lookup_drop in Hm. now replace (V + (i - V))%nat with i in Hm by lia.
Qed.

End MigrationOrder.

Lemma migrateConfig_applies_migrations_in_order_witness :
  let calls :=
    migration_calls
      (events_of (migrateConfig (H := Demo.demo) (str "version: 1" ++ nl) Demo.demo_migrations
                                (str "dir/config.yaml") (Demo.latest_is 3)
                                [(str "version", str "1")] None)
                 Demo.empty_world) in
  map fst calls = seq 1 (3 - 1)
  /\ calls !! 0%nat = Some (1%nat, [(str "version", str "1")])
  /\ (forall k i x i' x',
        calls !! k = Some (i, x) -> calls !! S k = Some (i', x') ->
        exists migration, Demo.demo_migrations !! i = Some migration
                          /\ x' = migration x).
Proof.
  apply (migrateConfig_applies_migrations_in_order (H := Demo.demo)
           (str "version: 1" ++ nl) Demo.demo_migrations
           (str "dir/config.yaml") (Demo.latest_is 3)
           [(str "version", str "1")] None 1 Demo.empty_world).
  - reflexivity.
  - simpl. lia.
Defined.

Section NonNumericVersion.
Context `{Externals}.

Lemma ensureConfigIsValidLatest_silent p vl c v w :
  snd (ensureConfigIsValidLatest p vl c v w) = w.
Proof.
  unfold ensureConfigIsValidLatest.
  destruct (negb (vl c)); [reflexivity|].
  now destruct (maybeValidationError v c p).
Qed.

(** The branch of the loader that does not migrate: the config is refused
    with a fatal report when the latest schema rejects it or when the
    optional validator gives an error, and returned as it is otherwise;
    the world does not change. *)
Lemma validateAndBuild_unmigrated
    (options : InitConfigOptions) (configPath configString : jsstring)
    (config : Config) (w : World) :
  parse configString = Some config ->
  validateAllConfigVersions options config = true ->
  js_lt_length (Number (version config)) (length (migrations options))
  = false ->
  validateAndBuild options configPath configString w
  = (let* latestConfig :=
       ensureConfigIsValidLatest configPath (validateLatestConfig options)
                                 config (validate options) in
     ret (mkReadonly latestConfig configPath configString
                     (validateLatestConfig options))) w
  /\ (validateLatestConfig options config = false ->
      validateAndBuild options configPath configString w
      = (Fatal (InvalidConfig configPath), w))
  /\ (forall f e,
        validateLatestConfig options config = true ->
        validate options = Some f ->
        f config configPath = Invalid e ->
        validateAndBuild options configPath configString w
        = (Fatal (InvalidConfigErrors configPath e), w))
  /\ (validateLatestConfig options config = true ->
      (forall f, validate options = Some f -> f config configPath = Valid) ->
      validateAndBuild options configPath configString w
      = (Ok (mkReadonly config configPath configString
                        (validateLatestConfig options)), w)).
Proof.
  intros Hparse Hall Hlt.
  assert (Hrun : validateAndBuild options configPath configString w
     = (let* latestConfig :=
          ensureConfigIsValidLatest configPath (validateLatestConfig options)
                                    config (validate options) in
        ret (mkReadonly latestConfig configPath configString
                        (validateLatestConfig options))) w).
  { unfold validateAndBuild. rewrite Hparse.
    erewrite run_bind by reflexivity. rewrite Hall, Hlt.
    unfold bind. cbn [negb]. cbv beta iota.
    destruct (ensureConfigIsValidLatest _ _ _ _ w) as [[c|r|e] w1];
      reflexivity. }
  split; [exact Hrun|]. rewrite Hrun.
  unfold bind, ensureConfigIsValidLatest, maybeValidationError.
  split; [|split].
  - intros ->. reflexivity.
  - intros f e -> -> ->. reflexivity.
  - intros -> Hvalid. simpl.
    destruct (validate options) as [f|]; [|reflexivity].
    now rewrite (Hvalid f eq_refl).
Qed.

(** C10. When the version of the parsed config is a string that [Number]
    turns into NaN, the test [Number(config.version) < migrations.length]
    is false: no migration is called, and the config itself is checked
    against the latest schema and the optional validator.  A config that
    the latest schema rejects is refused with the fatal report "Invalid
    config <path>", one for which the optional validator gives an error
    with "Invalid config <path>. Errors: ...", and a config that passes
    both is returned as it is; the files are not touched. *)
Theorem non_numeric_version_skips_migrations
    (options : InitConfigOptions) (configPath configString : jsstring)
    (config : Config) (s : jsstring) (w : World) :
  parse configString = Some config ->
  validateAllConfigVersions options config = true ->
  version config = VerStr s ->
  stringToNumber s = JNaN ->
  js_lt_length (Number (version config)) (length (migrations options)) = false
  /\ validateAndBuild options configPath configString w
     = (let* latestConfig :=
          ensureConfigIsValidLatest configPath (validateLatestConfig options)
                                    config (validate options) in
        ret (mkReadonly latestConfig configPath configString
                        (validateLatestConfig options))) w
  /\ migration_calls
       (events_of (validateAndBuild options configPath configString) w) = []
  /\ (validateLatestConfig options config = false ->
      validateAndBuild options configPath configString w
      = (Fatal (InvalidConfig configPath), w))
  /\ (forall f e,
        validateLatestConfig options config = true ->
        validate options = Some f ->
        f config configPath = Invalid e ->
        validateAndBuild options configPath configString w
        = (Fatal (InvalidConfigErrors configPath e), w))
  /\ (validateLatestConfig options config = true ->
      (forall f, validate options = Some f -> f config configPath = Valid) ->
      validateAndBuild options configPath configString w
      = (Ok (mkReadonly config configPath configString
                        (validateLatestConfig options)), w)).
Proof.
  intros Hparse Hall Hver Hnan.
  assert (Hlt : js_lt_length (Number (version config))
                             (length (migrations options)) = false).
  { rewrite Hver. simpl. now rewrite Hnan. }
  destruct (validateAndBuild_unmigrated options configPath configString
              config w Hparse Hall Hlt) as (Hrun & Hrefused & Herrors & Hok).
  split; [assumption|]. split; [assumption|].
  split; [|split; [exact Hrefused | split; [exact Herrors | exact Hok]]].
  unfold events_of. rewrite Hrun. unfold bind.
  pose proof (ensureConfigIsValidLatest_silent configPath
                (validateLatestConfig options) config (validate options) w)
    as Hs.
  destruct (ensureConfigIsValidLatest _ _ _ _ w) as [[c|r|e] w1];
    simpl in *; subst w1; now rewrite drop_all.
Qed.

End NonNumericVersion.

Lemma non_numeric_version_skips_migrations_witness :
  let options := Demo.demo_options Demo.demo_migrations 3 in
  let configPath := str "dir/config.yaml" in
  let configString := str "version: abc" ++ nl in
  let config : @Config Demo.demo := [(str "version", str "abc")] in
  let w := Demo.empty_world in
  js_lt_length (Number (H := Demo.demo) (version config))
               (length (migrations options)) = false
  /\ validateAndBuild options configPath configString w
     = (let* latestConfig :=
          ensureConfigIsValidLatest configPath (validateLatestConfig options)
                                    config (validate options) in
        ret (mkReadonly latestConfig configPath configString
                        (validateLatestConfig options))) w
  /\ migration_calls
       (events_of (validateAndBuild options configPath configString) w) = []
  /\ (validateLatestConfig options config = false ->
      validateAndBuild options configPath configString w
      = (Fatal (InvalidConfig configPath), w))
  /\ (forall f e,
        validateLatestConfig options config = true ->
        validate options = Some f ->
        f config configPath = Invalid e ->
        validateAndBuild options configPath configString w
        = (Fatal (InvalidConfigErrors configPath e), w))
  /\ (validateLatestConfig options config = true ->
      (forall f, validate options = Some f -> f config configPath = Valid) ->
      validateAndBuild options configPath configString w
      = (Ok (mkReadonly config configPath configString
                        (validateLatestConfig options)), w)).
Proof.
  apply (non_numeric_version_skips_migrations (H := Demo.demo)
           (Demo.demo_options Demo.demo_migrations 3)
           (str "dir/config.yaml") (str "version: abc" ++ nl)
           [(str "version", str "abc")] (str "abc") Demo.empty_world);
    reflexivity.
Defined.

Section ReadingTheFile.
Context `{Externals}.

Lemma readConfigFile_found p hasDefault w c :
  files w !! p = Some c ->
  readConfigFile p hasDefault w = (Ok (c, p), add_trace [EvReadFile p] w).
Proof.
  intros E. unfold readConfigFile, try_catch, bind at 1.
  now rewrite readFile_run, E.
Qed.

Lemma readConfigFile_fallback p hasDefault w c :
  files w !! p = None -> rethrows p hasDefault = false ->
  files w !! siblingPath p = Some c ->
  readConfigFile p hasDefault w
  = (Ok (c, siblingPath p),
     add_trace [EvReadFile p; EvReadFile (siblingPath p)] w).
Proof.
  intros E Hr Es. unfold readConfigFile, try_catch, bind at 1.
  rewrite readFile_run, E. fold (rethrows p hasDefault). rewrite Hr.
  unfold bind. rewrite readFile_run.
  change (files (add_trace [EvReadFile p] w)) with (files w).
  now rewrite Es, add_trace_add_trace.
Qed.

Lemma readConfigFile_missing p hasDefault w :
  files w !! p = None -> files w !! siblingPath p = None ->
  exists e d, readConfigFile p hasDefault w = (Throw e, add_trace d w)
              /\ writes d = [].
Proof.
  intros E Es. unfold readConfigFile, try_catch, bind at 1.
  rewrite readFile_run, E. fold (rethrows p hasDefault).
  destruct (rethrows p hasDefault).
  - now exists (ENOENT p), [EvReadFile p].
  - unfold bind. rewrite readFile_run.
    change (files (add_trace [EvReadFile p] w)) with (files w).
    rewrite Es, add_trace_add_trace.
    now exists (ENOENT (siblingPath p)), [EvReadFile p; EvReadFile (siblingPath p)].
Qed.

(** The loader as a function of the requested path and directory. *)
Lemma getReadonlyConfigInitFunction_unfold options getDefaultConfig :
  getReadonlyConfigInitFunction options getDefaultConfig
  = let* loaded :=
      try_catch
        (let* r := readExisting options (requestedPath options)
                                (requestedDir options)
                                (bool_decide (getDefaultConfig <> None)) in
         ret (Some r))
        (fun _ =>
           match getDefaultConfig with
           | None => ret None
           | Some defConf =>
               let* r := createDefault options (requestedPath options)
                                       (requestedDir options) defConf in
               ret (Some r)
           end) in
    match loaded with
    | None => ret None
    | Some (configString, configPath) =>
        let* config := validateAndBuild options configPath configString in
        ret (Some config)
    end.
Proof.
  unfold getReadonlyConfigInitFunction, requestedPath, requestedDir.
  now destruct (getConfigPath _ _).
Qed.

(** C8. When the config file exists under neither extension and no default
    generator was supplied, the init function returns [null]: it neither
    throws nor calls the fatal reporter, and it writes nothing. *)
Theorem missing_file_without_default_returns_null
    (options : InitConfigOptions) (w : World) :
  files w !! requestedPath options = None ->
  files w !! siblingPath (requestedPath options) = None ->
  fst (getReadonlyConfigInitFunction options None w) = Ok None
  /\ files (snd (getReadonlyConfigInitFunction options None w)) = files w
  /\ writes (events_of (getReadonlyConfigInitFunction options None) w) = [].
Proof.
  intros E Es. rewrite getReadonlyConfigInitFunction_unfold.
  destruct (readConfigFile_missing (requestedPath options)
              (bool_decide (@None jsstring <> None)) w E Es)
    as (e & d & Hrun & Hd).
  assert (Hall : getReadonlyConfigInitFunction options None w
                 = (Ok None, add_trace d w)).
  { rewrite getReadonlyConfigInitFunction_unfold.
    erewrite run_bind.
    2:{ erewrite run_try_throw.
        2:{ apply run_bind_throw. unfold readExisting.
            apply run_bind_throw. exact Hrun. }
        reflexivity. }
    reflexivity. }
  rewrite <- getReadonlyConfigInitFunction_unfold, Hall.
  repeat split.
  erewrite events_of_delta; [exact Hd|]. now rewrite Hall.
Qed.

End ReadingTheFile.

Lemma missing_file_without_default_returns_null_witness :
  let options := Demo.demo_options Demo.demo_migrations 3 in
  fst (getReadonlyConfigInitFunction options None Demo.empty_world) = Ok None
  /\ files (snd (getReadonlyConfigInitFunction options None Demo.empty_world))
     = files Demo.empty_world
  /\ writes (events_of (getReadonlyConfigInitFunction options None)
                       Demo.empty_world) = [].
Proof.
  apply (missing_file_without_default_returns_null (H := Demo.demo)
           (Demo.demo_options Demo.demo_migrations 3) Demo.empty_world);
    reflexivity.
Defined.

Section CommitErrors.
Context `{Externals}.

(** C4. When the data of a handle fail the latest-schema validator,
    [$commit] throws (it does not call the fatal reporter) and leaves the
    world as it was: no file is written and the serialized text kept by the
    handle is unchanged. *)
Theorem commit_invalid_throws (handle : nat) (this : Handle) (w : World) :
  heap w !! handle = Some this ->
  h_validateLatest this (h_data this) = false ->
  exists e, commit handle w = (Throw e, w).
Proof.
  intros Hh Hv. unfold commit.
  erewrite run_bind by (unfold deref; rewrite Hh; reflexivity).
  destruct (parse (h_configString this)) as [parsed|].
  2:{ exists YamlError. reflexivity. }
  erewrite run_bind by reflexivity.
  destruct (yamlDiffPatch (h_configString this) parsed (h_data this))
    as [patched|].
  2:{ exists YamlError. reflexivity. }
  erewrite run_bind by reflexivity.
  rewrite Hv. simpl. eauto.
Qed.

End CommitErrors.

Lemma commit_invalid_throws_witness :
  exists e,
    commit (H := Demo.demo) 0
      (Demo.world_with_handle (str "dir/config.yaml")
         (str "version: 3" ++ nl) [(str "version", str "oops")] 3)
    = (Throw e,
       Demo.world_with_handle (str "dir/config.yaml")
         (str "version: 3" ++ nl) [(str "version", str "oops")] 3).
Proof.
  apply (commit_invalid_throws (H := Demo.demo) 0
           (mkHandle (H := Demo.demo) [(str "version", str "oops")]
                     (str "dir/config.yaml")
                     (str "version: 3" ++ nl) (Demo.latest_is 3))).
  - reflexivity.
  - reflexivity.
Defined.

Section NoOpPersistence.
Context `{Externals}.

Lemma syncSchemaComment_run options d fileContent configPath w :
  syncSchemaComment options d fileContent configPath w
  = let w1 := ensureSchema_world (name options) d (getSchemaDirPath options)
                                 (latestSchemaJson options) w in
    let configString :=
      withSchemaComment (schemaPathComment options d) fileContent in
    (Ok (configString, configPath),
     if bool_decide (configString = fileContent) then w1
     else set_file configPath (formatConfig configString)
            (add_trace [EvWriteFile configPath (formatConfig configString)]
                       w1)).
Proof.
  unfold syncSchemaComment. erewrite run_bind by apply ensureSchema_run.
  fold (schemaPathComment options d). cbv zeta.
  unfold jsstring_eqb.
  destruct (decide (withSchemaComment (schemaPathComment options d) fileContent
                    = fileContent)) as [E|E].
  - rewrite !bool_decide_eq_true_2 by assumption. reflexivity.
  - rewrite !bool_decide_eq_false_2 by assumption. reflexivity.
Qed.

Lemma ensureSchema_world_files n d g j w :
  files (ensureSchema_world n d g j w) = files w
  \/ files (ensureSchema_world n d g j w)
     = <[schemaPath n d g := j ++ nl]> (files w).
Proof.
  unfold ensureSchema_world. destruct (bool_decide _); [now left | now right].
Qed.

Lemma ensureSchema_world_trace n d g j w :
  exists evs,
    trace (ensureSchema_world n d g j w) = trace w ++ evs
    /\ reads evs = [schemaPath n d g]
    /\ (writes evs = [] \/ writes evs = [(schemaPath n d g, j ++ nl)])
    /\ migration_calls evs = [].
Proof.
  unfold ensureSchema_world. destruct (bool_decide _); simpl.
  - eexists. split; [reflexivity|]. repeat split. now left.
  - eexists. split; [rewrite <- app_assoc; reflexivity|].
    repeat split. now right.
Qed.

Lemma readConfigFile_world p hasDefault w :
  exists d, snd (readConfigFile p hasDefault w) = add_trace d w
            /\ writes d = [] /\ migration_calls d = [].
Proof.
  unfold readConfigFile, try_catch, bind at 1. rewrite readFile_run.
  destruct (files w !! p) as [c|].
  - now exists [EvReadFile p].
  - destruct (_ && _); [now exists [EvReadFile p]|].
    unfold bind. rewrite readFile_run.
    change (files (add_trace [EvReadFile p] w)) with (files w).
    exists [EvReadFile p; EvReadFile (siblingPath p)].
    destruct (files w !! siblingPath p); simpl;
      now rewrite add_trace_add_trace.
Qed.

Lemma writes_app a b : writes (a ++ b) = writes a ++ writes b.
Proof. apply omap_app. Qed.

Lemma reads_app a b : reads (a ++ b) = reads a ++ reads b.
Proof. apply omap_app. Qed.

Lemma migration_events_writes i ms c :
  writes (migration_events i ms c) = [].
Proof.
  revert i c. induction ms as [|m r IH]; intros i c; [reflexivity|apply IH].
Qed.

Lemma persistMigrated_unchanged cs p vl v mc parsed w :
  parse cs = Some parsed -> yamlDiffPatch cs parsed mc = Some cs ->
  snd (persistMigrated cs p vl v mc w) = w.
Proof.
  intros Hp Hd. unfold persistMigrated. rewrite Hp.
  erewrite run_bind by reflexivity. rewrite Hd.
  erewrite run_bind by reflexivity. rewrite Hp.
  erewrite run_bind by reflexivity.
  destruct (negb (vl parsed)); [reflexivity|].
  destruct (maybeValidationError v parsed p); [reflexivity|].
  unfold jsstring_eqb. rewrite bool_decide_eq_true_2 by reflexivity.
  reflexivity.
Qed.

(** C2. The config file is not rewritten when the text computed equals the
    text known: (1) on load, when inserting the schema comment leaves the
    content read unchanged, the only file that may be written is the schema
    file; (2) in [migrateConfig], when the merged text equals the text
    given, nothing is written; (3) in [$commit], when the new text equals
    the text kept by the handle, the world is left as it was. *)
Theorem unchanged_text_is_not_written :
  (forall (options : InitConfigOptions) (p d : jsstring) (hasDefault : bool)
          (w w1 : World) (fileContent configPath : jsstring),
      readConfigFile p hasDefault w = (Ok (fileContent, configPath), w1) ->
      withSchemaComment (schemaPathComment options d) fileContent
      = fileContent ->
      let run := readExisting options p d hasDefault in
      let sp := schemaPath (name options) d (getSchemaDirPath options) in
      fst (run w) = Ok (fileContent, configPath)
      /\ (files (snd (run w)) = files w
          \/ files (snd (run w))
             = <[sp := latestSchemaJson options ++ nl]> (files w))
      /\ (writes (events_of run w) = []
          \/ writes (events_of run w)
             = [(sp, latestSchemaJson options ++ nl)]))
  /\ (forall (configString : jsstring) (migrations : list (Config -> Config))
             (configPath : jsstring) (validateLatestConfig : Config -> bool)
             (config : Config)
             (validate : option (Config -> jsstring -> ValidationResult))
             (parsed : Config) (w : World),
      parse configString = Some parsed ->
      yamlDiffPatch configString parsed
        (migrated (slice migrations (Number (version config))) config)
      = Some configString ->
      let run := migrateConfig configString migrations configPath
                               validateLatestConfig config validate in
      files (snd (run w)) = files w /\ writes (events_of run w) = [])
  /\ (forall (handle : nat) (this : Handle) (parsed : Config)
             (patched : jsstring) (w : World),
      heap w !! handle = Some this ->
      parse (h_configString this) = Some parsed ->
      yamlDiffPatch (h_configString this) parsed (h_data this)
      = Some patched ->
      trim patched ++ nl = h_configString this ->
      snd (commit handle w) = w).
Proof.
  split; [|split].
  - intros options p d hasDefault w w1 fileContent configPath Hread Hsame
           run sp.
    destruct (readConfigFile_world p hasDefault w) as (d0 & Hw1 & Hwr & _).
    rewrite Hread in Hw1. simpl in Hw1. subst w1.
    assert (Hrun : run w
      = (Ok (fileContent, configPath),
         ensureSchema_world (name options) d (getSchemaDirPath options)
                            (latestSchemaJson options) (add_trace d0 w))).
    { subst run. unfold readExisting. erewrite run_bind by exact Hread.
      cbv beta iota. rewrite syncSchemaComment_run. cbv zeta. rewrite Hsame.
      now rewrite bool_decide_eq_true_2. }
    rewrite Hrun. simpl fst. simpl snd. split; [reflexivity|]. split.
    + apply (ensureSchema_world_files _ _ _ _ (add_trace d0 w)).
    + destruct (ensureSchema_world_trace (name options) d
                  (getSchemaDirPath options) (latestSchemaJson options)
                  (add_trace d0 w)) as (evs & Ht & _ & Hwrites & _).
      erewrite events_of_delta.
      2:{ rewrite Hrun. simpl snd. rewrite Ht. simpl.
          rewrite <- app_assoc. reflexivity. }
      rewrite writes_app, Hwr. exact Hwrites.
  - intros cs ms p vl c v parsed w Hp Hd run. subst run.
    unfold migrateConfig.
    erewrite events_of_delta.
    2:{ erewrite run_bind by apply applyMigrations_run.
        erewrite persistMigrated_unchanged by eassumption. reflexivity. }
    erewrite run_bind by apply applyMigrations_run.
    erewrite persistMigrated_unchanged by eassumption.
    split; [reflexivity|]. apply migration_events_writes.
  - intros handle this parsed patched w Hh Hp Hd Hsame. unfold commit.
    erewrite run_bind by (unfold deref; rewrite Hh; reflexivity).
    rewrite Hp. erewrite run_bind by reflexivity.
    rewrite Hd. erewrite run_bind by reflexivity.
    destruct (negb _); [reflexivity|].
    unfold jsstring_eqb. rewrite bool_decide_eq_true_2 by congruence.
    reflexivity.
Qed.

End NoOpPersistence.

Lemma unchanged_text_is_not_written_witness :
  let options := Demo.demo_options Demo.demo_migrations 3 in
  let p := str "dir/config.yaml" in
  let text := Demo.schema_comment ++ nl ++ str "version: 3" ++ nl in
  let w := Demo.world_with p text in
  let load := readExisting options p (str "dir") false in
  let migrate :=
    migrateConfig (H := Demo.demo) (str "version: 3" ++ nl)
                  Demo.demo_migrations p (Demo.latest_is 3)
                  [(str "version", str "3")] None in
  let w2 := Demo.world_with_handle p (str "version: 3" ++ nl)
                                   [(str "version", str "3")] 3 in
  (fst (load w) = Ok (text, p)
   /\ (files (snd (load w)) = files w
       \/ files (snd (load w))
          = <[str "dir/schemas/config.json" := str "{}" ++ nl]> (files w))
   /\ (writes (events_of load w) = []
       \/ writes (events_of load w)
          = [(str "dir/schemas/config.json", str "{}" ++ nl)]))
  /\ (files (snd (migrate w)) = files w /\ writes (events_of migrate w) = [])
  /\ snd (commit 0 w2) = w2.
Proof.
  intros options p text w load migrate w2.
  destruct (unchanged_text_is_not_written (H := Demo.demo)) as (L & M & C).
  split; [|split].
  - apply (L options p (str "dir") false w (add_trace [EvReadFile p] w)
             text p); reflexivity.
  - apply (M (str "version: 3" ++ nl) Demo.demo_migrations p
             (Demo.latest_is 3) [(str "version", str "3")] None
             [(str "version", str "3")] w); reflexivity.
  - apply (C 0%nat (mkHandle (H := Demo.demo) [(str "version", str "3")] p
                             (str "version: 3" ++ nl) (Demo.latest_is 3))
             [(str "version", str "3")] (str "version: 3" ++ nl) w2);
      reflexivity.
Defined.

Section LoaderEvents.
Context `{Externals}.
Variable Q : Event -> Prop.
Variable options : InitConfigOptions.

Hypothesis Q_read : forall p, Q (EvReadFile p).
Hypothesis Q_mkdir : forall p, Q (EvMkdir p).
Hypothesis Q_migration : forall k x, Q (EvMigration k x).

Lemma only_syncSchemaComment d fileContent configPath :
  Q (EvWriteFile (schemaPath (name options) d (getSchemaDirPath options))
                 (latestSchemaJson options ++ nl)) ->
  (forall s, Q (EvWriteFile configPath (formatConfig s))) ->
  only_events Q (fun r => snd r = configPath)
              (syncSchemaComment options d fileContent configPath).
Proof using Q_read Q_mkdir.
  intros Hschema Hsave. unfold syncSchemaComment.
  eapply only_bind; [now apply only_ensureSchema|]. intros rel _.
  eapply only_bind; [now apply only_save_if|]. intros _ _.
  now apply only_ret.
Qed.

Lemma only_readExisting p d hasDefault :
  Q (EvWriteFile (schemaPath (name options) d (getSchemaDirPath options))
                 (latestSchemaJson options ++ nl)) ->
  (forall s, Q (EvWriteFile p (formatConfig s))) ->
  (forall s, Q (EvWriteFile (siblingPath p) (formatConfig s))) ->
  only_events Q (fun r => snd r = p \/ snd r = siblingPath p)
              (readExisting options p d hasDefault).
Proof using Q_read Q_mkdir.
  intros Hschema Hsave Hsib. unfold readExisting.
  eapply only_bind; [now apply only_readConfigFile|].
  intros [fc cp] [Hcp|Hcp]; simpl in Hcp; subst cp.
  - eapply only_weaken; [now apply only_syncSchemaComment|].
    intros r Hr. now left.
  - eapply only_weaken; [now apply only_syncSchemaComment|].
    intros r Hr. now right.
Qed.

Lemma only_createDefault p d defConf :
  Q (EvWriteFile (schemaPath (name options) d (getSchemaDirPath options))
                 (latestSchemaJson options ++ nl)) ->
  (forall s, Q (EvWriteFile p (formatConfig s))) ->
  only_events Q (fun r => snd r = p) (createDefault options p d defConf).
Proof using Q_read Q_mkdir.
  intros Hschema Hsave. unfold createDefault.
  eapply only_bind; [now apply only_ensureSchema|]. intros rel _.
  eapply only_bind; [apply only_get_world|]. intros w _.
  eapply only_bind with (P := fun _ => True).
  - destruct (default false (docsInConfigs w)); [now apply only_ret|].
    eapply only_bind; [apply only_lift_option|]. intros parsed _.
    eapply only_weaken; [apply only_lift_option|]. trivial.
  - intros cs _. eapply only_bind; [now apply only_saveConfig|].
    intros _ _. now apply only_ret.
Qed.

(** The events of the loader, and the path of the handle it returns. *)
Lemma only_getReadonlyConfigInitFunction getDefaultConfig :
  Q (EvWriteFile (schemaPath (name options) (requestedDir options)
                             (getSchemaDirPath options))
                 (latestSchemaJson options ++ nl)) ->
  (forall s, Q (EvWriteFile (requestedPath options) (formatConfig s))) ->
  (forall s, Q (EvWriteFile (siblingPath (requestedPath options))
                            (formatConfig s))) ->
  only_events Q
    (fun r => forall ro, r = Some ro ->
                         ro_getPath ro = requestedPath options
                         \/ ro_getPath ro = siblingPath (requestedPath options))
    (getReadonlyConfigInitFunction options getDefaultConfig).
Proof using Q_read Q_mkdir Q_migration.
  intros Hschema Hsave Hsib. rewrite getReadonlyConfigInitFunction_unfold.
  eapply only_bind
    with (P := fun r => forall x, r = Some x ->
                 snd x = requestedPath options
                 \/ snd x = siblingPath (requestedPath options)).
  - apply only_try.
    + eapply only_bind; [now apply only_readExisting|].
      intros r Hr. apply only_ret. now intros x [= <-].
    + intros _. destruct getDefaultConfig as [defConf|].
      * eapply only_bind; [now apply only_createDefault|].
        intros r Hr. apply only_ret. intros x [= <-]. now left.
      * now apply only_ret.
  - intros [[cs cp]|] Hcp; [|now apply only_ret].
    destruct (Hcp _ eq_refl) as [E|E]; simpl in E; subst cp.
    + eapply only_bind; [now apply only_validateAndBuild|].
      intros ro Hro. apply only_ret. intros ? [= <-]. now left.
    + eapply only_bind; [now apply only_validateAndBuild|].
      intros ro Hro. apply only_ret. intros ? [= <-]. now right.
Qed.

Lemma only_getConfigInitFunction getDefaultConfig :
  Q (EvWriteFile (schemaPath (name options) (requestedDir options)
                             (getSchemaDirPath options))
                 (latestSchemaJson options ++ nl)) ->
  (forall s, Q (EvWriteFile (requestedPath options) (formatConfig s))) ->
  (forall s, Q (EvWriteFile (siblingPath (requestedPath options))
                            (formatConfig s))) ->
  only_events Q (fun _ => True)
              (getConfigInitFunction options getDefaultConfig).
Proof using Q_read Q_mkdir Q_migration.
  intros Hschema Hsave Hsib. unfold getConfigInitFunction.
  eapply only_bind; [apply only_get_world|]. intros w _.
  destruct (initializedConfigs w !! _); [now apply only_ret|].
  eapply only_bind; [now apply only_getReadonlyConfigInitFunction|].
  intros [ro|] _; [|now apply only_ret].
  eapply only_bind; [apply only_alloc|]. intros l _.
  eapply only_bind; [apply only_cache_set|]. intros _ _.
  now apply only_ret.
Qed.

Lemma only_commit handle :
  (forall p s, Q (EvWriteFile p (formatConfig s))) ->
  only_events Q (fun _ => True) (commit handle).
Proof.
  intros Hsave. unfold commit.
  eapply only_bind; [apply only_deref|]. intros this _.
  eapply only_bind; [apply only_lift_option|]. intros parsed _.
  eapply only_bind; [apply only_lift_option|]. intros patched _.
  destruct (negb (h_validateLatest this (h_data this))); [apply only_throw|].
  destruct (negb (jsstring_eqb _ _)); [|now apply only_ret].
  eapply only_bind; [now apply only_saveConfig|]. intros saved _.
  apply only_store.
Qed.

End LoaderEvents.

Section WrittenTexts.
Context `{Externals}.

Lemma well_formatted_formatConfig s : well_formatted (formatConfig s).
Proof. apply formatConfig_shape. Qed.

Lemma writes_elem p c d : (p, c) ∈ writes d -> EvWriteFile p c ∈ d.
Proof.
  unfold writes. intros (e & He & Hf)%list_elem_of_omap.
  destruct e; try discriminate. now injection Hf as -> ->.
Qed.

Lemma only_events_writes (Q : Event -> Prop) {A} (P : A -> Prop) (m : M A)
    w p c :
  only_events Q P m -> (p, c) ∈ writes (events_of m w) -> Q (EvWriteFile p c).
Proof.
  intros Hm Hin. destruct (Hm w) as [(d & Hd & HQ) _].
  rewrite (events_of_delta m w d Hd) in Hin.
  apply writes_elem in Hin. rewrite Forall_forall in HQ. now apply HQ.
Qed.

(** C9. Config files are written by [saveConfig] only, and [saveConfig]
    writes [formatConfig] of the text it is given; so every config text
    written by the loader, by the mutable init function and by [$commit]
    is a trimmed body followed by exactly one newline, with no two
    neighbouring blank lines.  (The other file written is the JSON schema,
    by [ensureSchema].) *)
Theorem written_configs_are_formatted :
  (forall p s w,
      writes (events_of (saveConfig p s) w) = [(p, formatConfig s)]
      /\ files (snd (saveConfig p s w)) !! p = Some (formatConfig s))
  /\ (forall s, well_formatted (formatConfig s))
  /\ (forall options getDefaultConfig w p c,
         (p, c) ∈ writes (events_of (getReadonlyConfigInitFunction
                                       options getDefaultConfig) w) ->
         (p = schemaPath (name options) (requestedDir options)
                         (getSchemaDirPath options)
          /\ c = latestSchemaJson options ++ nl)
         \/ ((exists s, c = formatConfig s) /\ well_formatted c))
  /\ (forall options getDefaultConfig w p c,
         (p, c) ∈ writes (events_of (getConfigInitFunction
                                       options getDefaultConfig) w) ->
         (p = schemaPath (name options) (requestedDir options)
                         (getSchemaDirPath options)
          /\ c = latestSchemaJson options ++ nl)
         \/ ((exists s, c = formatConfig s) /\ well_formatted c))
  /\ (forall handle w p c,
         (p, c) ∈ writes (events_of (commit handle) w) ->
         (exists s, c = formatConfig s) /\ well_formatted c).
Proof.
  split; [|split; [|split; [|split]]].
  - intros p s w. split.
    + erewrite events_of_delta; [|rewrite saveConfig_run; reflexivity].
      reflexivity.
    + rewrite saveConfig_run. simpl. apply lookup_insert_eq.
  - apply well_formatted_formatConfig.
  - intros options g w p c Hin.
    assert (HQ : schema_or_formatted options (EvWriteFile p c)).
    { eapply (only_events_writes (schema_or_formatted options));
        [|exact Hin].
      apply only_getReadonlyConfigInitFunction; simpl; eauto. }
    destruct HQ as [HQ|[s ->]]; [now left|right].
    split; [eauto | apply well_formatted_formatConfig].
  - intros options g w p c Hin.
    assert (HQ : schema_or_formatted options (EvWriteFile p c)).
    { eapply (only_events_writes (schema_or_formatted options));
        [|exact Hin].
      apply only_getConfigInitFunction; simpl; eauto. }
    destruct HQ as [HQ|[s ->]]; [now left|right].
    split; [eauto | apply well_formatted_formatConfig].
  - intros handle w p c Hin.
    assert (HQ : formatted_write (EvWriteFile p c)).
    { eapply (only_events_writes formatted_write); [|exact Hin].
      apply only_commit. simpl. eauto. }
    destruct HQ as [s ->].
    split; [eauto | apply well_formatted_formatConfig].
Qed.

End WrittenTexts.

Section ExtensionFallback.
Context `{Externals}.

Lemma startsWith_app p s : startsWith (p ++ s) p = true.
Proof.
  induction p as [|a p IH]; simpl; [now destruct s|].
  now rewrite N.eqb_refl, IH.
Qed.

Lemma endsWith_app base ext : endsWith (base ++ ext) ext = true.
Proof. unfold endsWith. rewrite rev_app_distr. apply startsWith_app. Qed.

Lemma endsWith_yml_not_yaml base :
  endsWith (base ++ str ".yml") (str ".yaml") = false.
Proof. unfold endsWith. rewrite rev_app_distr. reflexivity. Qed.

Lemma slice_0_neg_app base ext :
  slice_0_neg (base ++ ext) (length ext) = base.
Proof.
  unfold slice_0_neg. rewrite length_app.
  replace (length base + length ext - length ext)%nat with (length base) by lia.
  apply take_app_length.
Qed.

(** The path tried after a failed read swaps the two extensions. *)
Lemma siblingPath_yaml base :
  siblingPath (base ++ str ".yaml") = base ++ str ".yml".
Proof.
  unfold siblingPath.
  change (str "." ++ YAML_EXT) with (str ".yaml").
  rewrite endsWith_app.
  change (base ++ str ".yaml") with (base ++ str "." ++ YAML_EXT).
  rewrite app_assoc, slice_0_neg_app. now rewrite <- app_assoc.
Qed.

Lemma siblingPath_yml base :
  siblingPath (base ++ str ".yml") = base ++ str ".yaml".
Proof.
  unfold siblingPath.
  change (str "." ++ YAML_EXT) with (str ".yaml").
  rewrite endsWith_yml_not_yaml.
  change (base ++ str ".yml") with (base ++ str "." ++ YML_EXT).
  rewrite app_assoc, slice_0_neg_app. now rewrite <- app_assoc.
Qed.

Lemma siblingPath_swapped base from to :
  swapped from to -> siblingPath (base ++ from) = base ++ to.
Proof.
  intros [[-> ->]|[-> ->]]; [apply siblingPath_yaml | apply siblingPath_yml].
Qed.

Lemma rethrows_swapped base from to hasDefault :
  swapped from to -> rethrows (base ++ from) hasDefault = false.
Proof.
  unfold rethrows.
  change (str "." ++ YAML_EXT) with (str ".yaml").
  change (str "." ++ YML_EXT) with (str ".yml").
  intros [[-> ->]|[-> ->]]; rewrite endsWith_app; simpl;
    [reflexivity | now rewrite andb_false_r].
Qed.

Lemma reads_writes_to p d : Forall (writes_to p) d -> reads d = [].
Proof.
  induction 1 as [|e d He Hd IH]; [reflexivity|].
  destruct e; try exact IH. contradiction.
Qed.

Lemma writes_writes_to p d q c :
  Forall (writes_to p) d -> (q, c) ∈ writes d -> q = p.
Proof.
  intros Hd Hin%writes_elem. rewrite Forall_forall in Hd.
  exact (Hd _ Hin).
Qed.

(** The world after the schema comment has been put in place. *)
Lemma syncSchemaComment_events options d fileContent configPath w :
  exists evs,
    trace (snd (syncSchemaComment options d fileContent configPath w))
    = trace w ++ evs
    /\ reads evs = [schemaPath (name options) d (getSchemaDirPath options)]
    /\ (forall q c, (q, c) ∈ writes evs ->
          q = configPath
          \/ (q = schemaPath (name options) d (getSchemaDirPath options)
              /\ c = latestSchemaJson options ++ nl)).
Proof.
  rewrite syncSchemaComment_run. cbv zeta.
  destruct (ensureSchema_world_trace (name options) d
              (getSchemaDirPath options) (latestSchemaJson options) w)
    as (evs & Ht & Hr & Hw & _).
  destruct (bool_decide _); simpl.
  - exists evs. split; [assumption|]. split; [assumption|].
    intros q c Hin. right.
    destruct Hw as [Hw|Hw]; rewrite Hw in Hin.
    + now apply elem_of_nil in Hin.
    + apply list_elem_of_singleton in Hin. now injection Hin as -> ->.
  - eexists (evs ++ [_]). split; [rewrite Ht, app_assoc; reflexivity|].
    split; [rewrite reads_app, Hr; reflexivity|].
    intros q c Hin. rewrite writes_app in Hin.
    apply elem_of_app in Hin as [Hin|Hin].
    + right. destruct Hw as [Hw|Hw]; rewrite Hw in Hin.
      * now apply elem_of_nil in Hin.
      * apply list_elem_of_singleton in Hin. now injection Hin as -> ->.
    + left. apply list_elem_of_singleton in Hin. now injection Hin as -> _.
Qed.

Lemma only_build_after_read options p cs :
  only_events (writes_to p)
    (fun r => forall ro, r = Some ro -> ro_getPath ro = p)
    (let* config := validateAndBuild options p cs in ret (Some config)).
Proof.
  eapply only_bind.
  - apply only_validateAndBuild; simpl; trivial.
  - intros ro Hro. apply only_ret. now intros ? [= <-].
Qed.

(** The loader when the requested file is absent and its sibling exists:
    the sibling is read, and everything after uses its path. *)
Lemma getReadonlyConfigInitFunction_fallback options g base from to
    content w :
  swapped from to ->
  requestedPath options = base ++ from ->
  files w !! (base ++ from) = None ->
  files w !! (base ++ to) = Some content ->
  getReadonlyConfigInitFunction options g w
  = (let* config :=
       validateAndBuild options (base ++ to)
         (withSchemaComment (schemaPathComment options (requestedDir options))
                            content) in
     ret (Some config))
      (snd (syncSchemaComment options (requestedDir options) content
              (base ++ to)
              (add_trace [EvReadFile (base ++ from); EvReadFile (base ++ to)]
                         w))).
Proof.
  intros Hsw Hreq Hnone Hsome.
  rewrite getReadonlyConfigInitFunction_unfold, Hreq.
  eapply run_bind_eq.
  - apply run_try_ok. eapply run_bind_eq; [|reflexivity].
    unfold readExisting. eapply run_bind_eq.
    + apply readConfigFile_fallback.
      * assumption.
      * now apply (rethrows_swapped base from to).
      * rewrite (siblingPath_swapped base from to Hsw). exact Hsome.
    + rewrite (siblingPath_swapped base from to Hsw). cbv beta iota.
      rewrite syncSchemaComment_run. reflexivity.
  - rewrite syncSchemaComment_run. reflexivity.
Qed.

(** What the loader does after a fallback: its reads, where it writes, and
    the path of the handle. *)
Lemma loader_after_fallback
    (options : InitConfigOptions) (getDefaultConfig : option jsstring)
    (base from to content : jsstring) (w : World) :
  swapped from to ->
  requestedPath options = base ++ from ->
  files w !! (base ++ from) = None ->
  files w !! (base ++ to) = Some content ->
  let run := getReadonlyConfigInitFunction options getDefaultConfig in
  let sp := schemaPath (name options) (requestedDir options)
                       (getSchemaDirPath options) in
  reads (events_of run w) = [base ++ from; base ++ to; sp]
  /\ (forall p c, (p, c) ∈ writes (events_of run w) ->
         p = base ++ to \/ (p = sp /\ c = latestSchemaJson options ++ nl))
  /\ (forall ro, fst (run w) = Ok (Some ro) -> ro_getPath ro = base ++ to).
Proof.
  intros Hsw Hreq Hnone Hsome run sp. subst run.
  pose proof (getReadonlyConfigInitFunction_fallback options getDefaultConfig
                base from to content w Hsw Hreq Hnone Hsome) as Hrun.
  set (w1 := add_trace [EvReadFile (base ++ from); EvReadFile (base ++ to)] w)
    in *.
  destruct (syncSchemaComment_events options (requestedDir options) content
              (base ++ to) w1) as (evs & Ht & Hr & Hw).
  set (w2 := snd (syncSchemaComment options (requestedDir options) content
                                    (base ++ to) w1)) in *.
  destruct (only_build_after_read options (base ++ to)
              (withSchemaComment
                 (schemaPathComment options (requestedDir options)) content)
              w2) as [(d & Hd & HQ) Hpost].
  rewrite <- Hrun in Hd, Hpost.
  assert (Hev : events_of (getReadonlyConfigInitFunction options
                             getDefaultConfig) w
                = [EvReadFile (base ++ from); EvReadFile (base ++ to)]
                  ++ evs ++ d).
  { apply events_of_delta. rewrite Hd, Ht. subst w1. simpl.
    now rewrite <- !app_assoc. }
  rewrite Hev. split; [|split].
  - rewrite !reads_app, Hr, (reads_writes_to _ _ HQ). reflexivity.
  - intros p c Hin. rewrite writes_app, writes_app in Hin.
    apply elem_of_app in Hin as [Hin|Hin]; [now apply elem_of_nil in Hin|].
    apply elem_of_app in Hin as [Hin|Hin].
    + now apply Hw.
    + left. now apply (writes_writes_to _ d p c).
  - intros ro Hro. exact (Hpost (Some ro) Hro ro eq_refl).
Qed.

(** C5. When the requested path ends in [.yaml] (or [.yml]), the file is
    absent and the file with the other extension exists, the loader reads
    the sibling file once (after the failed read, before the schema file),
    and from then on works with the sibling path: the config writes go to
    it and [$getPath] returns it. *)
Theorem extension_fallback_resolves_to_sibling
    (options : InitConfigOptions) (getDefaultConfig : option jsstring)
    (base from to content : jsstring) (w : World) :
  swapped from to ->
  requestedPath options = base ++ from ->
  files w !! (base ++ from) = None ->
  files w !! (base ++ to) = Some content ->
  let run := getReadonlyConfigInitFunction options getDefaultConfig in
  let sp := schemaPath (name options) (requestedDir options)
                       (getSchemaDirPath options) in
  reads (events_of run w) = [base ++ from; base ++ to; sp]
  /\ (forall p c, (p, c) ∈ writes (events_of run w) ->
         p = base ++ to \/ (p = sp /\ c = latestSchemaJson options ++ nl))
  /\ (forall ro, fst (run w) = Ok (Some ro) -> ro_getPath ro = base ++ to).
Proof. apply loader_after_fallback. Qed.

End ExtensionFallback.

Lemma extension_fallback_resolves_to_sibling_witness :
  let options := Demo.demo_options Demo.demo_migrations 3 in
  let w := Demo.world_with (str "dir/config.yml")
             (str "version: 3" ++ nl) in
  let run := getReadonlyConfigInitFunction options None in
  reads (events_of run w)
  = [str "dir/config" ++ str ".yaml"; str "dir/config" ++ str ".yml";
     str "dir/schemas/config.json"]
  /\ (forall p c, (p, c) ∈ writes (events_of run w) ->
         p = str "dir/config" ++ str ".yml"
         \/ (p = str "dir/schemas/config.json" /\ c = str "{}" ++ nl))
  /\ (forall ro, fst (run w) = Ok (Some ro) ->
                 ro_getPath ro = str "dir/config" ++ str ".yml").
Proof.
  apply (extension_fallback_resolves_to_sibling (H := Demo.demo)
           (Demo.demo_options Demo.demo_migrations 3) None
           (str "dir/config") (str ".yaml") (str ".yml")
           (str "version: 3" ++ nl)
           (Demo.world_with (str "dir/config.yml") (str "version: 3" ++ nl))).
  - left. split; reflexivity.
  - reflexivity.
  - reflexivity.
  - reflexivity.
Defined.

(** ** The loader leaves the handles and the cache alone *)

Section HandlesFrame.
Context `{Externals}.

Lemma kh_silent {A} (m : M A) :
  (forall w, snd (m w) = w) -> keeps_handles m.
Proof. intros Hm w. now rewrite Hm. Qed.

Lemma kh_ret {A} (a : A) : keeps_handles (ret a).
Proof. now apply kh_silent. Qed.

Lemma kh_throw {A} e : keeps_handles (@throw _ A e).
Proof. now apply kh_silent. Qed.

Lemma kh_error {A} r : keeps_handles (@commandObj_error _ A r).
Proof. now apply kh_silent. Qed.

Lemma kh_get_world : keeps_handles get_world.
Proof. now apply kh_silent. Qed.

Lemma kh_lift_option {A} (o : option A) e : keeps_handles (lift_option o e).
Proof. destruct o; [apply kh_ret | apply kh_throw]. Qed.

Lemma kh_log e : keeps_handles (log e).
Proof. now intros w. Qed.

Lemma kh_bind {A B} (m : M A) (k : A -> M B) :
  keeps_handles m -> (forall a, keeps_handles (k a)) ->
  keeps_handles (bind m k).
Proof.
  intros Hm Hk w. unfold bind. destruct (Hm w) as [H1 H2].
  destruct (m w) as [[a|r|e] w1]; simpl in *; try (now split).
  destruct (Hk a w1) as [H3 H4]. split; congruence.
Qed.

Lemma kh_try {A} (m : M A) (h : Exn -> M A) :
  keeps_handles m -> (forall e, keeps_handles (h e)) ->
  keeps_handles (try_catch m h).
Proof.
  intros Hm Hh w. unfold try_catch. destruct (Hm w) as [H1 H2].
  destruct (m w) as [[a|r|e] w1]; simpl in *; try (now split).
  destruct (Hh e w1) as [H3 H4]. split; congruence.
Qed.

Lemma kh_readFile p : keeps_handles (readFile p).
Proof.
  apply kh_bind; [apply kh_log|]. intros _ w. now destruct (files w !! p).
Qed.

Lemma kh_writeFile p c : keeps_handles (writeFile p c).
Proof. apply kh_bind; [apply kh_log|]. now intros _ w. Qed.

Lemma kh_applyMigrations i ms c : keeps_handles (applyMigrations i ms c).
Proof.
  revert i c. induction ms as [|m r IH]; intros i c; simpl.
  - apply kh_ret.
  - apply kh_bind; [apply kh_log | intros _; apply IH].
Qed.

Ltac keeps :=
  repeat first
    [ apply kh_ret | apply kh_throw | apply kh_error | apply kh_get_world
    | apply kh_lift_option | apply kh_log | apply kh_readFile
    | apply kh_writeFile | apply kh_applyMigrations
    | apply kh_bind; [|intros]
    | apply kh_try; [|intros]
    | match goal with
      | |- keeps_handles (if ?b then _ else _) => destruct b
      | |- keeps_handles (match ?x with _ => _ end) => destruct x
      | |- keeps_handles (mkdir _) => unfold mkdir
      | |- keeps_handles (saveConfig _ _) => unfold saveConfig
      | |- keeps_handles (ensureSchema _ _ _ _) => unfold ensureSchema
      | |- keeps_handles (persistMigrated _ _ _ _ _) => unfold persistMigrated
      | |- keeps_handles (migrateConfig _ _ _ _ _ _) => unfold migrateConfig
      | |- keeps_handles (ensureConfigIsValidLatest _ _ _ _) =>
          unfold ensureConfigIsValidLatest
      | |- keeps_handles (validateAndBuild _ _ _) => unfold validateAndBuild
      | |- keeps_handles (readConfigFile _ _) => unfold readConfigFile
      | |- keeps_handles (syncSchemaComment _ _ _ _) =>
          unfold syncSchemaComment
      | |- keeps_handles (readExisting _ _ _ _) => unfold readExisting
      | |- keeps_handles (createDefault _ _ _ _) => unfold createDefault
      end
    | progress cbv zeta ].

Lemma kh_getReadonlyConfigInitFunction options getDefaultConfig :
  keeps_handles (getReadonlyConfigInitFunction options getDefaultConfig).
Proof. rewrite getReadonlyConfigInitFunction_unfold. keeps. Qed.

End HandlesFrame.

(** ** The instance cache *)

Section InstanceCache.
Context `{Externals}.

(** A cache hit returns the cached reference and does nothing else. *)
Lemma getConfigInitFunction_hit options getDefaultConfig w l :
  initializedConfigs w !! requestedPath options = Some l ->
  getConfigInitFunction options getDefaultConfig w = (Ok (Some l), w).
Proof.
  intros Hhit. unfold getConfigInitFunction, bind, get_world.
  fold (requestedPath options). now rewrite Hhit.
Qed.

(** On a miss the loader runs, a new object is allocated and stored in the
    cache under the path that the loader resolved. *)
Lemma getConfigInitFunction_miss options getDefaultConfig w :
  initializedConfigs w !! requestedPath options = None ->
  getConfigInitFunction options getDefaultConfig w
  = match getReadonlyConfigInitFunction options getDefaultConfig w with
    | (Ok (Some ro), w1) =>
        let l := fresh (dom (heap w1)) in
        (Ok (Some l),
         mkWorld (files w1)
                 (<[l := mkHandle (ro_data ro) (ro_getPath ro)
                                  (ro_getConfigString ro)
                                  (ro_validateLatest ro)]> (heap w1))
                 (<[ro_getPath ro := l]> (initializedConfigs w1))
                 (docsInConfigs w1) (trace w1))
    | (Ok None, w1) => (Ok None, w1)
    | (Fatal r, w1) => (Fatal r, w1)
    | (Throw e, w1) => (Throw e, w1)
    end.
Proof.
  intros Hmiss. unfold getConfigInitFunction, bind, get_world.
  fold (requestedPath options). rewrite Hmiss.
  now destruct (getReadonlyConfigInitFunction options getDefaultConfig w)
    as [[[ro|]|r|e] w1].
Qed.

(** When the loader resolved the requested path itself, the next call finds
    the handle in the cache and returns the same reference. *)
Lemma second_call_returns_same_handle options getDefaultConfig w l this :
  initializedConfigs w !! requestedPath options = None ->
  fst (getConfigInitFunction options getDefaultConfig w) = Ok (Some l) ->
  heap (snd (getConfigInitFunction options getDefaultConfig w)) !! l
  = Some this ->
  h_configPath this = requestedPath options ->
  getConfigInitFunction options getDefaultConfig
    (snd (getConfigInitFunction options getDefaultConfig w))
  = (Ok (Some l), snd (getConfigInitFunction options getDefaultConfig w)).
Proof.
  intros Hmiss Hl Hthis Hpath. apply getConfigInitFunction_hit.
  rewrite (getConfigInitFunction_miss _ _ _ Hmiss) in *.
  destruct (getReadonlyConfigInitFunction options getDefaultConfig w)
    as [[[ro|]|r|e] w1]; try discriminate.
  simpl in *. injection Hl as <-.
  rewrite lookup_insert_eq in Hthis. injection Hthis as <-. simpl in Hpath.
  rewrite Hpath. apply lookup_insert_eq.
Qed.

Lemma swapped_neq base from to : swapped from to -> base ++ from <> base ++ to.
Proof.
  intros [[-> ->]|[-> ->]] E; apply app_inv_head in E; discriminate.
Qed.

(** After an extension fallback the handle is cached under the sibling
    path only, so the next call with the same request does not find it: it
    loads the file again and returns another object. *)
Lemma second_call_after_fallback_returns_another_handle
    options getDefaultConfig base from to content w l :
  swapped from to ->
  requestedPath options = base ++ from ->
  initializedConfigs w !! (base ++ from) = None ->
  files w !! (base ++ from) = None ->
  files w !! (base ++ to) = Some content ->
  fst (getConfigInitFunction options getDefaultConfig w) = Ok (Some l) ->
  let w1 := snd (getConfigInitFunction options getDefaultConfig w) in
  initializedConfigs w1 !! (base ++ from) = None
  /\ initializedConfigs w1 !! (base ++ to) = Some l
  /\ forall l2,
       fst (getConfigInitFunction options getDefaultConfig w1) = Ok (Some l2) ->
       l2 <> l.
Proof.
  intros Hsw Hreq Hmiss Hnone Hsome Hl w1.
  pose proof (loader_after_fallback options getDefaultConfig
                base from to content w Hsw Hreq Hnone Hsome)
    as (_ & _ & Hpath).
  pose proof (kh_getReadonlyConfigInitFunction options getDefaultConfig w)
    as [Hheap Hcache].
  rewrite <- Hreq in Hmiss.
  subst w1. rewrite (getConfigInitFunction_miss _ _ _ Hmiss) in *.
  destruct (getReadonlyConfigInitFunction options getDefaultConfig w)
    as [[[ro|]|r|e] w0]; try discriminate.
  simpl in *. injection Hl as <-.
  rewrite (Hpath ro eq_refl), Hcache.
  assert (Hmiss1 : <[base ++ to := fresh (dom (heap w0))]>
                     (initializedConfigs w) !! (base ++ from) = None).
  { rewrite lookup_insert_ne by (apply not_eq_sym; now apply swapped_neq).
    now rewrite <- Hreq. }
  split; [exact Hmiss1|]. split; [apply lookup_insert_eq|].
  intros l2 Hl2.
  rewrite getConfigInitFunction_miss in Hl2
    by (simpl; rewrite Hreq; exact Hmiss1).
  match type of Hl2 with
  | context [getReadonlyConfigInitFunction ?o ?g ?w'] =>
      pose proof (kh_getReadonlyConfigInitFunction o g w') as [Hheap2 _];
      destruct (getReadonlyConfigInitFunction o g w')
        as [[[ro2|]|r2|e2] w2]; try discriminate
  end.
  simpl in *. injection Hl2 as <-. rewrite Hheap2.
  intros Heq.
  match type of Heq with
  | fresh ?S = _ => pose proof (is_fresh S) as Hfresh
  end.
  rewrite Heq in Hfresh. apply Hfresh.
  rewrite dom_insert_L. set_solver.
Qed.

End InstanceCache.

(** C3 (what the code does at the failing input). The directory holds
    [config.yml] only and [config.yaml] is requested twice: the two calls
    return the references 0 and 1, the cache maps only [dir/config.yml],
    and a field assigned through the first handle is not seen through the
    second. *)
Theorem fallback_breaks_cache_identity :
  let options := Demo.demo_options Demo.demo_migrations 3 in
  let w0 := Demo.world_with (str "dir/config.yml")
              (Demo.schema_comment ++ nl ++ str "version: 3" ++ nl) in
  let first := getConfigInitFunction options None w0 in
  let second := getConfigInitFunction options None (snd first) in
  let w3 := snd (assign (H := Demo.demo) 0
                        (Demo.set_key (str "a") (str "1")) (snd second)) in
  fst first = Ok (Some 0%nat)
  /\ fst second = Ok (Some 1%nat)
  /\ initializedConfigs (snd second) !! str "dir/config.yaml" = None
  /\ fst (getData 0 w3) = Ok [(str "a", str "1"); (str "version", str "3")]
  /\ fst (getData 1 w3) = Ok [(str "version", str "3")].
Proof. vm_compute. repeat split. Qed.

(** ** The schema comment *)

Section TrimmedLines.

Lemma trimEnd_last_snoc l y : trimEnd_last (l ++ [y]) = l ++ [trimEnd y].
Proof.
  induction l as [|x l IH]; [reflexivity|].
  simpl app. destruct (l ++ [y]) as [|z r] eqn:E.
  - now destruct l.
  - change (trimEnd_last (x :: z :: r)) with (x :: trimEnd_last (z :: r)).
    now rewrite IH.
Qed.

Lemma nonblank_lines_snoc l y :
  nonblank_lines (l ++ [y])
  = nonblank_lines l ++ (if blank y then [] else [y]).
Proof.
  unfold nonblank_lines. rewrite List.filter_app. simpl.
  now destruct (blank y).
Qed.

Lemma blank_snoc x c : blank (x ++ [c]) = blank x && is_ws c.
Proof. unfold blank. rewrite forallb_app. simpl. now rewrite andb_true_r. Qed.

(** The lines of a string with one more code unit. *)
Lemma split_nl_snoc_any s c :
  exists ls x,
    split_nl s = ls ++ [x]
    /\ split_nl (s ++ [c])
       = if c =? NL then ls ++ [x; []] else ls ++ [x ++ [c]].
Proof.
  induction s as [|d s (ls & x & E1 & E2)]; simpl.
  - exists [], []. split; [reflexivity|]. now destruct (c =? NL).
  - rewrite E1, E2. destruct (d =? NL).
    + exists ([] :: ls), x. split; [reflexivity|]. now destruct (c =? NL).
    + destruct ls as [|h t]; simpl.
      * exists [], (d :: x). split; [reflexivity|]. now destruct (c =? NL).
      * exists ((d :: h) :: t), x. split; [reflexivity|].
        now destruct (c =? NL).
Qed.

(** Trimming the end of a text keeps its non-blank lines, the last of them
    trimmed at its end. *)
Lemma nonblank_lines_trimEnd s :
  nonblank_lines (split_nl (trimEnd s))
  = trimEnd_last (nonblank_lines (split_nl s)).
Proof.
  induction s as [|c s IH] using rev_ind; [reflexivity|].
  destruct (split_nl_snoc_any s c) as (ls & x & E1 & E2).
  destruct (is_ws c) eqn:Hc.
  - rewrite trimEnd_snoc_ws, IH, E1, E2 by assumption.
    destruct (N.eqb_spec c NL) as [->|Hn].
    + change (ls ++ [x; []]) with (ls ++ [x] ++ [[]]).
      rewrite app_assoc, (nonblank_lines_snoc (ls ++ [x]) []).
      simpl. now rewrite app_nil_r.
    + rewrite !nonblank_lines_snoc, blank_snoc, Hc, andb_true_r.
      destruct (blank x); [reflexivity|].
      rewrite !trimEnd_last_snoc. now rewrite trimEnd_snoc_ws.
  - rewrite trimEnd_snoc_nonws by assumption. rewrite E2.
    destruct (N.eqb_spec c NL) as [->|Hn]; [discriminate|].
    rewrite nonblank_lines_snoc, blank_snoc, Hc, andb_false_r.
    rewrite trimEnd_last_snoc. now rewrite trimEnd_snoc_nonws.
Qed.

Lemma split_nl_snoc_NL s : split_nl (s ++ nl) = split_nl s ++ [[]].
Proof.
  destruct (split_nl_snoc_any s NL) as (ls & x & E1 & E2).
  unfold nl. rewrite E2, E1. simpl. now rewrite <- app_assoc.
Qed.

(** The non-blank lines of a formatted text are those of the trimmed
    text. *)
Lemma nonblank_lines_formatConfig s :
  nonblank_lines (split_nl (formatConfig s))
  = nonblank_lines (split_nl (trim s)).
Proof.
  destruct (decide (trim s = [])) as [E|Hne].
  - rewrite (formatConfig_blank s E), E. reflexivity.
  - destruct (formatConfig_nonblank s Hne)
      as (L1 & rest & Hsplit & Hb & HF & Hstart & Hend).
    assert (Hfree : Forall nlfree (L1 :: rest)).
    { rewrite <- Hsplit. apply split_nl_nlfree. }
    apply Forall_cons in Hfree as [HL1 Hrest].
    rewrite HF, split_nl_snoc_NL, nonblank_lines_snoc.
    change (blank []) with true. cbv iota.
    rewrite app_nil_r, split_join, Hsplit.
    + unfold nonblank_lines. simpl. rewrite Hb. simpl. f_equal.
      apply formatLines_nonblank.
    + discriminate.
    + constructor; [assumption|].
      apply formatLines_Forall; [constructor | assumption].
Qed.

End TrimmedLines.

Section SchemaCommentSync.
Context `{Externals}.

Lemma join_nl_cons_head c x rest :
  exists r, join_nl ((c :: x) :: rest) = c :: r.
Proof. destruct rest; simpl; eauto. Qed.

(** C7 (amended). For an existing file whose content starts with the
    schema-comment prefix, the loader replaces the first line by the correct
    comment and, when this changes the text, saves the result through the
    formatter: the file then holds [formatConfig] of the new text, and its
    non-blank lines are the correct comment followed by the non-blank lines
    that came after the first line, in order, the last one without the
    white space at its end.  Blank lines are set by the formatter. *)
Theorem schema_comment_sync_saves_formatted_text
    (options : InitConfigOptions) (p d : jsstring) (hasDefault : bool)
    (fileContent : jsstring) (w : World) :
  files w !! p = Some fileContent ->
  startsWith fileContent schemaPathCommentStart = true ->
  nlfree (schemaPathComment options d) ->
  withSchemaComment (schemaPathComment options d) fileContent
  <> fileContent ->
  let comment := schemaPathComment options d in
  let subsequent := drop 1 (split_nl fileContent) in
  let configString := withSchemaComment comment fileContent in
  let written := formatConfig configString in
  files (snd (readExisting options p d hasDefault w)) !! p = Some written
  /\ configString = trim (join_nl (comment :: subsequent)) ++ nl
  /\ nonblank_lines (split_nl written)
     = trimEnd_last (nonblank_lines (comment :: subsequent)).
Proof.
  intros Hfile Hstarts Hfree Hdiff comment subsequent configString written.
  assert (Hcs : configString
                = trim (join_nl (comment :: subsequent)) ++ nl).
  { subst configString. unfold withSchemaComment. now rewrite Hstarts. }
  split; [|split; [exact Hcs|]].
  - unfold readExisting.
    erewrite run_bind by (apply readConfigFile_found; exact Hfile).
    cbv beta iota. rewrite syncSchemaComment_run. cbv zeta.
    rewrite bool_decide_eq_false_2 by exact Hdiff.
    simpl. apply lookup_insert_eq.
  - subst written. rewrite nonblank_lines_formatConfig, Hcs.
    rewrite (trim_snoc_nl _ (trim_trim _)).
    assert (Hsub : Forall nlfree subsequent).
    { subst subsequent. apply Forall_drop, split_nl_nlfree. }
    assert (HJ : trimStart (join_nl (comment :: subsequent))
                 = join_nl (comment :: subsequent)).
    { subst comment. unfold schemaPathComment.
      change schemaPathCommentStart
        with (35 :: str " yaml-language-server: $schema=").
      cbn [app].
      match goal with
      | |- context [join_nl ((35 :: ?x) :: ?r)] =>
          destruct (join_nl_cons_head 35 x r) as (t & ->)
      end.
      reflexivity. }
    unfold trim. rewrite HJ, nonblank_lines_trimEnd, split_join.
    + reflexivity.
    + discriminate.
    + now constructor.
Qed.

End SchemaCommentSync.

Lemma schema_comment_sync_saves_formatted_text_witness :
  let options := Demo.demo_options Demo.demo_migrations 3 in
  let p := str "dir/config.yaml" in
  let fileContent :=
    schemaPathCommentStart ++ str "old.json" ++ nl
    ++ str "version: 3" ++ nl ++ str "a: 1" ++ nl in
  let w := Demo.world_with p fileContent in
  let comment := schemaPathComment options (str "dir") in
  let subsequent := drop 1 (split_nl fileContent) in
  let configString := withSchemaComment comment fileContent in
  let written := formatConfig configString in
  files (snd (readExisting options p (str "dir") false w)) !! p = Some written
  /\ configString = trim (join_nl (comment :: subsequent)) ++ nl
  /\ nonblank_lines (split_nl written)
     = trimEnd_last (nonblank_lines (comment :: subsequent)).
Proof.
  apply (schema_comment_sync_saves_formatted_text (H := Demo.demo)
           (Demo.demo_options Demo.demo_migrations 3)
           (str "dir/config.yaml") (str "dir") false
           (schemaPathCommentStart ++ str "old.json" ++ nl
            ++ str "version: 3" ++ nl ++ str "a: 1" ++ nl)).
  - reflexivity.
  - reflexivity.
  - unfold nlfree. apply Forall_forall. intros c Hc.
    vm_compute in Hc. intros ->.
    repeat (apply elem_of_cons in Hc as [Hc|Hc]; [discriminate|]).
    now apply elem_of_nil in Hc.
  - vm_compute. discriminate.
Defined.

(** C7 (counterexample). A file with an outdated schema comment and two
    top-level keys: loading it writes a blank line between the keys, so the
    lines after the first are not the ones the file had. *)
Lemma schema_comment_sync_changes_later_lines :
  let options := Demo.demo_options Demo.demo_migrations 3 in
  let p := str "dir/config.yaml" in
  let original :=
    schemaPathCommentStart ++ str "old.json" ++ nl
    ++ str "version: 3" ++ nl ++ str "a: 1" ++ nl in
  let w := Demo.world_with p original in
  let w' := snd (getReadonlyConfigInitFunction options None w) in
  exists written,
    files w' !! p = Some written
    /\ written = Demo.schema_comment ++ nl ++ str "version: 3" ++ nl ++ nl
                 ++ str "a: 1" ++ nl
    /\ drop 1 (split_nl original) = [str "version: 3"; str "a: 1"; []]
    /\ drop 1 (split_nl written) = [str "version: 3"; []; str "a: 1"; []]
    /\ drop 1 (split_nl written) <> drop 1 (split_nl original).
Proof.
  eexists. split; [vm_compute; reflexivity|].
  split; [reflexivity|]. split; [reflexivity|]. split; [reflexivity|].
  vm_compute. discriminate.
Qed.

(** ** The path used by the mutable handle *)

Section HandlePath.
Context `{Externals}.

(** [$commit] writes to the path captured by the handle and nowhere else. *)
Lemma commit_writes_to_handle_path handle this w p c :
  heap w !! handle = Some this ->
  (p, c) ∈ writes (events_of (commit handle) w) ->
  p = h_configPath this.
Proof.
  intros Hh Hin.
  assert (Hrun : snd (commit handle w) = w
                 \/ exists s, trace (snd (commit handle w))
                              = trace w ++ [EvWriteFile (h_configPath this) s]).
  { unfold commit.
    erewrite run_bind by (unfold deref; rewrite Hh; reflexivity).
    destruct (parse (h_configString this)) as [parsed|]; [|now left].
    erewrite run_bind by reflexivity.
    destruct (yamlDiffPatch _ parsed _) as [patched|]; [|now left].
    erewrite run_bind by reflexivity.
    destruct (negb (h_validateLatest this (h_data this))); [now left|].
    destruct (negb (jsstring_eqb _ _)); [|now left].
    right. eexists. reflexivity. }
  destruct Hrun as [Hrun|(s & Hrun)].
  - unfold events_of in Hin. rewrite Hrun, drop_all in Hin.
    now apply elem_of_nil in Hin.
  - rewrite (events_of_delta _ _ _ Hrun) in Hin.
    apply list_elem_of_singleton in Hin. now injection Hin as -> _.
Qed.

(** After an extension fallback the mutable handle carries the sibling
    path: [$getPath] returns it and [$commit] writes to it. *)
Lemma handle_path_after_fallback options getDefaultConfig base from to
    content w l :
  swapped from to ->
  requestedPath options = base ++ from ->
  initializedConfigs w !! (base ++ from) = None ->
  files w !! (base ++ from) = None ->
  files w !! (base ++ to) = Some content ->
  fst (getConfigInitFunction options getDefaultConfig w) = Ok (Some l) ->
  fst (getPath l (snd (getConfigInitFunction options getDefaultConfig w)))
  = Ok (base ++ to).
Proof.
  intros Hsw Hreq Hmiss Hnone Hsome Hl.
  pose proof (loader_after_fallback options getDefaultConfig
                base from to content w Hsw Hreq Hnone Hsome)
    as (_ & _ & Hpath).
  rewrite <- Hreq in Hmiss.
  rewrite (getConfigInitFunction_miss _ _ _ Hmiss) in *.
  destruct (getReadonlyConfigInitFunction options getDefaultConfig w)
    as [[[ro|]|r|e] w0]; try discriminate.
  simpl in *. injection Hl as <-.
  unfold getPath, bind, deref. simpl. rewrite lookup_insert_eq. simpl.
  now rewrite (Hpath ro eq_refl).
Qed.

End HandlePath.

(** * Further properties of the module *)

(** ** The formatter: what it keeps and where it puts blank lines *)

Section FormatterSpacing.

Lemma formatLines_spaced lines e q :
  blank e = false ->
  (isComment q = true -> q = e) ->
  well_spaced_from e (formatLines (Some q) lines) = true.
Proof.
  revert e q. induction lines as [|x r IH]; intros e q He Hq; [reflexivity|].
  cbn [formatLines]. destruct (blank x) eqn:Hb.
  - rewrite formatWithPrev_blank by assumption. cbn [app].
    apply IH; [assumption|].
    intros Hx. apply isComment_not_blank in Hx. congruence.
  - rewrite formatWithPrev_some by assumption.
    destruct (isComment q) eqn:Hcq; cbn [negb andb app].
    + specialize (Hq eq_refl). subst q.
      cbn [well_spaced_from]. unfold spacing_ok at 1.
      rewrite Hb, He, Hcq, orb_true_r. cbn [andb]. now apply IH.
    + destruct (isIndented x) eqn:Hi; cbn [negb andb app].
      * cbn [well_spaced_from]. unfold spacing_ok at 1.
        rewrite Hb, He, Hi. cbn [orb andb]. now apply IH.
      * cbn [well_spaced_from]. unfold spacing_ok at 1 2.
        change (blank []) with true. rewrite Hb, Hi.
        cbn [negb andb]. now apply IH.
Qed.

(** X1. In the text that [formatConfig] returns, a blank line is never
    followed by an indented line, and a line that is neither blank nor
    indented comes directly after a non-blank line only when the line
    before it is a comment: a top-level key or a comment that comes after a
    line that is not a comment is set apart from it by a blank line, and no
    blank line comes before an indented line. *)
Theorem formatConfig_spacing (s : jsstring) :
  well_spaced (split_nl (trim (formatConfig s))) = true.
Proof.
  destruct (decide (trim s = [])) as [E|Hne].
  - rewrite (formatConfig_blank s E). reflexivity.
  - destruct (formatConfig_nonblank s Hne)
      as (L1 & rest & Hsplit & Hb & HF & Hstart & Hend).
    assert (Hfree : Forall nlfree (L1 :: rest)).
    { rewrite <- Hsplit. apply split_nl_nlfree. }
    apply Forall_cons in Hfree as [HL1 Hrest].
    rewrite HF, trim_snoc_nl by now apply trim_fixed.
    rewrite split_join.
    + cbn [well_spaced]. now apply formatLines_spaced.
    + discriminate.
    + constructor; [assumption|].
      apply formatLines_Forall; [constructor | assumption].
Qed.

(** X2. [formatConfig] keeps every non-blank line of the trimmed text, in
    order and unchanged; it only adds and removes blank lines. *)
Theorem formatConfig_keeps_nonblank_lines (s : jsstring) :
  nonblank_lines (split_nl (formatConfig s))
  = nonblank_lines (split_nl (trim s)).
Proof. apply nonblank_lines_formatConfig. Qed.

(** X3. On a text made of white space only (the empty text included)
    [formatConfig] returns a single newline. *)
Theorem formatConfig_of_blank_text (s : jsstring) :
  blank s = true -> formatConfig s = nl.
Proof. intros Hb. apply formatConfig_blank. now apply trim_nil_iff. Qed.

End FormatterSpacing.

Lemma formatConfig_of_blank_text_witness :
  formatConfig ([32; 32; NL; 9; NL] : jsstring) = nl.
Proof. apply (formatConfig_of_blank_text [32; 32; NL; 9; NL]). reflexivity. Defined.

(** ** The schema file *)

Section SchemaFile.
Context `{Externals}.

Lemma ensureSchema_world_up_to_date n d g j w :
  files w !! schemaPath n d g = Some (j ++ nl) ->
  ensureSchema_world n d g j w
  = add_trace [EvMkdir (path_join (match g with None => d | Some p => p end)
                                  SCHEMAS_DIR_NAME);
               EvReadFile (schemaPath n d g)] w.
Proof.
  intros E. unfold ensureSchema_world.
  now rewrite bool_decide_eq_true_2.
Qed.

Lemma ensureSchema_world_lookup n d g j w :
  files (ensureSchema_world n d g j w) !! schemaPath n d g = Some (j ++ nl).
Proof.
  unfold ensureSchema_world.
  destruct (bool_decide (files w !! schemaPath n d g = Some (j ++ nl))) eqn:E.
  - now apply bool_decide_eq_true in E.
  - simpl. apply lookup_insert_eq.
Qed.

(** X4. When [ensureSchema] returns, the value is the path of the schema
    file relative to the config directory, and the schema file then holds
    the serialized schema followed by a newline, whatever it held before;
    no other file, no handle and no cache entry has changed. *)
Theorem ensureSchema_installs_schema (n d : jsstring) (g : option jsstring)
    (j : jsstring) (w : World) (p : jsstring) :
  fst (ensureSchema n d g j w) = Ok p ->
  let r := ensureSchema n d g j w in
  p = path_relative d (schemaPath n d g)
  /\ files (snd r) !! schemaPath n d g = Some (j ++ nl)
  /\ (forall q, q <> schemaPath n d g -> files (snd r) !! q = files w !! q)
  /\ heap (snd r) = heap w
  /\ initializedConfigs (snd r) = initializedConfigs w.
Proof.
  intros Hret r. subst r. rewrite ensureSchema_run in *.
  simpl fst in Hret. simpl snd. injection Hret as <-.
  split; [reflexivity|]. split; [apply ensureSchema_world_lookup|].
  unfold ensureSchema_world. destruct (bool_decide _); simpl.
  - now repeat split.
  - split; [|now split]. intros q Hq. now apply lookup_insert_ne.
Qed.

(** X5. The schema file is written only when its content differs: a second
    [ensureSchema] right after a first one writes nothing and leaves the
    files as they are. *)
Theorem ensureSchema_twice_writes_once (n d : jsstring) (g : option jsstring)
    (j : jsstring) (w : World) :
  let w1 := snd (ensureSchema n d g j w) in
  writes (events_of (ensureSchema n d g j) w1) = []
  /\ files (snd (ensureSchema n d g j w1)) = files w1.
Proof.
  intros w1. subst w1. rewrite !ensureSchema_run. simpl snd.
  pose proof (ensureSchema_world_lookup n d g j w) as Hl.
  rewrite (ensureSchema_world_up_to_date n d g j _ Hl).
  split; [|reflexivity].
  erewrite events_of_delta; [|rewrite ensureSchema_run; simpl snd;
    rewrite (ensureSchema_world_up_to_date n d g j _ Hl); reflexivity].
  reflexivity.
Qed.

End SchemaFile.

Lemma ensureSchema_installs_schema_witness :
  let w := Demo.world_with (str "dir/schemas/config.json") (str "old") in
  let r := ensureSchema (H := Demo.demo) (str "config") (str "dir") None
                        (str "{}") w in
  let sp := schemaPath (H := Demo.demo) (str "config") (str "dir") None in
  str "schemas/config.json" = @path_relative Demo.demo (str "dir") sp
  /\ files (snd r) !! sp = Some (str "{}" ++ nl)
  /\ (forall q, q <> sp -> files (snd r) !! q = files w !! q)
  /\ heap (snd r) = heap w
  /\ initializedConfigs (snd r) = initializedConfigs w.
Proof.
  apply (ensureSchema_installs_schema (H := Demo.demo) (str "config")
           (str "dir") None (str "{}")
           (Demo.world_with (str "dir/schemas/config.json") (str "old"))
           (str "schemas/config.json")).
  reflexivity.
Defined.

(** ** Saving and migrating *)

Section SavingAndMigrating.
Context `{Externals}.

(** X6. [saveConfig] returns the text it wrote; reading the path afterwards
    gives that text back, and no other file, handle or cache entry
    changes. *)
Theorem saveConfig_then_read (p s : jsstring) (w : World) :
  let w' := snd (saveConfig p s w) in
  fst (saveConfig p s w) = Ok (formatConfig s)
  /\ fst (readFile p w') = Ok (formatConfig s)
  /\ (forall q, q <> p -> files w' !! q = files w !! q)
  /\ heap w' = heap w
  /\ initializedConfigs w' = initializedConfigs w.
Proof.
  intros w'. subst w'. rewrite saveConfig_run. simpl fst. simpl snd.
  split; [reflexivity|]. split.
  - rewrite readFile_run. simpl. now rewrite lookup_insert_eq.
  - split; [|now split]. intros q Hq. simpl. now apply lookup_insert_ne.
Qed.

(** Everything [persistMigrated] can do. *)
Lemma persistMigrated_cases cs p vl v mc w :
  match persistMigrated cs p vl v mc w with
  | (Ok (latest, mcs), w') =>
      vl latest = true
      /\ maybeValidationError v latest p = None
      /\ parse mcs = Some latest
      /\ (exists parsed, parse cs = Some parsed
                         /\ yamlDiffPatch cs parsed mc = Some mcs)
      /\ w' = (if bool_decide (cs = mcs) then w
               else set_file p (formatConfig mcs)
                      (add_trace [EvWriteFile p (formatConfig mcs)] w))
  | (_, w') => w' = w
  end.
Proof.
  unfold persistMigrated.
  destruct (parse cs) as [parsed|] eqn:Hp; [|reflexivity].
  erewrite run_bind by reflexivity.
  destruct (yamlDiffPatch cs parsed mc) as [mcs|] eqn:Hd; [|reflexivity].
  erewrite run_bind by reflexivity.
  destruct (parse mcs) as [latest|] eqn:Hl; [|reflexivity].
  erewrite run_bind by reflexivity.
  destruct (vl latest) eqn:Hv; [|reflexivity]. cbn [negb].
  destruct (maybeValidationError v latest p) eqn:Hm; [reflexivity|].
  unfold jsstring_eqb.
  case_bool_decide; simpl;
    (split; [assumption|]; split; [assumption|]; split; [assumption|];
     split; [now exists parsed |]).
  - now rewrite bool_decide_eq_true_2.
  - now rewrite bool_decide_eq_false_2.
Qed.

Lemma migrateConfig_run cs ms p vl c v w :
  migrateConfig cs ms p vl c v w
  = persistMigrated cs p vl v (migrated (slice ms (Number (version c))) c)
      (add_trace (migration_events
                    (slice_start (Number (version c)) (length ms))
                    (slice ms (Number (version c))) c) w).
Proof.
  unfold migrateConfig. now erewrite run_bind by apply applyMigrations_run.
Qed.

(** X7. When [migrateConfig] does not return (a fatal report or a thrown
    exception), it has written nothing: the validation of the migrated
    config comes before the only write. *)
Theorem migrateConfig_failure_writes_nothing
    (configString : jsstring) (migrations : list (Config -> Config))
    (configPath : jsstring) (validateLatestConfig : Config -> bool)
    (config : Config)
    (validate : option (Config -> jsstring -> ValidationResult))
    (w : World) :
  let run := migrateConfig configString migrations configPath
                           validateLatestConfig config validate in
  succeeded (fst (run w)) = false ->
  files (snd (run w)) = files w /\ writes (events_of run w) = [].
Proof.
  intros run Hfail. subst run.
  rewrite migrateConfig_run in *.
  set (evs := migration_events _ _ _) in *.
  pose proof (persistMigrated_cases configString configPath
                validateLatestConfig validate
                (migrated (slice migrations (Number (version config))) config)
                (add_trace evs w)) as Hc.
  assert (Hw : snd (persistMigrated configString configPath
                      validateLatestConfig validate
                      (migrated (slice migrations (Number (version config)))
                                config) (add_trace evs w))
               = add_trace evs w).
  { destruct (persistMigrated _ _ _ _ _ _) as [[[latest mcs]|r|e] w'];
      [discriminate | exact Hc | exact Hc]. }
  split.
  - now rewrite Hw.
  - erewrite events_of_delta.
    2:{ rewrite migrateConfig_run. fold evs. rewrite Hw. reflexivity. }
    apply migration_events_writes.
Qed.

(** X8. When [migrateConfig] returns, the config it returns passes the
    latest-schema validator and the optional validator, and is what the
    returned text parses to; the file holds the formatted returned text if
    the text differs from the one given, and is untouched otherwise. *)
Theorem migrateConfig_success
    (configString : jsstring) (migrations : list (Config -> Config))
    (configPath : jsstring) (validateLatestConfig : Config -> bool)
    (config : Config)
    (validate : option (Config -> jsstring -> ValidationResult))
    (w : World) (latestConfig : Config) (migratedConfigString : jsstring) :
  let run := migrateConfig configString migrations configPath
                           validateLatestConfig config validate in
  fst (run w) = Ok (latestConfig, migratedConfigString) ->
  validateLatestConfig latestConfig = true
  /\ maybeValidationError validate latestConfig configPath = None
  /\ parse migratedConfigString = Some latestConfig
  /\ (migratedConfigString <> configString ->
      files (snd (run w))
      = <[configPath := formatConfig migratedConfigString]> (files w))
  /\ (migratedConfigString = configString -> files (snd (run w)) = files w).
Proof.
  intros run Hok. subst run. rewrite migrateConfig_run in *.
  set (evs := migration_events _ _ _) in *.
  pose proof (persistMigrated_cases configString configPath
                validateLatestConfig validate
                (migrated (slice migrations (Number (version config))) config)
                (add_trace evs w)) as Hc.
  destruct (persistMigrated _ _ _ _ _ _) as [[[latest mcs]|r|e] w'];
    try discriminate.
  simpl in Hok. injection Hok as -> ->.
  destruct Hc as (Hv & Hm & Hp & _ & Hw').
  split; [assumption|]. split; [assumption|]. split; [assumption|].
  simpl snd. subst w'. split.
  - intros Hne. rewrite bool_decide_eq_false_2 by congruence. reflexivity.
  - intros He. rewrite bool_decide_eq_true_2 by congruence. reflexivity.
Qed.

End SavingAndMigrating.

Lemma migrateConfig_failure_writes_nothing_witness :
  let run :=
    migrateConfig (H := Demo.demo) (str "version: 1" ++ nl)
                  Demo.demo_migrations (str "dir/config.yaml")
                  (Demo.latest_is 5) [(str "version", str "1")] None in
  let w := Demo.world_with (str "dir/config.yaml") (str "version: 1" ++ nl) in
  files (snd (run w)) = files w /\ writes (events_of run w) = [].
Proof.
  apply (migrateConfig_failure_writes_nothing (H := Demo.demo)
           (str "version: 1" ++ nl) Demo.demo_migrations
           (str "dir/config.yaml") (Demo.latest_is 5)
           [(str "version", str "1")] None
           (Demo.world_with (str "dir/config.yaml") (str "version: 1" ++ nl))).
  reflexivity.
Defined.

Lemma migrateConfig_success_witness :
  let run :=
    migrateConfig (H := Demo.demo) (str "version: 1" ++ nl)
                  Demo.demo_migrations (str "dir/config.yaml")
                  (Demo.latest_is 3) [(str "version", str "1")] None in
  let w := Demo.world_with (str "dir/config.yaml") (str "version: 1" ++ nl) in
  let latestConfig : @Config Demo.demo := [(str "version", str "3")] in
  let migratedConfigString := str "version: 3" ++ nl in
  Demo.latest_is 3 latestConfig = true
  /\ maybeValidationError None latestConfig (str "dir/config.yaml") = None
  /\ parse migratedConfigString = Some latestConfig
  /\ (migratedConfigString <> str "version: 1" ++ nl ->
      files (snd (run w))
      = <[str "dir/config.yaml" := formatConfig migratedConfigString]>
          (files w))
  /\ (migratedConfigString = str "version: 1" ++ nl ->
      files (snd (run w)) = files w).
Proof.
  apply (migrateConfig_success (H := Demo.demo)
           (str "version: 1" ++ nl) Demo.demo_migrations
           (str "dir/config.yaml") (Demo.latest_is 3)
           [(str "version", str "1")] None
           (Demo.world_with (str "dir/config.yaml") (str "version: 1" ++ nl))
           [(str "version", str "3")] (str "version: 3" ++ nl)).
  reflexivity.
Defined.

(** ** What the loader returns *)

Section LoaderResults.
Context `{Externals}.

Lemma bind_ok_inv {A B} (m : M A) (k : A -> M B) w b :
  fst (bind m k w) = Ok b ->
  exists a w1, m w = (Ok a, w1) /\ bind m k w = k a w1.
Proof.
  unfold bind. destruct (m w) as [[a|r|e] w1]; try discriminate.
  intros _. now exists a, w1.
Qed.

Lemma validateAndBuild_valid options p cs w ro :
  fst (validateAndBuild options p cs w) = Ok ro ->
  valid_readonly options ro /\ ro_getPath ro = p.
Proof.
  unfold validateAndBuild.
  destruct (parse cs) as [config|] eqn:Hp; [|discriminate].
  erewrite run_bind by reflexivity.
  destruct (validateAllConfigVersions options config); [|discriminate].
  cbn [negb].
  destruct (js_lt_length _ _).
  - intros Hok.
    pose proof (bind_ok_inv _ _ _ _ Hok) as ([latest mcs] & w1 & Hm & Hb).
    rewrite Hb in Hok. clear Hb. simpl in Hok. injection Hok as <-.
    rewrite migrateConfig_run in Hm.
    match type of Hm with
    | persistMigrated ?a ?b ?c ?d ?e ?f = _ =>
        pose proof (persistMigrated_cases a b c d e f) as Hc
    end.
    rewrite Hm in Hc. destruct Hc as (Hv & Hs & Hl & _ & _).
    now repeat split.
  - unfold ensureConfigIsValidLatest.
    destruct (validateLatestConfig options config) eqn:Hv; [|discriminate].
    cbn [negb].
    destruct (maybeValidationError (validate options) config p) eqn:Hs;
      [discriminate|].
    simpl. intros [= <-]. now repeat split.
Qed.

Lemma getReadonlyConfigInitFunction_valid options g w ro :
  fst (getReadonlyConfigInitFunction options g w) = Ok (Some ro) ->
  valid_readonly options ro.
Proof.
  rewrite getReadonlyConfigInitFunction_unfold.
  intros Hok.
  pose proof (bind_ok_inv _ _ _ _ Hok) as (loaded & w1 & _ & Hb).
  rewrite Hb in Hok. clear Hb.
  destruct loaded as [[cs cp]|]; [|discriminate].
  pose proof (bind_ok_inv _ _ _ _ Hok) as (ro' & w2 & Hv & Hb).
  rewrite Hb in Hok. clear Hb.
  simpl in Hok. injection Hok as ->.
  apply (validateAndBuild_valid options cp cs w1 ro). now rewrite Hv.
Qed.

(** X9. Whatever the file held, a read-only handle returned by the loader
    has data that pass the latest-schema validator and the optional
    validator, a text that parses to these data, and the latest-schema
    validator as [$validateLatest]. *)
Theorem loaded_config_is_valid (options : InitConfigOptions)
    (getDefaultConfig : option jsstring) (w : World) (ro : ReadonlyConfig) :
  fst (getReadonlyConfigInitFunction options getDefaultConfig w)
  = Ok (Some ro) ->
  validateLatestConfig options (ro_data ro) = true
  /\ maybeValidationError (validate options) (ro_data ro) (ro_getPath ro)
     = None
  /\ parse (ro_getConfigString ro) = Some (ro_data ro)
  /\ ro_validateLatest ro = validateLatestConfig options.
Proof. apply getReadonlyConfigInitFunction_valid. Qed.

Lemma loader_with_default_not_null options defConf w :
  is_null (fst (getReadonlyConfigInitFunction options (Some defConf) w))
  = false.
Proof.
  rewrite getReadonlyConfigInitFunction_unfold.
  unfold bind at 1, try_catch.
  destruct (bind (readExisting _ _ _ _) _ w) as [[r|f|e] w1] eqn:E.
  - unfold bind in E.
    destruct (readExisting _ _ _ _ w) as [[x|f|e] w0]; try discriminate.
    injection E as <- <-. destruct x as [cs cp].
    unfold bind. now destruct (validateAndBuild options cp cs w0) as [[?|?|?] ?].
  - reflexivity.
  - unfold bind at 1.
    destruct (createDefault _ _ _ _ w1) as [[[cs cp]|f|e'] w2]; try reflexivity.
    unfold ret at 1. cbv beta iota.
    unfold bind. now destruct (validateAndBuild options cp cs w2) as [[?|?|?] ?].
Qed.

(** X10. With a default-config generator neither init function returns
    [null]: the read-only one and the mutable one return an object, report
    a fatal error or throw. *)
Theorem init_with_default_never_null (options : InitConfigOptions)
    (defConf : jsstring) (w : World) :
  is_null (fst (getReadonlyConfigInitFunction options (Some defConf) w))
  = false
  /\ is_null (fst (getConfigInitFunction options (Some defConf) w)) = false.
Proof.
  split; [apply loader_with_default_not_null|].
  destruct (initializedConfigs w !! requestedPath options) as [l|] eqn:E.
  - now rewrite (getConfigInitFunction_hit _ _ _ _ E).
  - rewrite (getConfigInitFunction_miss _ _ _ E).
    pose proof (loader_with_default_not_null options defConf w) as Hn.
    now destruct (getReadonlyConfigInitFunction options (Some defConf) w)
      as [[[ro|]|r|e] w1].
Qed.

End LoaderResults.

Lemma loaded_config_is_valid_witness :
  let options := Demo.demo_options Demo.demo_migrations 3 in
  let ro :=
    mkReadonly (H := Demo.demo) [(str "version", str "3")]
               (str "dir/config.yaml")
               (Demo.schema_comment ++ nl ++ str "version: 3" ++ nl)
               (Demo.latest_is 3) in
  validateLatestConfig options (ro_data ro) = true
  /\ maybeValidationError (validate options) (ro_data ro) (ro_getPath ro)
     = None
  /\ parse (ro_getConfigString ro) = Some (ro_data ro)
  /\ ro_validateLatest ro = validateLatestConfig options.
Proof.
  apply (loaded_config_is_valid (H := Demo.demo)
           (Demo.demo_options Demo.demo_migrations 3) None
           (Demo.world_with (str "dir/config.yaml") (str "version: 1" ++ nl))).
  reflexivity.
Defined.

(** ** The loader on an existing file *)

Section ExistingFile.
Context `{Externals}.

Lemma getReadonlyConfigInitFunction_found options g content w :
  files w !! requestedPath options = Some content ->
  getReadonlyConfigInitFunction options g w
  = (let* config :=
       validateAndBuild options (requestedPath options)
         (withSchemaComment (schemaPathComment options (requestedDir options))
                            content) in
     ret (Some config))
      (snd (syncSchemaComment options (requestedDir options) content
              (requestedPath options)
              (add_trace [EvReadFile (requestedPath options)] w))).
Proof.
  intros Hsome. rewrite getReadonlyConfigInitFunction_unfold.
  eapply run_bind_eq.
  - apply run_try_ok. eapply run_bind_eq; [|reflexivity].
    unfold readExisting. eapply run_bind_eq.
    + apply readConfigFile_found. exact Hsome.
    + cbv beta iota. rewrite syncSchemaComment_run. reflexivity.
  - rewrite syncSchemaComment_run. reflexivity.
Qed.

(** X11. When the requested file exists, the file with the other extension
    is never tried: the first read of the loader is the requested file and
    every later read is the schema file, every write goes to the requested
    path or is the schema file, and [$getPath] of a handle it returns is
    the requested path. *)
Theorem existing_file_is_read_directly
    (options : InitConfigOptions) (getDefaultConfig : option jsstring)
    (content : jsstring) (w : World) :
  files w !! requestedPath options = Some content ->
  let run := getReadonlyConfigInitFunction options getDefaultConfig in
  let sp := schemaPath (name options) (requestedDir options)
                       (getSchemaDirPath options) in
  (exists later,
      reads (events_of run w) = requestedPath options :: later
      /\ Forall (fun p => p = sp) later)
  /\ (forall p c, (p, c) ∈ writes (events_of run w) ->
         p = requestedPath options
         \/ (p = sp /\ c = latestSchemaJson options ++ nl))
  /\ (forall ro, fst (run w) = Ok (Some ro) ->
                 ro_getPath ro = requestedPath options).
Proof.
  intros Hsome run sp. subst run.
  pose proof (getReadonlyConfigInitFunction_found options getDefaultConfig
                content w Hsome) as Hrun.
  set (w1 := add_trace [EvReadFile (requestedPath options)] w) in *.
  destruct (syncSchemaComment_events options (requestedDir options) content
              (requestedPath options) w1) as (evs & Ht & Hr & Hw).
  set (w2 := snd (syncSchemaComment options (requestedDir options) content
                                    (requestedPath options) w1)) in *.
  destruct (only_build_after_read options (requestedPath options)
              (withSchemaComment
                 (schemaPathComment options (requestedDir options)) content)
              w2) as [(d & Hd & HQ) Hpost].
  rewrite <- Hrun in Hd, Hpost.
  assert (Hev : events_of (getReadonlyConfigInitFunction options
                             getDefaultConfig) w
                = [EvReadFile (requestedPath options)] ++ evs ++ d).
  { apply events_of_delta. rewrite Hd, Ht. subst w1. simpl.
    now rewrite <- !app_assoc. }
  rewrite Hev. split; [|split].
  - exists [sp]. rewrite !reads_app, Hr, (reads_writes_to _ _ HQ).
    split; [reflexivity|]. now repeat constructor.
  - intros p c Hin. rewrite writes_app, writes_app in Hin.
    apply elem_of_app in Hin as [Hin|Hin]; [now apply elem_of_nil in Hin|].
    apply elem_of_app in Hin as [Hin|Hin].
    + now apply Hw.
    + left. now apply (writes_writes_to _ d p c).
  - intros ro Hro. exact (Hpost (Some ro) Hro ro eq_refl).
Qed.


End ExistingFile.

Lemma existing_file_is_read_directly_witness :
  let options := Demo.demo_options Demo.demo_migrations 3 in
  let w := Demo.world_with (str "dir/config.yaml") (str "version: 3" ++ nl) in
  let run := getReadonlyConfigInitFunction options None in
  (exists later,
      reads (events_of run w) = str "dir/config.yaml" :: later
      /\ Forall (fun p => p = str "dir/schemas/config.json") later)
  /\ (forall p c, (p, c) ∈ writes (events_of run w) ->
         p = str "dir/config.yaml"
         \/ (p = str "dir/schemas/config.json" /\ c = str "{}" ++ nl))
  /\ (forall ro, fst (run w) = Ok (Some ro) ->
                 ro_getPath ro = str "dir/config.yaml").
Proof.
  apply (existing_file_is_read_directly (H := Demo.demo)
           (Demo.demo_options Demo.demo_migrations 3) None
           (str "version: 3" ++ nl)
           (Demo.world_with (str "dir/config.yaml") (str "version: 3" ++ nl))).
  reflexivity.
Defined.


(** ** Versions and the slice of migrations *)

Section VersionsAndSlices.
Context `{Externals}.

Lemma js_lt_length_nat a V len :
  is_nat_number a V -> js_lt_length a len = bool_decide (V < len)%nat.
Proof.
  destruct a as [| |q]; try contradiction. simpl. intros Hq.
  destruct (q ?= inject_Z (Z.of_nat len))%Q eqn:E.
  - apply Qeq_alt in E. rewrite Hq in E.
    unfold Qeq in E. simpl in E.
    rewrite bool_decide_eq_false_2; [reflexivity|lia].
  - apply Qlt_alt in E. rewrite Hq in E.
    unfold Qlt in E. simpl in E.
    rewrite bool_decide_eq_true_2; [reflexivity|lia].
  - apply Qgt_alt in E. rewrite Hq in E.
    unfold Qlt in E. simpl in E.
    rewrite bool_decide_eq_false_2; [reflexivity|lia].
Qed.

Lemma slice_start_le a len : (slice_start a len <= len)%nat.
Proof.
  destruct a as [|[|]|q]; simpl; try lia.
  destruct (Z.ltb_spec (Qnum q ÷ Z.pos (Qden q)) 0); lia.
Qed.

(** X13. A config whose version is a number [V] with
    [V >= migrations.length] is not migrated: the loader checks the config
    itself against the latest schema and the optional validator.  A config
    that the latest schema rejects is refused with the fatal report
    "Invalid config <path>", one for which the optional validator gives an
    error with "Invalid config <path>. Errors: ...", and a config that
    passes both is returned as it is with the text unchanged; in each case
    nothing is read or written. *)
Theorem up_to_date_version_is_not_migrated
    (options : InitConfigOptions) (configPath configString : jsstring)
    (config : Config) (V : nat) (w : World) :
  parse configString = Some config ->
  validateAllConfigVersions options config = true ->
  is_nat_number (Number (version config)) V ->
  (length (migrations options) <= V)%nat ->
  validateAndBuild options configPath configString w
  = (let* latestConfig :=
       ensureConfigIsValidLatest configPath (validateLatestConfig options)
                                 config (validate options) in
     ret (mkReadonly latestConfig configPath configString
                     (validateLatestConfig options))) w
  /\ snd (validateAndBuild options configPath configString w) = w
  /\ (validateLatestConfig options config = false ->
      fst (validateAndBuild options configPath configString w)
      = Fatal (InvalidConfig configPath))
  /\ (forall f e,
        validateLatestConfig options config = true ->
        validate options = Some f ->
        f config configPath = Invalid e ->
        fst (validateAndBuild options configPath configString w)
        = Fatal (InvalidConfigErrors configPath e))
  /\ (validateLatestConfig options config = true ->
      (forall f, validate options = Some f -> f config configPath = Valid) ->
      fst (validateAndBuild options configPath configString w)
      = Ok (mkReadonly config configPath configString
                       (validateLatestConfig options))).
Proof.
  intros Hparse Hall HV Hle.
  assert (Hlt : js_lt_length (Number (version config))
                             (length (migrations options)) = false).
  { rewrite (js_lt_length_nat _ V _ HV).
    apply bool_decide_eq_false_2. lia. }
  destruct (validateAndBuild_unmigrated options configPath configString
              config w Hparse Hall Hlt) as (Hrun & Hrefused & Herrors & Hok).
  split; [exact Hrun|]. split.
  { rewrite Hrun. unfold bind.
    pose proof (ensureConfigIsValidLatest_silent configPath
                  (validateLatestConfig options) config (validate options) w)
      as Hs.
    destruct (ensureConfigIsValidLatest _ _ _ _ w) as [[c|r|e] w1];
      simpl in *; now subst w1. }
  split; [|split].
  - intros Hno. now rewrite (Hrefused Hno).
  - intros f e Hyes Hf He. now rewrite (Herrors f e Hyes Hf He).
  - intros Hyes Hvalid. now rewrite (Hok Hyes Hvalid).
Qed.

(** X14. Whatever number the version is, [migrateConfig] calls the
    migrations from the index where [migrations.slice(Number(version))]
    starts up to the last one, once each and in order, and the value it
    merges into the text is the result of applying them in turn.  The start
    is 0 for NaN, counts from the end for a negative number and is the
    integer part of a fraction. *)
Theorem migrateConfig_runs_the_slice
    (configString : jsstring) (migrations : list (Config -> Config))
    (configPath : jsstring) (validateLatestConfig : Config -> bool)
    (config : Config)
    (validate : option (Config -> jsstring -> ValidationResult))
    (w : World) :
  let k := slice_start (Number (version config)) (length migrations) in
  let run := migrateConfig configString migrations configPath
                           validateLatestConfig config validate in
  (k <= length migrations)%nat
  /\ map fst (migration_calls (events_of run w))
     = seq k (length migrations - k)
  /\ (forall latestConfig migratedConfigString,
        fst (run w) = Ok (latestConfig, migratedConfigString) ->
        exists parsed,
          parse configString = Some parsed
          /\ yamlDiffPatch configString parsed
               (migrated (drop k migrations) config)
             = Some migratedConfigString).
Proof.
  intros k run. subst run. split; [apply slice_start_le|]. split.
  - rewrite migrateConfig_calls. cbv zeta. fold k.
    rewrite migration_events_indices. now rewrite length_drop.
  - intros latest mcs Hok. rewrite migrateConfig_run in Hok.
    match type of Hok with
    | fst (persistMigrated ?a ?b ?c ?d ?e ?f) = _ =>
        pose proof (persistMigrated_cases a b c d e f) as Hc;
        destruct (persistMigrated a b c d e f) as [[[l m]|r|e'] w']
    end; try discriminate.
    simpl in Hok. injection Hok as -> ->.
    destruct Hc as (_ & _ & _ & Hex & _). exact Hex.
Qed.

End VersionsAndSlices.

Lemma up_to_date_version_is_not_migrated_witness :
  let options := Demo.demo_options Demo.demo_migrations 3 in
  let p := str "dir/config.yaml" in
  let configString := str "version: 3" ++ nl in
  let config : @Config Demo.demo := [(str "version", str "3")] in
  let w := Demo.empty_world in
  validateAndBuild options p configString w
  = (let* latestConfig :=
       ensureConfigIsValidLatest p (validateLatestConfig options)
                                 config (validate options) in
     ret (mkReadonly latestConfig p configString
                     (validateLatestConfig options))) w
  /\ snd (validateAndBuild options p configString w) = w
  /\ (validateLatestConfig options config = false ->
      fst (validateAndBuild options p configString w)
      = Fatal (InvalidConfig p))
  /\ (forall f e,
        validateLatestConfig options config = true ->
        validate options = Some f ->
        f config p = Invalid e ->
        fst (validateAndBuild options p configString w)
        = Fatal (InvalidConfigErrors p e))
  /\ (validateLatestConfig options config = true ->
      (forall f, validate options = Some f -> f config p = Valid) ->
      fst (validateAndBuild options p configString w)
      = Ok (mkReadonly config p configString (validateLatestConfig options))).
Proof.
  apply (up_to_date_version_is_not_migrated (H := Demo.demo)
           (Demo.demo_options Demo.demo_migrations 3)
           (str "dir/config.yaml") (str "version: 3" ++ nl)
           [(str "version", str "3")] 3 Demo.empty_world).
  - reflexivity.
  - reflexivity.
  - reflexivity.
  - simpl. lia.
Defined.

(** ** Creating the default config *)

Section DefaultConfig.
Context `{Externals}.

Lemma ensureSchema_world_docs n d g j w :
  docsInConfigs (ensureSchema_world n d g j w) = docsInConfigs w.
Proof. unfold ensureSchema_world. now destruct (bool_decide _). Qed.

(** Everything [createDefault] can do. *)
Lemma createDefault_outcomes
    (options : InitConfigOptions) (p d defConf : jsstring) (w : World) :
  let r := createDefault options p d defConf w in
  is_fatal (fst r) = false
  /\ (forall cs p',
        fst r = Ok (cs, p') ->
        p' = p
        /\ files (snd r) !! p = Some (formatConfig cs)
        /\ (default false (docsInConfigs w) = true ->
            cs = schemaPathComment options d ++ nl ++ nl
                 ++ documentationLinkComment (name options) ++ nl ++ defConf))
  /\ (succeeded (fst r) = false ->
      fst r = Throw YamlError
      /\ snd r = ensureSchema_world (name options) d (getSchemaDirPath options)
                                    (latestSchemaJson options) w).
Proof.
  intros r. subst r. unfold createDefault.
  erewrite run_bind by apply ensureSchema_run.
  fold (schemaPathComment options d).
  erewrite run_bind by reflexivity.
  rewrite ensureSchema_world_docs.
  set (w1 := ensureSchema_world _ _ _ _ w).
  destruct (default false (docsInConfigs w)) eqn:Hdocs.
  - erewrite run_bind by reflexivity.
    erewrite run_bind by apply saveConfig_run.
    simpl. split; [reflexivity|]. split; [|discriminate].
    intros cs p' [= <- <-]. split; [reflexivity|].
    split; [apply lookup_insert_eq | reflexivity].
  - match goal with
    | |- context [bind ?inner ?k w1] =>
        assert (Hinner : inner w1
                = (match parse defConf with
                   | Some parsed =>
                       match yamlDiffPatch
                               (schemaPathComment options d ++ nl
                                ++ match latestSchemaDescription options with
                                   | Some d0 => nl ++ nl ++ str "# " ++ d0
                                   | None => str ""
                                   end ++ nl ++ nl
                                ++ documentationLinkComment (name options)
                                ++ nl) emptyObject parsed with
                       | Some cs => Ok cs
                       | None => Throw YamlError
                       end
                   | None => Throw YamlError
                   end, w1))
    end.
    { destruct (parse defConf) as [parsed|]; [|reflexivity].
      erewrite run_bind by reflexivity.
      now destruct (yamlDiffPatch _ emptyObject parsed). }
    destruct (parse defConf) as [parsed|].
    2:{ erewrite run_bind_throw by exact Hinner.
        split; [reflexivity|]. split; [discriminate|]. now split. }
    destruct (yamlDiffPatch _ emptyObject parsed) as [cs0|].
    2:{ erewrite run_bind_throw by exact Hinner.
        split; [reflexivity|]. split; [discriminate|]. now split. }
    erewrite run_bind by exact Hinner.
    erewrite run_bind by apply saveConfig_run.
    simpl. split; [reflexivity|]. split; [|discriminate].
    intros cs p' [= <- <-]. split; [reflexivity|].
    split; [apply lookup_insert_eq | discriminate].
Qed.

(** X15. [createDefault] never calls the fatal reporter.  When it returns,
    the file at the path it was given holds [formatConfig] of the text it
    returns, and with [docsInConfigs] set this text is the schema comment, an
    empty line, the documentation link and the generated text.  When it
    does not return, it has saved no config: the only file it may have
    written is the schema file, with the serialized schema, and every
    other file is as it was. *)
Theorem createDefault_saves_formatted_default
    (options : InitConfigOptions) (p d defConf : jsstring) (w : World) :
  let r := createDefault options p d defConf w in
  is_fatal (fst r) = false
  /\ (forall cs p',
        fst r = Ok (cs, p') ->
        p' = p
        /\ files (snd r) !! p = Some (formatConfig cs)
        /\ (default false (docsInConfigs w) = true ->
            cs = schemaPathComment options d ++ nl ++ nl
                 ++ documentationLinkComment (name options) ++ nl ++ defConf))
  /\ (succeeded (fst r) = false ->
      let sp := schemaPath (name options) d (getSchemaDirPath options) in
      (forall q c,
          (q, c) ∈ writes (events_of (createDefault options p d defConf) w) ->
          q = sp /\ c = latestSchemaJson options ++ nl)
      /\ (forall q, q <> sp -> files (snd r) !! q = files w !! q)).
Proof.
  intros r. subst r.
  destruct (createDefault_outcomes options p d defConf w)
    as (Hfatal & Hret & Hfail).
  split; [exact Hfatal|]. split; [exact Hret|].
  intros Hno sp. destruct (Hfail Hno) as [_ Hw]. split.
  - intros q c.
    destruct (ensureSchema_world_trace (name options) d
                (getSchemaDirPath options) (latestSchemaJson options) w)
      as (evs & Ht & _ & Hwrites & _).
    erewrite events_of_delta by (rewrite Hw; exact Ht).
    destruct Hwrites as [->| ->].
    + intros Hin. now apply elem_of_nil in Hin.
    + intros Hin. apply list_elem_of_singleton in Hin.
      now injection Hin as -> ->.
  - intros q Hq. rewrite Hw.
    unfold ensureSchema_world. destruct (bool_decide _); simpl;
      [reflexivity|]. now apply lookup_insert_ne.
Qed.



End DefaultConfig.


(** ** The schema comment is stable *)

Section StableSchemaComment.

Lemma trimStart_app_nonws a d b :
  is_ws d = false -> trimStart (a ++ d :: b) = trimStart a ++ d :: b.
Proof.
  intros Hd. induction a as [|x a IH]; simpl.
  - now rewrite Hd.
  - destruct (is_ws x); [exact IH | reflexivity].
Qed.

Lemma trimEnd_app_ends_nonws c y :
  ends_nonws c -> trimEnd (c ++ y) = c ++ trimEnd y.
Proof.
  intros (z & d & -> & Hd). unfold trimEnd.
  rewrite !rev_app_distr. simpl rev. cbn [app].
  rewrite (trimStart_app_nonws _ _ _ Hd), rev_app_distr. simpl.
  now rewrite rev_involutive, <- app_assoc.
Qed.

Lemma trimStart_snoc_shape l x :
  trimStart (l ++ [x]) = [] \/ exists t, trimStart (l ++ [x]) = t ++ [x].
Proof.
  induction l as [|a l IH]; simpl.
  - destruct (is_ws x); [now left | right; now exists []].
  - destruct (is_ws a); [exact IH|]. right. now exists (a :: l).
Qed.

Lemma trimEnd_cons_shape x r :
  trimEnd (x :: r) = [] \/ exists t, trimEnd (x :: r) = x :: t.
Proof.
  unfold trimEnd. simpl rev.
  destruct (trimStart_snoc_shape (rev r) x) as [E|(t & E)]; rewrite E.
  - now left.
  - right. exists (rev t). now rewrite rev_app_distr.
Qed.

Lemma trimEnd_fixed_shape x : trimEnd x = x -> x = [] \/ ends_nonws x.
Proof.
  intros E. destruct x as [|a x] using rev_ind; [now left|]. right.
  destruct (is_ws a) eqn:Ha; [|now exists x, a].
  rewrite trimEnd_snoc_ws in E by assumption. exfalso.
  assert (Hlen : (length (trimEnd x) <= length x)%nat).
  { clear. unfold trimEnd. rewrite length_rev.
    rewrite <- (length_rev x). generalize (rev x). intros l.
    induction l as [|c l IH]; simpl; [lia|].
    destruct (is_ws c); simpl; lia. }
  rewrite E, length_app in Hlen. simpl in Hlen. lia.
Qed.

(** The first line of the trimmed text when the text starts with a line
    [c] that is trimmed itself. *)
Lemma first_line_of_trim c y :
  starts_nonws c -> ends_nonws c -> nlfree c ->
  y = [] \/ (exists y', y = NL :: y') ->
  exists rest, split_nl (trim (c ++ y)) = c :: rest.
Proof.
  intros Hs He Hfree Hy. unfold trim.
  rewrite trimStart_fixed.
  2:{ destruct Hs as (a & r & -> & Ha). now exists a, (r ++ y). }
  rewrite trimEnd_app_ends_nonws by assumption.
  destruct Hy as [->|(y' & ->)].
  - exists []. change (trimEnd []) with (@nil N).
    rewrite app_nil_r. now apply split_nl_single.
  - destruct (trimEnd_cons_shape NL y') as [E|(t & E)]; rewrite E.
    + exists []. rewrite app_nil_r. now apply split_nl_single.
    + exists (split_nl t). now apply split_nl_app_nlfree.
Qed.

Lemma join_nl_cons_app c X : exists tail,
  join_nl (c :: X) = c ++ tail /\ (tail = [] \/ exists t, tail = NL :: t).
Proof.
  destruct X as [|x X].
  - exists []. split; [now rewrite app_nil_r | now left].
  - exists (NL :: join_nl (x :: X)). split; [reflexivity|]. right. eauto.
Qed.

Lemma schemaPathCommentStart_shape :
  starts_nonws schemaPathCommentStart /\ ends_nonws schemaPathCommentStart
  /\ nlfree schemaPathCommentStart.
Proof.
  split; [|split].
  - eexists _, _. split; reflexivity.
  - exists (removelast schemaPathCommentStart), 61. split; reflexivity.
  - unfold nlfree. apply Forall_forall. intros c Hc.
    vm_compute in Hc. intros ->.
    repeat (apply elem_of_cons in Hc as [Hc|Hc]; [discriminate|]).
    now apply elem_of_nil in Hc.
Qed.

Lemma schema_comment_shape rel :
  nlfree rel -> trimEnd rel = rel ->
  starts_nonws (schemaPathCommentStart ++ rel)
  /\ ends_nonws (schemaPathCommentStart ++ rel)
  /\ nlfree (schemaPathCommentStart ++ rel).
Proof.
  intros Hfree Hend.
  destruct schemaPathCommentStart_shape as ((a & r & Ea & Ha) & He & Hn).
  split; [|split].
  - exists a, (r ++ rel). now rewrite Ea.
  - destruct (trimEnd_fixed_shape rel Hend) as [->|(z & d & -> & Hd)].
    + now rewrite app_nil_r.
    + exists (schemaPathCommentStart ++ z), d. now rewrite app_assoc.
  - apply Forall_app. now split.
Qed.

(** X17. The text saved after the schema comment was put in place is a
    fixed point: computing the text with the schema comment from the saved
    file gives the saved file again, so a second load of the file rewrites
    nothing.  (The schema path has no newline and no white space at its
    end.) *)
Theorem schema_comment_sync_is_stable (rel fileContent : jsstring) :
  nlfree rel ->
  trimEnd rel = rel ->
  let comment := schemaPathCommentStart ++ rel in
  let saved := formatConfig (withSchemaComment comment fileContent) in
  withSchemaComment comment saved = saved.
Proof.
  intros Hfree Hend comment saved.
  destruct (schema_comment_shape rel Hfree Hend) as (Hs & He & Hn).
  fold comment in Hs, He, Hn.
  set (cs := withSchemaComment comment fileContent) in *.
  (* the trimmed text starts with the comment line *)
  assert (Hfirst : exists rest, split_nl (trim cs) = comment :: rest).
  { subst cs. unfold withSchemaComment.
    destruct (startsWith fileContent schemaPathCommentStart).
    - rewrite (trim_snoc_nl _ (trim_trim _)).
      destruct (join_nl_cons_app comment (drop 1 (split_nl fileContent)))
        as (tail & -> & Htail).
      now apply first_line_of_trim.
    - apply first_line_of_trim; try assumption.
      right. now exists (trim fileContent ++ nl). }
  destruct Hfirst as (rest0 & Hfirst).
  assert (Hne : trim cs <> []).
  { intros E. rewrite E in Hfirst. simpl in Hfirst.
    injection Hfirst as Hc _. destruct Hs as (a & r & Ea & _).
    rewrite Ea in Hc. discriminate. }
  destruct (formatConfig_nonblank cs Hne)
    as (L1 & rest & Hsplit & Hb & HF & Hstart & Hendb).
  rewrite Hfirst in Hsplit. injection Hsplit as <- <-.
  set (X := formatLines (Some comment) rest0) in *.
  assert (Hrest : Forall nlfree rest0).
  { pose proof (split_nl_nlfree (trim cs)) as Hall.
    rewrite Hfirst in Hall. now apply Forall_cons in Hall as [_ Hall]. }
  assert (HsplitB : split_nl (join_nl (comment :: X)) = comment :: X).
  { apply split_join; [discriminate|]. constructor; [assumption|].
    apply formatLines_Forall; [constructor | assumption]. }
  assert (Hsaved : saved = join_nl (comment :: X) ++ nl) by exact HF.
  assert (Hstarts : startsWith saved schemaPathCommentStart = true).
  { rewrite Hsaved.
    destruct (join_nl_cons_app comment X) as (tail & -> & _).
    unfold comment. rewrite <- !app_assoc. apply startsWith_app. }
  unfold withSchemaComment. rewrite Hstarts.
  assert (Hlines : comment :: drop 1 (split_nl saved) = split_nl saved).
  { rewrite Hsaved, split_nl_snoc_NL, HsplitB. reflexivity. }
  rewrite Hlines, join_split, Hsaved.
  rewrite trim_snoc_nl by now apply trim_fixed.
  reflexivity.
Qed.

End StableSchemaComment.

Lemma schema_comment_sync_is_stable_witness :
  let comment := schemaPathCommentStart ++ str "schemas/config.json" in
  let saved :=
    formatConfig (withSchemaComment comment
                    (str "version: 3" ++ nl ++ str "a: 1" ++ nl)) in
  withSchemaComment comment saved = saved.
Proof.
  apply (schema_comment_sync_is_stable (str "schemas/config.json")
           (str "version: 3" ++ nl ++ str "a: 1" ++ nl)).
  - unfold nlfree. apply Forall_forall. intros c Hc.
    vm_compute in Hc. intros ->.
    repeat (apply elem_of_cons in Hc as [Hc|Hc]; [discriminate|]).
    now apply elem_of_nil in Hc.
  - reflexivity.
Defined.

(** ** The mutable handle: allocation, cache and commit *)

Section MutableHandles.
Context `{Externals}.

Lemma getReadonlyConfigInitFunction_found_path options g content w ro :
  files w !! requestedPath options = Some content ->
  fst (getReadonlyConfigInitFunction options g w) = Ok (Some ro) ->
  ro_getPath ro = requestedPath options.
Proof.
  intros Hsome Hok.
  pose proof (getReadonlyConfigInitFunction_found options g content w Hsome)
    as Hrun.
  match type of Hrun with
  | _ = ?m ?w2 =>
      destruct (only_build_after_read options (requestedPath options)
                  (withSchemaComment
                     (schemaPathComment options (requestedDir options))
                     content) w2) as [_ Hpost]
  end.
  rewrite <- Hrun in Hpost. exact (Hpost (Some ro) Hok ro eq_refl).
Qed.

(** X18. When the requested file exists, two calls in a row of the function
    returned by [getConfigInitFunction] return the same reference, and the
    second call reads, writes and allocates nothing. *)
Theorem cache_identity_for_existing_file
    (options : InitConfigOptions) (getDefaultConfig : option jsstring)
    (content : jsstring) (w : World) (l : nat) :
  initializedConfigs w !! requestedPath options = None ->
  files w !! requestedPath options = Some content ->
  fst (getConfigInitFunction options getDefaultConfig w) = Ok (Some l) ->
  let w1 := snd (getConfigInitFunction options getDefaultConfig w) in
  getConfigInitFunction options getDefaultConfig w1 = (Ok (Some l), w1).
Proof.
  intros Hmiss Hsome Hl w1. subst w1.
  apply getConfigInitFunction_hit.
  rewrite (getConfigInitFunction_miss _ _ _ Hmiss) in *.
  pose proof (getReadonlyConfigInitFunction_found_path options
                getDefaultConfig content w) as Hpath.
  destruct (getReadonlyConfigInitFunction options getDefaultConfig w)
    as [[[ro|]|r|e] w0]; try discriminate.
  simpl in *. injection Hl as <-.
  rewrite (Hpath ro Hsome eq_refl). apply lookup_insert_eq.
Qed.

(** X19. When the function returned by [getConfigInitFunction] does not
    return an object ([null], a fatal report or an exception), it leaves the
    handle objects and the instance cache as they were: a failure or a
    missing file is not cached. *)
Theorem init_without_object_keeps_cache
    (options : InitConfigOptions) (getDefaultConfig : option jsstring)
    (w : World) :
  let r := getConfigInitFunction options getDefaultConfig w in
  returned_object (fst r) = false ->
  heap (snd r) = heap w
  /\ initializedConfigs (snd r) = initializedConfigs w.
Proof.
  intros r Hno. subst r.
  destruct (initializedConfigs w !! requestedPath options) as [l|] eqn:E.
  - rewrite (getConfigInitFunction_hit _ _ _ _ E) in *. discriminate.
  - rewrite (getConfigInitFunction_miss _ _ _ E) in *.
    pose proof (kh_getReadonlyConfigInitFunction options getDefaultConfig w)
      as Hkeep.
    destruct (getReadonlyConfigInitFunction options getDefaultConfig w)
      as [[[ro|]|r|e] w0]; try discriminate; exact Hkeep.
Qed.

(** X20. On a cache miss that ends with an object, the reference returned
    is new, the other handle objects are unchanged, the cache gains exactly
    the entry from the handle's path to the reference, and the new handle
    holds data that pass its own validator and a text that parses to these
    data. *)
Theorem new_handle_is_fresh_and_valid
    (options : InitConfigOptions) (getDefaultConfig : option jsstring)
    (w : World) (l : nat) :
  initializedConfigs w !! requestedPath options = None ->
  fst (getConfigInitFunction options getDefaultConfig w) = Ok (Some l) ->
  let w1 := snd (getConfigInitFunction options getDefaultConfig w) in
  heap w !! l = None
  /\ (forall l', l' <> l -> heap w1 !! l' = heap w !! l')
  /\ exists this,
       heap w1 !! l = Some this
       /\ initializedConfigs w1
          = <[h_configPath this := l]> (initializedConfigs w)
       /\ h_validateLatest this = validateLatestConfig options
       /\ h_validateLatest this (h_data this) = true
       /\ parse (h_configString this) = Some (h_data this).
Proof.
  intros Hmiss Hl w1. subst w1.
  rewrite (getConfigInitFunction_miss _ _ _ Hmiss) in *.
  pose proof (kh_getReadonlyConfigInitFunction options getDefaultConfig w)
    as [Hheap Hcache].
  pose proof (getReadonlyConfigInitFunction_valid options getDefaultConfig w)
    as Hvalid.
  destruct (getReadonlyConfigInitFunction options getDefaultConfig w)
    as [[[ro|]|r|e] w0]; try discriminate.
  simpl in *. injection Hl as <-.
  destruct (Hvalid ro eq_refl) as (Hv & _ & Hp & Hvl).
  split; [|split].
  - rewrite <- Hheap. apply not_elem_of_dom, is_fresh.
  - intros l' Hne. rewrite lookup_insert_ne by congruence. now rewrite Hheap.
  - eexists. split; [apply lookup_insert_eq|]. simpl.
    split; [now rewrite Hcache|]. split; [assumption|].
    split; [now rewrite Hvl | assumption].
Qed.

(** Everything [$commit] can do on an existing handle. *)
Lemma commit_run handle this w :
  heap w !! handle = Some this ->
  commit handle w
  = match parse (h_configString this) with
    | None => (Throw YamlError, w)
    | Some parsed =>
        match yamlDiffPatch (h_configString this) parsed (h_data this) with
        | None => (Throw YamlError, w)
        | Some patched =>
            let new := trim patched ++ nl in
            if negb (h_validateLatest this (h_data this))
            then (Throw (CouldntSaveConfig (h_configPath this) new), w)
            else if bool_decide (h_configString this = new) then (Ok tt, w)
            else (Ok tt,
                  mkWorld (<[h_configPath this := formatConfig new]> (files w))
                          (<[handle := mkHandle (h_data this)
                                                (h_configPath this)
                                                (formatConfig new)
                                                (h_validateLatest this)]>
                             (heap w))
                          (initializedConfigs w) (docsInConfigs w)
                          (trace w ++ [EvWriteFile (h_configPath this)
                                                   (formatConfig new)]))
        end
    end.
Proof.
  intros Hh. unfold commit.
  erewrite run_bind by (unfold deref; rewrite Hh; reflexivity).
  destruct (parse (h_configString this)) as [parsed|]; [|reflexivity].
  erewrite run_bind by reflexivity.
  destruct (yamlDiffPatch _ parsed _) as [patched|]; [|reflexivity].
  erewrite run_bind by reflexivity. cbv zeta.
  destruct (negb (h_validateLatest this (h_data this))); [reflexivity|].
  unfold jsstring_eqb. case_bool_decide; reflexivity.
Qed.

(** X21. A [$commit] of valid data whose new text differs from the text
    kept by the handle returns normally, writes [formatConfig] of the new
    text to the handle's path and keeps that formatted text in the handle:
    afterwards [$getConfigString] and the file agree, and the data, the
    path and the validator of the handle are unchanged. *)
Theorem commit_saves_and_remembers
    (handle : nat) (this : Handle) (parsed : Config) (patched : jsstring)
    (w : World) :
  heap w !! handle = Some this ->
  parse (h_configString this) = Some parsed ->
  yamlDiffPatch (h_configString this) parsed (h_data this) = Some patched ->
  h_validateLatest this (h_data this) = true ->
  trim patched ++ nl <> h_configString this ->
  let w' := snd (commit handle w) in
  let saved := formatConfig (trim patched ++ nl) in
  fst (commit handle w) = Ok tt
  /\ fst (readFile (h_configPath this) w') = Ok saved
  /\ fst (getConfigString handle w') = Ok saved
  /\ heap w' !! handle
     = Some (mkHandle (h_data this) (h_configPath this) saved
                      (h_validateLatest this))
  /\ writes (events_of (commit handle) w) = [(h_configPath this, saved)].
Proof.
  intros Hh Hp Hd Hv Hne w' saved. subst w'.
  rewrite (commit_run handle this w Hh), Hp, Hd, Hv. cbv zeta. cbn [negb].
  rewrite bool_decide_eq_false_2 by congruence.
  simpl fst. simpl snd. split; [reflexivity|]. split; [|split; [|split]].
  - rewrite readFile_run. simpl. now rewrite lookup_insert_eq.
  - unfold getConfigString, bind, deref. simpl.
    now rewrite lookup_insert_eq.
  - apply lookup_insert_eq.
  - erewrite events_of_delta.
    2:{ rewrite (commit_run handle this w Hh), Hp, Hd, Hv. cbv zeta.
        cbn [negb]. rewrite bool_decide_eq_false_2 by congruence.
        reflexivity. }
    reflexivity.
Qed.

(** X22. [$commit] never calls the fatal reporter and never touches the
    instance cache or another handle; of the handle it is called on it can
    change only the text kept, and the only file it can change is the one
    at the handle's path. *)
Theorem commit_frame (handle : nat) (w : World) :
  let w' := snd (commit handle w) in
  is_fatal (fst (commit handle w)) = false
  /\ initializedConfigs w' = initializedConfigs w
  /\ (forall l', l' <> handle -> heap w' !! l' = heap w !! l')
  /\ (forall this,
        heap w !! handle = Some this ->
        (exists text,
            heap w' !! handle
            = Some (mkHandle (h_data this) (h_configPath this) text
                             (h_validateLatest this)))
        /\ (forall q, q <> h_configPath this ->
                      files w' !! q = files w !! q)).
Proof.
  intros w'. subst w'.
  destruct (heap w !! handle) as [this|] eqn:Hh.
  - rewrite (commit_run handle this w Hh).
    assert (Hsame : exists text,
               heap w !! handle
               = Some (mkHandle (h_data this) (h_configPath this) text
                                (h_validateLatest this))).
    { exists (h_configString this). rewrite Hh. now destruct this. }
    assert (Hstay : forall r : Result unit,
               is_fatal r = false ->
               is_fatal (fst (r, w)) = false
               /\ initializedConfigs (snd (r, w)) = initializedConfigs w
               /\ (forall l', l' <> handle ->
                              heap (snd (r, w)) !! l' = heap w !! l')
               /\ (forall this0,
                      Some this = Some this0 ->
                      (exists text,
                          heap (snd (r, w)) !! handle
                          = Some (mkHandle (h_data this0) (h_configPath this0)
                                           text (h_validateLatest this0)))
                      /\ (forall q, q <> h_configPath this0 ->
                                    files (snd (r, w)) !! q = files w !! q))).
    { intros r Hr. simpl.
      split; [exact Hr|]. split; [reflexivity|]. split; [reflexivity|].
      intros this0 [= <-]. split; [exact Hsame | reflexivity]. }
    destruct (parse (h_configString this)) as [parsed|];
      [|now apply Hstay].
    destruct (yamlDiffPatch _ parsed _) as [patched|];
      [|now apply Hstay].
    cbv zeta. destruct (negb _); [now apply Hstay|].
    case_bool_decide; [now apply Hstay|].
    simpl. split; [reflexivity|]. split; [reflexivity|]. split.
    + intros l' Hne. now rewrite lookup_insert_ne by congruence.
    + intros ? [= <-]. split.
      * eexists. apply lookup_insert_eq.
      * intros q Hq. now rewrite lookup_insert_ne by congruence.
  - unfold commit, bind, deref. rewrite Hh. simpl.
    repeat split; try reflexivity; discriminate.
Qed.

End MutableHandles.

Lemma cache_identity_for_existing_file_witness :
  let options := Demo.demo_options Demo.demo_migrations 3 in
  let w := Demo.world_with (str "dir/config.yaml") (str "version: 3" ++ nl) in
  let w1 := snd (getConfigInitFunction options None w) in
  getConfigInitFunction options None w1 = (Ok (Some 0%nat), w1).
Proof.
  apply (cache_identity_for_existing_file (H := Demo.demo)
           (Demo.demo_options Demo.demo_migrations 3) None
           (str "version: 3" ++ nl)
           (Demo.world_with (str "dir/config.yaml") (str "version: 3" ++ nl))
           0%nat); reflexivity.
Defined.

Lemma init_without_object_keeps_cache_witness :
  let options := Demo.demo_options Demo.demo_migrations 3 in
  let r := getConfigInitFunction options None Demo.empty_world in
  heap (snd r) = heap Demo.empty_world
  /\ initializedConfigs (snd r) = initializedConfigs Demo.empty_world.
Proof.
  apply (init_without_object_keeps_cache (H := Demo.demo)
           (Demo.demo_options Demo.demo_migrations 3) None Demo.empty_world).
  reflexivity.
Defined.

Lemma new_handle_is_fresh_and_valid_witness :
  let options := Demo.demo_options Demo.demo_migrations 3 in
  let w := Demo.world_with (str "dir/config.yaml") (str "version: 3" ++ nl) in
  let w1 := snd (getConfigInitFunction options None w) in
  heap w !! 0%nat = None
  /\ (forall l', l' <> 0%nat -> heap w1 !! l' = heap w !! l')
  /\ exists this,
       heap w1 !! 0%nat = Some this
       /\ initializedConfigs w1
          = <[h_configPath this := 0%nat]> (initializedConfigs w)
       /\ h_validateLatest this = validateLatestConfig options
       /\ h_validateLatest this (h_data this) = true
       /\ parse (h_configString this) = Some (h_data this).
Proof.
  apply (new_handle_is_fresh_and_valid (H := Demo.demo)
           (Demo.demo_options Demo.demo_migrations 3) None
           (Demo.world_with (str "dir/config.yaml") (str "version: 3" ++ nl))
           0%nat); reflexivity.
Defined.

Lemma commit_saves_and_remembers_witness :
  let this :=
    mkHandle (H := Demo.demo) [(str "version", str "3"); (str "a", str "1")]
             (str "dir/config.yaml") (str "version: 3" ++ nl)
             (Demo.latest_is 3) in
  let w := Demo.world_with_handle (str "dir/config.yaml")
             (str "version: 3" ++ nl)
             [(str "version", str "3"); (str "a", str "1")] 3 in
  let w' := snd (commit 0 w) in
  let saved :=
    formatConfig (trim (str "version: 3" ++ nl ++ str "a: 1" ++ nl) ++ nl) in
  fst (commit 0 w) = Ok tt
  /\ fst (readFile (h_configPath this) w') = Ok saved
  /\ fst (getConfigString 0 w') = Ok saved
  /\ heap w' !! 0%nat
     = Some (mkHandle (h_data this) (h_configPath this) saved
                      (h_validateLatest this))
  /\ writes (events_of (commit 0) w) = [(h_configPath this, saved)].
Proof.
  apply (commit_saves_and_remembers (H := Demo.demo) 0
           (mkHandle (H := Demo.demo)
                     [(str "version", str "3"); (str "a", str "1")]
                     (str "dir/config.yaml") (str "version: 3" ++ nl)
                     (Demo.latest_is 3))
           [(str "version", str "3")]
           (str "version: 3" ++ nl ++ str "a: 1" ++ nl)).
  - reflexivity.
  - reflexivity.
  - reflexivity.
  - reflexivity.
  - vm_compute. discriminate.
Defined.

(** * Rust toolchain set-up *)

(** Two of the commands of the module differ. *)
Ltac rust_neq :=
  let Hc := fresh "Hc" in
  intros Hc;
  first [ apply (f_equal Rust.command) in Hc; vm_compute in Hc; discriminate
        | apply (f_equal Rust.args) in Hc; vm_compute in Hc; discriminate ].

(** A command is none of the commands of a short list. *)
Ltac rust_notin :=
  simpl;
  let Hc := fresh "Hc" in
  intros Hc;
  repeat (destruct Hc as [Hc|Hc]; [revert Hc; rust_neq|]);
  destruct Hc.

(** Every command of a short list of runs is one of the commands given. *)
Ltac rust_cmds :=
  repeat (apply List.Forall_cons; [simpl; tauto|]); apply List.Forall_nil.

Section RustRuns.
Import Rust.
Local Open Scope rust_scope.
Context `{Shell}.

Lemma rust_bind_returned {A B} (m : M A) (k : A -> M B) e a e1 t1 :
  m e = (Returned a, e1, t1) ->
  bind m k e = (outcome (k a e1), final (k a e1), t1 ++ executed (k a e1)).
Proof.
  intros Hm. unfold bind. rewrite Hm.
  now destruct (k a e1) as [[r e2] t2].
Qed.

Lemma rust_bind_stopped {A B} (m : M A) (k : A -> M B) e :
  (forall a, outcome (m e) <> Returned a) ->
  outcome (bind m k e)
  = match outcome (m e) with
    | Returned _ => Rejected
    | Errored x => Errored x
    | Rejected => Rejected
    end
  /\ final (bind m k e) = final (m e)
  /\ executed (bind m k e) = executed (m e).
Proof.
  intros Hm. unfold bind.
  destruct (m e) as [[[a|x|] e1] t1]; simpl in *; auto.
  now destruct (Hm a).
Qed.

Lemma rust_seq_cases {A B} (m : M A) (k : M B) e :
  (is_returned (outcome (m e)) = true
   /\ executed ((m ;; k) e) = executed (m e) ++ executed (k (final (m e)))
   /\ outcome ((m ;; k) e) = outcome (k (final (m e))))
  \/ (is_returned (outcome (m e)) = false
      /\ executed ((m ;; k) e) = executed (m e)
      /\ is_returned (outcome ((m ;; k) e)) = false).
Proof.
  unfold bind. destruct (m e) as [[[a|x|] e1] t1]; simpl.
  - left. unfold final. simpl. now destruct (k e1) as [[r e2] t2].
  - right. now repeat split.
  - right. now repeat split.
Qed.

Lemma exec_run (c : Command) e :
  exec c e
  = match execPromise c e with
    | (Some output, e1) => (Returned output, e1, [(c, Some output)])
    | (None, e1) => (Rejected, e1, [(c, None)])
    end.
Proof. reflexivity. Qed.

(** Everything [isRustInstalled] can do. *)
Lemma isRustInstalled_run e :
  isRustInstalled e
  = match execPromise cargoVersion e with
    | (None, e1) => (Returned false, e1, [(cargoVersion, None)])
    | (Some o1, e1) =>
        match execPromise rustupVersion e1 with
        | (None, e2) =>
            (Returned false, e2,
             [(cargoVersion, Some o1); (rustupVersion, None)])
        | (Some o2, e2) =>
            (Returned true, e2,
             [(cargoVersion, Some o1); (rustupVersion, Some o2)])
        end
    end.
Proof.
  unfold isRustInstalled, try_catch, bind, exec, ret.
  destruct (execPromise cargoVersion e) as [[o1|] e1]; [|reflexivity].
  destruct (execPromise rustupVersion e1) as [[o2|] e2]; reflexivity.
Qed.

(** Everything [hasRequiredRustToolchain] can do. *)
Lemma hasRequiredRustToolchain_run e :
  hasRequiredRustToolchain e
  = match execPromise toolchainList e with
    | (None, e1) => (Rejected, e1, [(toolchainList, None)])
    | (Some o, e1) =>
        if includes o REQUIRED_RUST_TOOLCHAIN
        then match regExpRecommendedToolchain o e1 with
             | (true, e2) => (Returned true, e2, [(toolchainList, Some o)])
             | (false, e2) =>
                 match execPromise overrideSet e2 with
                 | (Some o', e3) =>
                     (Returned true, e3,
                      [(toolchainList, Some o); (overrideSet, Some o')])
                 | (None, e3) =>
                     (Rejected, e3,
                      [(toolchainList, Some o); (overrideSet, None)])
                 end
             end
        else (Returned false, e1, [(toolchainList, Some o)])
    end.
Proof.
  unfold hasRequiredRustToolchain, bind, exec, ret,
    regExpRecommendedToolchain_test.
  destruct (execPromise toolchainList e) as [[o|] e1]; [|reflexivity].
  destruct (includes o REQUIRED_RUST_TOOLCHAIN); [|reflexivity].
  destruct (regExpRecommendedToolchain o e1) as [[|] e2]; [reflexivity|].
  simpl. destruct (execPromise overrideSet e2) as [[o'|] e3]; reflexivity.
Qed.

(** Everything [hasRequiredRustTarget] can do. *)
Lemma hasRequiredRustTarget_run e :
  hasRequiredRustTarget e
  = match execPromise targetList e with
    | (None, e1) => (Rejected, e1, [(targetList, None)])
    | (Some o, e1) =>
        (Returned (includes o (RUST_WASM32_WASI_TARGET ++ str " (installed)")),
         e1, [(targetList, Some o)])
    end.
Proof.
  unfold hasRequiredRustTarget, bind, exec, ret.
  destruct (execPromise targetList e) as [[o|] e1]; reflexivity.
Qed.

End RustRuns.

Section RustSteps.
Import Rust.
Local Open Scope rust_scope.
Context `{Shell}.

Lemma last_output_app_l (t t' : list Executed) c P :
  last_output t' c P -> last_output (t ++ t') c P.
Proof.
  intros (before & output & after & -> & HP & Hafter).
  exists (t ++ before), output, after. now rewrite <- app_assoc.
Qed.

Lemma last_output_app_r (t t' : list Executed) c P :
  last_output t c P -> Forall (fun x => fst x <> c) t' ->
  last_output (t ++ t') c P.
Proof.
  intros (before & output & after & -> & HP & Hafter) Ht'.
  exists before, output, (after ++ t'). rewrite <- app_assoc. simpl.
  split; [reflexivity|]. split; [assumption|].
  apply Forall_app. now split.
Qed.

Lemma ran_app (t t' : list Executed) c : ran (t ++ t') c <-> ran t c \/ ran t' c.
Proof.
  unfold ran. split.
  - intros (r & Hin). apply in_app_or in Hin as [Hin|Hin]; eauto.
  - intros [(r & Hin)|(r & Hin)]; exists r; apply in_or_app; auto.
Qed.

Lemma not_ran (t : list Executed) c (cs : list Command) :
  Forall (fun x => In (fst x) cs) t -> ~ In c cs -> ~ ran t c.
Proof.
  intros Hall Hc (r & Hin). rewrite List.Forall_forall in Hall.
  apply Hc. exact (Hall _ Hin).
Qed.

Lemma not_run_after (t : list Executed) c (cs : list Command) :
  Forall (fun x => In (fst x) cs) t -> ~ In c cs ->
  Forall (fun x => fst x <> c) t.
Proof.
  intros Hall Hc. eapply Forall_impl; [exact Hall|].
  simpl. intros x Hx Heq. apply Hc. now rewrite <- Heq.
Qed.

(** The shape of a run of a check followed, when the check fails, by an
    installation and the same check. *)
Lemma checkInstallCheck_cases (check : M bool) install message e :
  let r := checkInstallCheck check install message e in
  (outcome (check e) <> Returned false
   /\ executed r = executed (check e)
   /\ outcome r = match outcome (check e) with
                  | Returned _ => Returned tt
                  | Errored x => Errored x
                  | Rejected => Rejected
                  end)
  \/ (outcome (check e) = Returned false
      /\ executed r = executed (check e) ++ [(install, None)]
      /\ outcome r = Rejected)
  \/ (outcome (check e) = Returned false
      /\ exists output e',
          executed r
          = executed (check e) ++ (install, Some output) :: executed (check e')
          /\ outcome r = match outcome (check e') with
                         | Returned true => Returned tt
                         | Returned false => Errored message
                         | Errored x => Errored x
                         | Rejected => Rejected
                         end).
Proof.
  unfold checkInstallCheck, bind, exec.
  destruct (check e) as [[[[|]|x|] e1] t1]; simpl.
  - left. rewrite app_nil_r. split; [discriminate|]. now split.
  - right. destruct (execPromise install e1) as [[output|] e2]; simpl.
    + right. split; [reflexivity|]. exists output, e2.
      destruct (check e2) as [[[[|]|x|] e3] t3]; simpl;
        rewrite ?app_nil_r; now split.
    + left. now split.
  - left. split; [discriminate|]. now split.
  - left. split; [discriminate|]. now split.
Qed.

Lemma ensureInstalled_not_windows e :
  windows = false ->
  ensureInstalled e
  = checkInstallCheck isRustInstalled installRust RustNotInPath e.
Proof.
  intros Hw. unfold ensureInstalled, checkInstallCheck. rewrite Hw.
  unfold bind, ret, exec.
  destruct (isRustInstalled e) as [[[[|]|x|] e1] t1]; try reflexivity.
  simpl.
  destruct (execPromise installRust e1) as [[output|] e2]; [|reflexivity].
  now destruct (isRustInstalled e2) as [[[[|]|x|] e3] t3].
Qed.

Lemma ensureInstalled_windows e :
  windows = true ->
  ensureInstalled e
  = (if outcome (isRustInstalled e) is Returned true then Returned tt
     else Errored RustNeedsToBeInstalled,
     final (isRustInstalled e), executed (isRustInstalled e)).
Proof.
  intros Hw. unfold ensureInstalled. rewrite Hw. unfold bind at 1.
  pose proof (isRustInstalled_run e) as Hrun.
  destruct (isRustInstalled e) as [[[[|]|x|] e1] t1]; simpl.
  - now rewrite app_nil_r.
  - now rewrite app_nil_r.
  - destruct (execPromise cargoVersion e) as [[o1|] e1'];
      [destruct (execPromise rustupVersion e1') as [[o2|] e2]|];
      discriminate.
  - destruct (execPromise cargoVersion e) as [[o1|] e1'];
      [destruct (execPromise rustupVersion e1') as [[o2|] e2]|];
      discriminate.
Qed.

End RustSteps.

Section RustChecks.
Import Rust.
Local Open Scope rust_scope.
Context `{Shell}.

Lemma isRustInstalled_spec e :
  let t := executed (isRustInstalled e) in
  exists b,
    outcome (isRustInstalled e) = Returned b
    /\ Forall (fun x => In (fst x) [cargoVersion; rustupVersion]) t
    /\ (b = true ->
        last_output t cargoVersion (fun _ => true)
        /\ last_output t rustupVersion (fun _ => true))
    /\ (b = false ->
        In (cargoVersion, None) t \/ In (rustupVersion, None) t).
Proof.
  rewrite isRustInstalled_run.
  destruct (execPromise cargoVersion e) as [[o1|] e1];
    [destruct (execPromise rustupVersion e1) as [[o2|] e2]|]; simpl.
  - exists true. split; [reflexivity|]. split.
    { rust_cmds. }
    split; [|discriminate]. intros _. split.
    + exists [], o1, [(rustupVersion, Some o2)].
      repeat split. repeat constructor. simpl. rust_neq.
    + exists [(cargoVersion, Some o1)], o2, []. now repeat split.
  - exists false. split; [reflexivity|]. split.
    { rust_cmds. }
    split; [discriminate|]. intros _. right. simpl. auto.
  - exists false. split; [reflexivity|]. split.
    { rust_cmds. }
    split; [discriminate|]. intros _. left. simpl. auto.
Qed.

Lemma hasRequiredRustToolchain_spec e :
  let r := hasRequiredRustToolchain e in
  let t := executed r in
  Forall (fun x => In (fst x) [toolchainList; overrideSet]) t
  /\ (forall b, outcome r = Returned b ->
        exists o after,
          t = (toolchainList, Some o) :: after
          /\ includes o REQUIRED_RUST_TOOLCHAIN = b
          /\ Forall (fun x => fst x = overrideSet) after)
  /\ (forall x, outcome r <> Errored x)
  /\ (ran t overrideSet ->
      exists o, In (toolchainList, Some o) t
                /\ includes o REQUIRED_RUST_TOOLCHAIN = true).
Proof.
  rewrite hasRequiredRustToolchain_run.
  destruct (execPromise toolchainList e) as [[o|] e1]; simpl.
  2:{ split; [rust_cmds|].
      split; [discriminate|]. split; [discriminate|].
      intros (r & [Hin|[]]). exfalso. apply (f_equal fst) in Hin.
      revert Hin. rust_neq. }
  destruct (includes o REQUIRED_RUST_TOOLCHAIN) eqn:Hinc.
  2:{ split; [rust_cmds|].
      split.
      { intros b [= <-]. exists o, []. now repeat split. }
      split; [discriminate|].
      intros (r & [Hin|[]]). exfalso. apply (f_equal fst) in Hin.
      revert Hin. rust_neq. }
  destruct (regExpRecommendedToolchain o e1) as [[|] e2]; simpl.
  { split; [rust_cmds|].
    split.
    { intros b [= <-]. exists o, []. now repeat split. }
    split; [discriminate|].
    intros _. exists o. simpl. auto. }
  destruct (execPromise overrideSet e2) as [[o'|] e3]; simpl.
  - split; [rust_cmds|].
    split.
    { intros b [= <-]. exists o, [(overrideSet, Some o')].
      split; [reflexivity|]. split; [assumption|]. now repeat constructor. }
    split; [discriminate|].
    intros _. exists o. simpl. auto.
  - split; [rust_cmds|].
    split; [discriminate|]. split; [discriminate|].
    intros _. exists o. simpl. auto.
Qed.

Lemma hasRequiredRustTarget_spec e :
  let r := hasRequiredRustTarget e in
  let t := executed r in
  Forall (fun x => In (fst x) [targetList]) t
  /\ (forall b, outcome r = Returned b ->
        exists o,
          t = [(targetList, Some o)]
          /\ includes o (RUST_WASM32_WASI_TARGET ++ str " (installed)") = b)
  /\ (forall x, outcome r <> Errored x).
Proof.
  rewrite hasRequiredRustTarget_run.
  destruct (execPromise targetList e) as [[o|] e1]; simpl.
  - split; [rust_cmds|].
    split; [|discriminate]. intros b [= <-]. now exists o.
  - split; [rust_cmds|].
    split; discriminate.
Qed.

End RustChecks.

Section RustCheckInstallCheck.
Import Rust.
Local Open Scope rust_scope.
Context `{Shell}.
Variables (check : M bool) (install : Command) (message : ErrorMessage).

Section Invariant.
Variable Inv : list Executed -> Prop.
Hypothesis Hcheck : forall e, Inv (executed (check e)).
Hypothesis Hinstall : forall result, Inv [(install, result)].
Hypothesis Happ : forall t t', Inv t -> Inv t' -> Inv (t ++ t').

Lemma checkInstallCheck_inv e :
  Inv (executed (checkInstallCheck check install message e)).
Proof using Hcheck Hinstall Happ.
  destruct (checkInstallCheck_cases check install message e)
    as [(_ & -> & _)|[(_ & -> & _)|(_ & output & e' & -> & _)]].
  - apply Hcheck.
  - apply Happ; [apply Hcheck | apply Hinstall].
  - apply Happ; [apply Hcheck|].
    apply (Happ [_]); [apply Hinstall | apply Hcheck].
Qed.

End Invariant.

Section GoodBad.
Variables Good Bad : list Executed -> Prop.
Hypothesis Hgood :
  forall e, outcome (check e) = Returned true -> Good (executed (check e)).
Hypothesis Hbad :
  forall e, outcome (check e) = Returned false -> Bad (executed (check e)).
Hypothesis Hnot : forall e, ~ ran (executed (check e)) install.
Hypothesis Good_app : forall t t', Good t' -> Good (t ++ t').
Hypothesis Bad_app : forall t t', Bad t -> Bad (t ++ t').

Lemma checkInstallCheck_spec e :
  let r := checkInstallCheck check install message e in
  (outcome r = Returned tt -> Good (executed r))
  /\ (ran (executed r) install -> Bad (executed r)).
Proof using Hgood Hbad Hnot Good_app Bad_app.
  destruct (checkInstallCheck_cases check install message e)
    as [(Hne & Ht & Hr)|[(Hfalse & Ht & Hr)|(Hfalse & output & e' & Ht & Hr)]];
    cbv zeta; rewrite Ht, Hr.
  - split.
    + intros Hok. apply Hgood.
      destruct (outcome (check e)) as [[|]|x|]; congruence.
    + intros Hran. now destruct (Hnot e).
  - split; [discriminate|]. intros _. apply Bad_app. now apply Hbad.
  - split.
    + intros Hok. apply Good_app. apply (Good_app [_]). apply Hgood.
      destruct (outcome (check e')) as [[|]|x|]; congruence.
    + intros _. apply Bad_app. now apply Hbad.
Qed.

End GoodBad.

End RustCheckInstallCheck.

Section RustStepSpecs.
Import Rust.
Local Open Scope rust_scope.
Context `{Shell}.

Lemma ensureInstalled_spec e :
  installed_step (is_returned (outcome (ensureInstalled e)))
                 (executed (ensureInstalled e)).
Proof.
  unfold installed_step.
  destruct windows eqn:Hw.
  - rewrite (ensureInstalled_windows e Hw). simpl.
    destruct (isRustInstalled_spec e) as (b & Hb & Hcs & Hgood & Hbad).
    cbv zeta in *. split; [|split].
    + eapply Forall_impl; [exact Hcs|]. simpl. tauto.
    + rewrite Hb. destruct b; [auto | discriminate].
    + intros Hran. exfalso. revert Hran. eapply not_ran; [exact Hcs|].
      simpl. intros [Hc|[Hc|[]]]; revert Hc; rust_neq.
  - rewrite (ensureInstalled_not_windows e Hw).
    destruct (checkInstallCheck_spec isRustInstalled installRust
                RustNotInPath
                (fun t => last_output t cargoVersion (fun _ => true)
                          /\ last_output t rustupVersion (fun _ => true))
                (fun t => In (cargoVersion, None) t
                          \/ In (rustupVersion, None) t)) with (e := e)
      as [Hgood Hbad].
    { intros e' He'.
      destruct (isRustInstalled_spec e') as (b & Hb & _ & Hg & _).
      apply Hg. congruence. }
    { intros e' He'.
      destruct (isRustInstalled_spec e') as (b & Hb & _ & _ & Hb').
      apply Hb'. congruence. }
    { intros e'.
      destruct (isRustInstalled_spec e') as (b & _ & Hcs & _).
      eapply not_ran; [exact Hcs|].
      simpl. intros [Hc|[Hc|[]]]; revert Hc; rust_neq. }
    { intros t t' [H1 H2]. split; now apply last_output_app_l. }
    { intros t t' [Hin|Hin]; [left|right]; apply in_or_app; auto. }
    split; [|split].
    + apply checkInstallCheck_inv.
      * intros e'.
        destruct (isRustInstalled_spec e') as (b & _ & Hcs & _).
        eapply Forall_impl; [exact Hcs|]. simpl. tauto.
      * intros result. rust_cmds.
      * intros t t' Ht Ht'. apply Forall_app. now split.
    + intros Hok. apply Hgood.
      destruct (outcome _) as [[]|x|]; [reflexivity|discriminate..].
    + intros Hran. split; [reflexivity|]. now apply Hbad.
Qed.

Lemma ensureToolchain_spec e :
  toolchain_step (is_returned (outcome (ensureToolchain e)))
                 (executed (ensureToolchain e)).
Proof.
  change (ensureToolchain e)
    with (checkInstallCheck hasRequiredRustToolchain installToolchain
            ToolchainNotInstalled e).
  assert (Hnot : forall e',
             ~ ran (executed (hasRequiredRustToolchain e')) installToolchain).
  { intros e'. destruct (hasRequiredRustToolchain_spec e') as (Hcs & _).
    eapply not_ran; [exact Hcs|].
    simpl. intros [Hc|[Hc|[]]]; revert Hc; rust_neq. }
  destruct (checkInstallCheck_spec hasRequiredRustToolchain installToolchain
              ToolchainNotInstalled
              (fun t => last_output t toolchainList
                          (fun o => includes o REQUIRED_RUST_TOOLCHAIN))
              (fun t => exists o,
                          In (toolchainList, Some o) t
                          /\ includes o REQUIRED_RUST_TOOLCHAIN = false))
    with (e := e) as [Hgood Hbad].
  { intros e' He'.
    destruct (hasRequiredRustToolchain_spec e') as (_ & Hret & _).
    destruct (Hret true He') as (o & after & Ht & Hinc & Hafter).
    cbv zeta in Ht. rewrite Ht. exists [], o, after.
    split; [reflexivity|]. split; [assumption|].
    eapply Forall_impl; [exact Hafter|]. simpl. intros x ->. rust_neq. }
  { intros e' He'.
    destruct (hasRequiredRustToolchain_spec e') as (_ & Hret & _).
    destruct (Hret false He') as (o & after & Ht & Hinc & Hafter).
    cbv zeta in Ht. rewrite Ht. exists o. simpl. auto. }
  { exact Hnot. }
  { intros t t' Hl. now apply last_output_app_l. }
  { intros t t' (o & Hin & Hinc). exists o. split; [|assumption].
    apply in_or_app. auto. }
  split; [|split; [|split]].
  - apply checkInstallCheck_inv.
    + intros e'. destruct (hasRequiredRustToolchain_spec e') as (Hcs & _).
      eapply Forall_impl; [exact Hcs|]. simpl. tauto.
    + intros result. rust_cmds.
    + intros t t' Ht Ht'. apply Forall_app. now split.
  - intros Hok. apply Hgood.
    destruct (outcome _) as [[]|x|]; [reflexivity|discriminate..].
  - exact Hbad.
  - apply (checkInstallCheck_inv hasRequiredRustToolchain installToolchain
             ToolchainNotInstalled
             (fun t => ran t overrideSet ->
                       exists o, In (toolchainList, Some o) t
                                 /\ includes o REQUIRED_RUST_TOOLCHAIN = true)).
    + intros e'. now destruct (hasRequiredRustToolchain_spec e')
        as (_ & _ & _ & Hov).
    + intros result (r & [Hin|[]]). exfalso. apply (f_equal fst) in Hin.
      revert Hin. rust_neq.
    + intros t t' Ht Ht' Hran. apply ran_app in Hran as [Hran|Hran].
      * destruct (Ht Hran) as (o & Hin & Hinc). exists o.
        split; [apply in_or_app; auto | assumption].
      * destruct (Ht' Hran) as (o & Hin & Hinc). exists o.
        split; [apply in_or_app; auto | assumption].
Qed.

Lemma ensureTarget_spec e :
  target_step (is_returned (outcome (ensureTarget e)))
              (executed (ensureTarget e)).
Proof.
  change (ensureTarget e)
    with (checkInstallCheck hasRequiredRustTarget targetAdd
            TargetNotInstalled e).
  destruct (checkInstallCheck_spec hasRequiredRustTarget targetAdd
              TargetNotInstalled
              (fun t => last_output t targetList
                          (fun o => includes o (RUST_WASM32_WASI_TARGET
                                                ++ str " (installed)")))
              (fun t => exists o,
                          In (targetList, Some o) t
                          /\ includes o (RUST_WASM32_WASI_TARGET
                                         ++ str " (installed)") = false))
    with (e := e) as [Hgood Hbad].
  { intros e' He'.
    destruct (hasRequiredRustTarget_spec e') as (_ & Hret & _).
    destruct (Hret true He') as (o & Ht & Hinc).
    cbv zeta in Ht. rewrite Ht. exists [], o, [].
    split; [reflexivity|]. split; [assumption|]. constructor. }
  { intros e' He'.
    destruct (hasRequiredRustTarget_spec e') as (_ & Hret & _).
    destruct (Hret false He') as (o & Ht & Hinc).
    cbv zeta in Ht. rewrite Ht. exists o. simpl. auto. }
  { intros e'. destruct (hasRequiredRustTarget_spec e') as (Hcs & _).
    eapply not_ran; [exact Hcs|].
    simpl. intros [Hc|[]]; revert Hc; rust_neq. }
  { intros t t' Hl. now apply last_output_app_l. }
  { intros t t' (o & Hin & Hinc). exists o. split; [|assumption].
    apply in_or_app. auto. }
  split; [|split].
  - apply checkInstallCheck_inv.
    + intros e'. destruct (hasRequiredRustTarget_spec e') as (Hcs & _).
      eapply Forall_impl; [exact Hcs|]. simpl. tauto.
    + intros result. rust_cmds.
    + intros t t' Ht Ht'. apply Forall_app. now split.
  - intros Hok. apply Hgood.
    destruct (outcome _) as [[]|x|]; [reflexivity|discriminate..].
  - exact Hbad.
Qed.

(** A run of [ensureRust] is a run of the first step, then of the second
    one if the first returned, then of the third one if the second
    returned. *)
Lemma ensureRust_steps e :
  exists ok1 ok2 ok3 t1 t2 t3,
    executed (ensureRust e) = t1 ++ t2 ++ t3
    /\ installed_step ok1 t1
    /\ toolchain_step ok2 t2
    /\ target_step ok3 t3
    /\ (outcome (ensureRust e) = Returned tt ->
        ok1 = true /\ ok2 = true /\ ok3 = true).
Proof.
  assert (Hnil1 : toolchain_step false []).
  { split; [constructor|]. split; [discriminate|].
    split; intros (r & []). }
  assert (Hnil2 : target_step false []).
  { split; [constructor|]. split; [discriminate|]. intros (r & []). }
  change (ensureRust e)
    with ((ensureInstalled ;; ensureToolchain ;; ensureTarget) e).
  pose proof (ensureInstalled_spec e) as H1.
  destruct (rust_seq_cases ensureInstalled
              (ensureToolchain ;; ensureTarget) e)
    as [(Hr1 & -> & ->)|(Hr1 & -> & Hr)].
  2:{ exists false, false, false, (executed (ensureInstalled e)), [], [].
      rewrite app_nil_r. rewrite Hr1 in H1.
      split; [reflexivity|]. split; [exact H1|].
      split; [exact Hnil1|]. split; [exact Hnil2|].
      intros Hok. now rewrite Hok in Hr. }
  rewrite Hr1 in H1.
  pose proof (ensureToolchain_spec (final (ensureInstalled e))) as H2.
  destruct (rust_seq_cases ensureToolchain ensureTarget
              (final (ensureInstalled e)))
    as [(Hr2 & -> & ->)|(Hr2 & -> & Hr)].
  2:{ exists true, false, false, (executed (ensureInstalled e)),
        (executed (ensureToolchain (final (ensureInstalled e)))), [].
      rewrite app_nil_r. rewrite Hr2 in H2.
      split; [reflexivity|]. split; [exact H1|].
      split; [exact H2|]. split; [exact Hnil2|].
      intros Hok. now rewrite Hok in Hr. }
  rewrite Hr2 in H2.
  pose proof (ensureTarget_spec
                (final (ensureToolchain (final (ensureInstalled e))))) as H3.
  eexists true, true, _, _, _, _.
  split; [reflexivity|]. split; [exact H1|]. split; [exact H2|].
  split; [exact H3|]. intros ->. now repeat split.
Qed.

End RustStepSpecs.

Section RustTheorems.
Import Rust.
Local Open Scope rust_scope.
Context `{Shell}.

(** X23. When [ensureRust] returns, the last run of each of its four
    checks was a success: the last [cargo --version] and the last
    [rustup --version] gave an output, the last [rustup toolchain list]
    listed the required toolchain and the last [rustup target list] listed
    the wasm32-wasi target as installed. *)
Theorem ensureRust_success_means_checked (e : Env) :
  outcome (ensureRust e) = Returned tt ->
  let t := executed (ensureRust e) in
  last_output t cargoVersion (fun _ => true)
  /\ last_output t rustupVersion (fun _ => true)
  /\ last_output t toolchainList
       (fun o => includes o REQUIRED_RUST_TOOLCHAIN)
  /\ last_output t targetList
       (fun o => includes o (RUST_WASM32_WASI_TARGET ++ str " (installed)")).
Proof.
  intros Hok t. subst t.
  destruct (ensureRust_steps e)
    as (ok1 & ok2 & ok3 & t1 & t2 & t3 & -> & H1 & H2 & H3 & Hoks).
  destruct (Hoks Hok) as (-> & -> & ->).
  destruct H1 as (_ & H1 & _). destruct (H1 eq_refl) as [Hc Hr].
  destruct H2 as (Hcs2 & H2 & _). specialize (H2 eq_refl).
  destruct H3 as (Hcs3 & H3 & _). specialize (H3 eq_refl).
  assert (Hafter : forall c,
             ~ In c [installToolchain; toolchainList; overrideSet] ->
             ~ In c [targetAdd; targetList] ->
             Forall (fun x => fst x <> c) (t2 ++ t3)).
  { intros c Hc2 Hc3. apply Forall_app. split.
    - eapply not_run_after; [exact Hcs2 | exact Hc2].
    - eapply not_run_after; [exact Hcs3 | exact Hc3]. }
  split; [|split; [|split]].
  - apply last_output_app_r; [exact Hc|]. apply Hafter; rust_notin.
  - apply last_output_app_r; [exact Hr|]. apply Hafter; rust_notin.
  - apply last_output_app_l. apply last_output_app_r; [exact H2|].
    eapply not_run_after; [exact Hcs3|]. rust_notin.
  - now do 2 apply last_output_app_l.
Qed.

(** X24. [ensureRust] installs only what a check found missing.  The Rust
    installer is run only off Windows and after a failed [--version]
    command; [rustup install] only after a toolchain list without the
    required toolchain; [rustup target add] only after a target list
    without the installed target; and [rustup override set] only after a
    toolchain list with the required toolchain.  It runs no other command
    than these four and the four checks. *)
Theorem ensureRust_installs_only_what_is_missing (e : Env) :
  let t := executed (ensureRust e) in
  (ran t installRust ->
   windows = false
   /\ (In (cargoVersion, None) t \/ In (rustupVersion, None) t))
  /\ (ran t installToolchain ->
      exists o, In (toolchainList, Some o) t
                /\ includes o REQUIRED_RUST_TOOLCHAIN = false)
  /\ (ran t targetAdd ->
      exists o,
        In (targetList, Some o) t
        /\ includes o (RUST_WASM32_WASI_TARGET ++ str " (installed)")
           = false)
  /\ (ran t overrideSet ->
      exists o, In (toolchainList, Some o) t
                /\ includes o REQUIRED_RUST_TOOLCHAIN = true)
  /\ Forall (fun x => In (fst x)
                        [cargoVersion; rustupVersion; installRust;
                         toolchainList; overrideSet; installToolchain;
                         targetList; targetAdd]) t.
Proof.
  intros t. subst t.
  destruct (ensureRust_steps e)
    as (ok1 & ok2 & ok3 & t1 & t2 & t3 & -> & H1 & H2 & H3 & _).
  destruct H1 as (Hcs1 & _ & Hi1).
  destruct H2 as (Hcs2 & _ & Hi2 & Ho2).
  destruct H3 as (Hcs3 & _ & Hi3).
  split; [|split; [|split; [|split]]].
  - intros Hran. apply ran_app in Hran as [Hran|Hran].
    + destruct (Hi1 Hran) as [Hw Hin]. split; [exact Hw|].
      destruct Hin as [Hin|Hin]; [left|right]; apply in_or_app; auto.
    + exfalso. apply ran_app in Hran as [Hran|Hran]; revert Hran.
      * eapply not_ran; [exact Hcs2|]. rust_notin.
      * eapply not_ran; [exact Hcs3|]. rust_notin.
  - intros Hran. apply ran_app in Hran as [Hran|Hran].
    { exfalso. revert Hran. eapply not_ran; [exact Hcs1|]. rust_notin. }
    apply ran_app in Hran as [Hran|Hran].
    + destruct (Hi2 Hran) as (o & Hin & Hinc). exists o.
      split; [|exact Hinc]. apply in_or_app. right. apply in_or_app. auto.
    + exfalso. revert Hran. eapply not_ran; [exact Hcs3|]. rust_notin.
  - intros Hran. apply ran_app in Hran as [Hran|Hran].
    { exfalso. revert Hran. eapply not_ran; [exact Hcs1|]. rust_notin. }
    apply ran_app in Hran as [Hran|Hran].
    { exfalso. revert Hran. eapply not_ran; [exact Hcs2|]. rust_notin. }
    destruct (Hi3 Hran) as (o & Hin & Hinc). exists o.
    split; [|exact Hinc]. apply in_or_app. right. apply in_or_app. auto.
  - intros Hran. apply ran_app in Hran as [Hran|Hran].
    { exfalso. revert Hran. eapply not_ran; [exact Hcs1|]. rust_notin. }
    apply ran_app in Hran as [Hran|Hran].
    + destruct (Ho2 Hran) as (o & Hin & Hinc). exists o.
      split; [|exact Hinc]. apply in_or_app. right. apply in_or_app. auto.
    + exfalso. revert Hran. eapply not_ran; [exact Hcs3|]. rust_notin.
  - repeat (apply Forall_app; split);
      (eapply Forall_impl; [eassumption|]); simpl; tauto.
Qed.

(** X25. On Windows [ensureRust] does not install Rust: when one of the
    two [--version] commands fails it ends with the report "Rust needs to
    be installed" right after the check, having run nothing but the
    [--version] commands. *)
Theorem ensureRust_on_windows_without_rust (e : Env) :
  windows = true ->
  outcome (isRustInstalled e) = Returned false ->
  ensureRust e
  = (Errored RustNeedsToBeInstalled, final (isRustInstalled e),
     executed (isRustInstalled e))
  /\ Forall (fun x => In (fst x) [cargoVersion; rustupVersion])
            (executed (ensureRust e)).
Proof.
  intros Hw Hfalse.
  assert (Hrun : ensureRust e
                 = (Errored RustNeedsToBeInstalled,
                    final (isRustInstalled e),
                    executed (isRustInstalled e))).
  { change (ensureRust e)
      with ((ensureInstalled ;; ensureToolchain ;; ensureTarget) e).
    unfold bind at 1. rewrite (ensureInstalled_windows e Hw), Hfalse.
    reflexivity. }
  split; [exact Hrun|]. rewrite Hrun.
  now destruct (isRustInstalled_spec e) as (b & _ & Hcs & _).
Qed.

End RustTheorems.

Lemma ensureRust_success_means_checked_witness :
  let t := Rust.executed (Rust.ensureRust (H := Rust.Demo.demo_shell) true) in
  Rust.last_output t Rust.cargoVersion (fun _ => true)
  /\ Rust.last_output t Rust.rustupVersion (fun _ => true)
  /\ Rust.last_output t Rust.toolchainList
       (fun o => Rust.includes o (str "nightly-x86_64"))
  /\ Rust.last_output t Rust.targetList
       (fun o => Rust.includes o (str "wasm32-wasi" ++ str " (installed)")).
Proof.
  apply (ensureRust_success_means_checked (H := Rust.Demo.demo_shell) true).
  reflexivity.
Defined.

Lemma ensureRust_on_windows_without_rust_witness :
  Rust.ensureRust (H := Rust.Demo.demo_shell) false
  = (Rust.Errored Rust.RustNeedsToBeInstalled, false,
     [(Rust.cargoVersion, None)])
  /\ Forall (fun x => In (fst x) [Rust.cargoVersion; Rust.rustupVersion])
            (Rust.executed (Rust.ensureRust (H := Rust.Demo.demo_shell)
                              false)).
Proof.
  apply (ensureRust_on_windows_without_rust (H := Rust.Demo.demo_shell)
           false); reflexivity.
Defined.

Section CargoSearch.
Import Rust.
Local Open Scope rust_scope.
Context `{Shell}.

Lemma split_not_nil s sep : split s sep <> [].
Proof.
  destruct s as [|c r]; simpl; [discriminate|].
  destruct (c =? sep); [discriminate|].
  destruct (split r sep); discriminate.
Qed.

Lemma split_first s : split s QUOTE !! 0%nat = Some (up_to_quote s).
Proof.
  induction s as [|c r IH]; simpl; [reflexivity|].
  destruct (c =? QUOTE); [reflexivity|].
  destruct (split r QUOTE) as [|h t]; simpl in *; congruence.
Qed.

(** The second element of [s.split(sep)], with the double quote as
    separator, is the text between the first two double quotes. *)
Lemma split_second s : array_get (split s QUOTE) 1 = quoted s.
Proof.
  unfold array_get. simpl.
  induction s as [|c r IH]; simpl; [reflexivity|].
  destruct (c =? QUOTE).
  - apply split_first.
  - destruct (split r QUOTE) as [|h t] eqn:E; simpl in *; [|exact IH].
    now destruct (split_not_nil r QUOTE).
Qed.

Lemma up_to_quote_no_quote s : ~ In QUOTE (up_to_quote s).
Proof.
  induction s as [|c r IH]; simpl; [tauto|].
  destruct (c =? QUOTE) eqn:E; simpl; [tauto|].
  intros [->|Hin]; [|tauto]. now rewrite N.eqb_refl in E.
Qed.

Lemma quoted_no_quote s v : quoted s = Some v -> ~ In QUOTE v.
Proof.
  induction s as [|c r IH]; simpl; [discriminate|].
  destruct (c =? QUOTE); [|exact IH].
  intros [= <-]. apply up_to_quote_no_quote.
Qed.

Lemma In_trimStart (x : N) s : In x (trimStart s) -> In x s.
Proof.
  induction s as [|c r IH]; simpl; [tauto|].
  destruct (is_ws c); simpl; tauto.
Qed.

Lemma In_trim (x : N) s : In x (trim s) -> In x s.
Proof.
  unfold trim, trimEnd. intros Hin.
  apply In_trimStart. apply in_rev. apply In_trimStart.
  now apply in_rev in Hin.
Qed.

(** X26. [getLatestVersionOfCargoDependency] runs [cargo search] once.  It
    is rejected when the command is; otherwise it returns the text between
    the first two double quotes of the output (up to the end when there is
    only one), trimmed, and reports "Not able to find the latest version"
    when the output has no double quote.  A version it returns has no
    double quote and no white space at either end. *)
Theorem getLatestVersionOfCargoDependency_result (name : jsstring) (e : Env) :
  let r := getLatestVersionOfCargoDependency name e in
  let search := execPromise (cargoSearch name) e in
  executed r = [(cargoSearch name, fst search)]
  /\ final r = snd search
  /\ outcome r
     = match fst search with
       | None => Rejected
       | Some output =>
           match quoted output with
           | Some version => Returned (trim version)
           | None => Errored (LatestVersionNotFound name)
           end
       end
  /\ (forall version,
        outcome r = Returned version ->
        trim version = version
        /\ ~ In QUOTE version).
Proof.
  intros r search. subst r search.
  assert (Hrun :
    getLatestVersionOfCargoDependency name e
    = match execPromise (cargoSearch name) e with
      | (None, e1) => (Rejected, e1, [(cargoSearch name, None)])
      | (Some output, e1) =>
          (match quoted output with
           | Some version => Returned (trim version)
           | None => Errored (LatestVersionNotFound name)
           end, e1, [(cargoSearch name, Some output)])
      end).
  { unfold getLatestVersionOfCargoDependency, bind, exec.
    destruct (execPromise (cargoSearch name) e) as [[output|] e1];
      [|reflexivity].
    rewrite split_second. now destruct (quoted output). }
  rewrite Hrun.
  destruct (execPromise (cargoSearch name) e) as [[output|] e1]; simpl.
  2:{ repeat split; discriminate. }
  split; [reflexivity|]. split; [reflexivity|]. split; [reflexivity|].
  intros version Hv. unfold outcome in Hv. simpl in Hv.
  destruct (quoted output) as [v|] eqn:Hq; [|discriminate].
  injection Hv as <-. split; [apply trim_trim|].
  intros Hin. apply (quoted_no_quote _ _ Hq). now apply In_trim.
Qed.

End CargoSearch.

(** * The versions command *)

Section FluenceDependencies.
Import Versions.

Lemma set_new_key o k v :
  ~ elem_of k (fmap fst o) -> set o k v = o ++ [(k, v)].
Proof.
  induction o as [|[k' v'] rest IH]; simpl; [reflexivity|].
  intros Hnot. unfold jsstring_eqb. case_bool_decide.
  - destruct Hnot. subst. apply list_elem_of_here.
  - rewrite IH; [reflexivity|]. intros Hin. apply Hnot.
    now apply list_elem_of_further.
Qed.

Lemma fromEntries_distinct entries acc :
  NoDup (fmap fst (acc ++ entries)) ->
  fold_left (fun o entry => set o (fst entry) (snd entry)) entries acc
  = acc ++ entries.
Proof.
  revert acc. induction entries as [|[k v] rest IH]; intros acc Hnd; simpl.
  - now rewrite app_nil_r.
  - rewrite set_new_key.
    + rewrite IH; rewrite <- app_assoc; [reflexivity | exact Hnd].
    + rewrite fmap_app in Hnd. simpl in Hnd.
      apply NoDup_app in Hnd as (_ & Hdisj & _).
      intros Hin. apply (Hdisj _ Hin). apply list_elem_of_here.
Qed.

Lemma filter_sublist {A} (f : A -> bool) (l : list A) :
  sublist (List.filter f l) l.
Proof.
  induction l as [|x l IH]; simpl; [constructor|].
  destruct (f x); now constructor.
Qed.

Lemma filter_distinct_keys f (o : JsObject) :
  distinct_keys o -> distinct_keys (List.filter f o).
Proof.
  intros Hnd. apply (sublist_NoDup _ (fmap fst o)); [exact Hnd|].
  apply fmap_sublist, filter_sublist.
Qed.

Lemma filterOutNonFluenceDependencies_filter dependencies :
  distinct_keys dependencies ->
  filterOutNonFluenceDependencies dependencies
  = List.filter (fun '(dep, _) => startsWith dep (str "@fluencelabs/"))
                dependencies.
Proof.
  intros Hnd. unfold filterOutNonFluenceDependencies, Object_fromEntries,
    Object_entries.
  rewrite fromEntries_distinct; [reflexivity|]. simpl.
  now apply filter_distinct_keys.
Qed.

(** X27. On an object with distinct keys
    [filterOutNonFluenceDependencies] keeps exactly the entries whose name
    starts with "@fluencelabs/", with their versions, in the order they had;
    the keys of the result are distinct, and filtering the result again
    changes nothing. *)
Theorem filterOutNonFluenceDependencies_keeps_fluence_entries
    (dependencies : JsObject) :
  distinct_keys dependencies ->
  let kept := filterOutNonFluenceDependencies dependencies in
  (forall dep version,
      In (dep, version) kept
      <-> In (dep, version) dependencies
          /\ startsWith dep (str "@fluencelabs/") = true)
  /\ sublist kept dependencies
  /\ distinct_keys kept
  /\ filterOutNonFluenceDependencies kept = kept.
Proof.
  intros Hnd kept. subst kept.
  rewrite (filterOutNonFluenceDependencies_filter _ Hnd).
  assert (Hkept : distinct_keys
            (List.filter (fun '(dep, _) => startsWith dep (str "@fluencelabs/"))
                         dependencies)).
  { now apply filter_distinct_keys. }
  split; [|split; [|split]].
  - intros dep version. now rewrite filter_In.
  - apply filter_sublist.
  - exact Hkept.
  - rewrite (filterOutNonFluenceDependencies_filter _ Hkept).
    induction dependencies as [|[dep version] rest IH]; simpl; [reflexivity|].
    destruct (startsWith dep (str "@fluencelabs/")) eqn:E; simpl.
    + rewrite E. f_equal. apply IH.
      * now apply NoDup_cons in Hnd as [_ Hnd].
      * apply filter_distinct_keys. now apply NoDup_cons in Hnd as [_ Hnd].
    + apply IH.
      * now apply NoDup_cons in Hnd as [_ Hnd].
      * apply filter_distinct_keys. now apply NoDup_cons in Hnd as [_ Hnd].
Qed.

End FluenceDependencies.

Lemma filterOutNonFluenceDependencies_keeps_fluence_entries_witness :
  let dependencies :=
    [(str "@fluencelabs/js-client", str "0.9.0"); (str "yaml", str "2.3.1");
     (str "@fluencelabs/aqua-api", str "0.14.2")] in
  let kept := Versions.filterOutNonFluenceDependencies dependencies in
  (forall dep version,
      In (dep, version) kept
      <-> In (dep, version) dependencies
          /\ startsWith dep (str "@fluencelabs/") = true)
  /\ sublist kept dependencies
  /\ Versions.distinct_keys kept
  /\ Versions.filterOutNonFluenceDependencies kept = kept.
Proof.
  apply (filterOutNonFluenceDependencies_keeps_fluence_entries
           [(str "@fluencelabs/js-client", str "0.9.0");
            (str "yaml", str "2.3.1");
            (str "@fluencelabs/aqua-api", str "0.14.2")]).
  unfold Versions.distinct_keys. apply (bool_decide_unpack _).
  vm_compute. exact I.
Defined.

(** * The provider prompts *)

Section ProviderRuns.
Import Provider.
Local Open Scope provider_scope.
Context `{Prompts}.

Lemma provider_bind_assoc {A B C} (m : M A) (k : A -> M B) (h : B -> M C) s :
  bind (bind m k) h s = bind m (fun a => bind (k a) h) s.
Proof.
  unfold bind. destruct (m s) as [[[a| |] s1] t1]; try reflexivity.
  destruct (k a s1) as [[[b| |] s2] t2]; try reflexivity.
  destruct (h b s2) as [[r s3] t3]. now rewrite app_assoc.
Qed.

Lemma provider_bind_ext {A B} (m : M A) (k k' : A -> M B) s :
  (forall a s', k a s' = k' a s') -> bind m k s = bind m k' s.
Proof.
  intros Hk. unfold bind. destruct (m s) as [[[a| |] s1] t1]; try reflexivity.
  now rewrite Hk.
Qed.

Lemma provider_ret_bind {A B} (a : A) (k : A -> M B) s :
  bind (ret a) k s = k a s.
Proof. unfold bind, ret. now destruct (k a s) as [[r s2] t2]. Qed.

(** A run of [m ;; k]: [k] runs from where [m] returned, and does not run
    when [m] did not return. *)
Lemma provider_seq_cases {A B} (m : M A) (k : A -> M B) s :
  (exists a,
      outcome (m s) = Returned a
      /\ outcome (bind m k s) = outcome (k a (final (m s)))
      /\ final (bind m k s) = final (k a (final (m s)))
      /\ asked (bind m k s) = asked (m s) ++ asked (k a (final (m s))))
  \/ (is_returned (outcome (m s)) = false
      /\ is_returned (outcome (bind m k s)) = false
      /\ is_unfinished (outcome (bind m k s))
         = is_unfinished (outcome (m s))
      /\ asked (bind m k s) = asked (m s)).
Proof.
  unfold bind. destruct (m s) as [[[a| |] s1] t1]; simpl.
  - left. exists a. unfold final. simpl.
    now destruct (k a s1) as [[r s2] t2].
  - right. now repeat split.
  - right. now repeat split.
Qed.

(** One turn of the loop when the number of noxes is given. *)
Lemma addComputePeers_loop_given fuel n minDuration validateCCDuration c s :
  addComputePeers_loop (S fuel) (Some n) minDuration validateCCDuration c s
  = (addComputePeer (nox c) minDuration validateCCDuration ;;
     if js_gt n (S c)
     then addComputePeers_loop fuel (Some n) minDuration validateCCDuration
                               (S c)
     else ret tt) s.
Proof.
  cbn [addComputePeers_loop]. rewrite provider_ret_bind.
  unfold jsstring_eqb. rewrite bool_decide_eq_true_2 by reflexivity.
  unfold addComputePeer.
  repeat (rewrite provider_bind_assoc; apply provider_bind_ext; intros ? ?).
  apply provider_bind_ext; intros ? ?. now rewrite provider_ret_bind.
Qed.

(** One turn of the loop when the number of noxes is not given. *)
Lemma addComputePeers_loop_asked fuel minDuration validateCCDuration c s :
  addComputePeers_loop (S fuel) None minDuration validateCCDuration c s
  = (let* name :=
       await_input (mkInputArgs (str "Enter name for compute peer")
                                (Some (nox c)) None) in
     addComputePeer name minDuration validateCCDuration ;;
     let c' := if jsstring_eqb name (nox c) then S c else c in
     let* more :=
       if isInteractive
       then await_confirm (str "Do you want to add more compute peers")
       else ret (c' <? DEFAULT_NUMBER_OF_NOXES)%nat in
     if more
     then addComputePeers_loop fuel None minDuration validateCCDuration c'
     else ret tt) s.
Proof.
  cbn [addComputePeers_loop]. apply provider_bind_ext. intros name s1.
  unfold addComputePeer.
  repeat (rewrite provider_bind_assoc; apply provider_bind_ext; intros ? ?).
  reflexivity.
Qed.

(** What the prompts for one peer do. *)
Lemma addComputePeer_spec name minDuration validateCCDuration s :
  let r := addComputePeer name minDuration validateCCDuration s in
  is_unfinished (outcome r) = false
  /\ Forall (fun a => is_confirm a = false) (asked r)
  /\ (outcome r = Returned tt ->
      length (asked r) = 4%nat
      /\ exists peer commitment,
          providerConfig (final r)
          = mkProviderConfig
              (<[name := peer]> (computePeers (providerConfig s)))
              (<[name := commitment]>
                 (capacityCommitments (providerConfig s)))).
Proof.
  unfold addComputePeer, bind, await_input, set_capacityCommitment,
    set_computePeer.
  destruct (input _ (env s)) as [[a1|] e1]; simpl.
  2:{ split; [reflexivity|]. split; [now repeat constructor|discriminate]. }
  destruct (input _ e1) as [[a2|] e2]; simpl.
  2:{ split; [reflexivity|]. split; [now repeat constructor|discriminate]. }
  destruct (input _ e2) as [[a3|] e3]; simpl.
  2:{ split; [reflexivity|]. split; [now repeat constructor|discriminate]. }
  destruct (input _ e3) as [[a4|] e4]; simpl.
  2:{ split; [reflexivity|]. split; [now repeat constructor|discriminate]. }
  split; [reflexivity|]. split; [now repeat constructor|].
  intros _. split; [reflexivity|]. eauto.
Qed.

End ProviderRuns.

Lemma gset_union_shuffle (x : jsstring) (D N : gset jsstring) :
  union (union (singleton x) D) N = union D (union (singleton x) N).
Proof.
  now rewrite (comm_L union (singleton x) D), <- (assoc_L union).
Qed.

Lemma gset_union_last (x : jsstring) (D : gset jsstring) :
  union (singleton x) D = union D (union (singleton x) empty).
Proof.
  now rewrite (right_id_L empty union), (comm_L union).
Qed.

Section ProviderLoop.
Import Provider.
Local Open Scope provider_scope.
Context `{Prompts}.

Lemma await_spec {A} (f : Env -> option A * Env) s :
  is_unfinished (outcome (await f s)) = false
  /\ asked (await f s) = []
  /\ providerConfig (final (await f s)) = providerConfig s.
Proof.
  unfold await. now destruct (f (env s)) as [[a|] e1].
Qed.

Lemma noxes_S from count :
  noxes from (S count) = union (singleton (nox from)) (noxes (S from) count).
Proof. reflexivity. Qed.

(** The loop with a number of noxes that asks for [K] peers. *)
Lemma addComputePeers_loop_counts n K minDuration validateCCDuration :
  (forall j, (1 <= j)%nat -> js_gt n j = (j <? K)%nat) ->
  forall fuel c s,
    (c < K)%nat -> (K - c <= fuel)%nat ->
    let r := addComputePeers_loop fuel (Some n) minDuration
                                  validateCCDuration c s in
    is_unfinished (outcome r) = false
    /\ Forall (fun a => is_confirm a = false) (asked r)
    /\ (outcome r = Returned tt ->
        length (asked r) = (4 * (K - c))%nat
        /\ dom (computePeers (providerConfig (final r)))
           = union (dom (computePeers (providerConfig s)))
                   (noxes c (K - c))
        /\ dom (capacityCommitments (providerConfig (final r)))
           = union (dom (capacityCommitments (providerConfig s)))
                   (noxes c (K - c))).
Proof.
  intros Hgt. induction fuel as [|fuel IH]; intros c s Hc Hfuel; [lia|].
  cbv zeta. rewrite addComputePeers_loop_given.
  pose proof (addComputePeer_spec (nox c) minDuration validateCCDuration s)
    as (Hunf & Hconf & Hret).
  destruct (provider_seq_cases
              (addComputePeer (nox c) minDuration validateCCDuration)
              (fun _ => if js_gt n (S c)
                        then addComputePeers_loop fuel (Some n) minDuration
                               validateCCDuration (S c)
                        else ret tt) s)
    as [(a & Ha & -> & -> & ->)|(Hno & Hno' & -> & ->)].
  2:{ split; [exact Hunf|]. split; [exact Hconf|].
      intros Hok. rewrite Hok in Hno'. discriminate. }
  destruct a. destruct (Hret Ha) as (Hlen & peer & commitment & Hcfg).
  rewrite Hgt by lia.
  destruct (S c <? K)%nat eqn:Hlt.
  - apply Nat.ltb_lt in Hlt.
    destruct (IH (S c) (final (addComputePeer (nox c) minDuration
                                 validateCCDuration s)))
      as (Hunf' & Hconf' & Hret'); [lia..|].
    split; [exact Hunf'|]. split; [apply Forall_app; now split|].
    intros Hok. destruct (Hret' Hok) as (Hlen' & Hcp & Hcc).
    rewrite length_app, Hlen, Hlen'. split; [lia|].
    rewrite Hcp, Hcc, Hcfg. simpl. rewrite !dom_insert_L.
    replace (K - c)%nat with (S (K - S c)) by lia. rewrite noxes_S.
    split; apply gset_union_shuffle.
  - apply Nat.ltb_ge in Hlt. assert (K = S c) as -> by lia.
    split; [reflexivity|]. split; [now rewrite app_nil_r|].
    intros _. rewrite app_nil_r, Hlen. split; [lia|].
    unfold final at 1 3. simpl.
    fold (final (addComputePeer (nox c) minDuration validateCCDuration s)).
    rewrite Hcfg. simpl. rewrite !dom_insert_L.
    replace (S c - c)%nat with 1%nat by lia. rewrite noxes_S.
    split; apply gset_union_last.
Qed.

Lemma js_gt_iterations n K :
  iterations n = Some K ->
  (1 <= K)%nat /\ forall j, (1 <= j)%nat -> js_gt n j = (j <? K)%nat.
Proof.
  destruct n as [|[|]|q]; simpl; intros [= <-].
  - split; [lia|]. intros j Hj. symmetry. apply Nat.ltb_ge. lia.
  - split; [lia|]. intros j Hj. symmetry. apply Nat.ltb_ge. lia.
  - split; [lia|]. intros j Hj.
    pose proof (Qle_ceiling q) as Hle.
    pose proof (Qceiling_lt q) as Hlt.
    assert (Hup : (q <= inject_Z (Z.of_nat j))%Q ->
                  (j <? Z.to_nat (Z.max 1 (Qceiling q)))%nat = false).
    { intros Hq. apply Nat.ltb_ge.
      assert (inject_Z (Qceiling q - 1) < inject_Z (Z.of_nat j))%Q as Hlt'
          by (eapply Qlt_le_trans; eassumption).
      rewrite <- Zlt_Qlt in Hlt'. lia. }
    destruct (q ?= inject_Z (Z.of_nat j))%Q eqn:Hcmp.
    + apply Qeq_alt in Hcmp. symmetry. apply Hup.
      apply Qle_lteq. now right.
    + apply Qlt_alt in Hcmp. symmetry. apply Hup. now apply Qlt_le_weak.
    + apply Qgt_alt in Hcmp. symmetry. apply Nat.ltb_lt.
      assert (inject_Z (Z.of_nat j) < inject_Z (Qceiling q))%Q as Hlt'
          by (eapply Qlt_le_trans; eassumption).
      rewrite <- Zlt_Qlt in Hlt'. lia.
Qed.

(** X28. With a number of noxes that is not [Infinity],
    [addComputePeers] ends after [max 1 (ceil numberOfNoxes)] turns of its
    loop (one turn for NaN, zero and negative numbers): with that much fuel
    the run is never unfinished, it asks no confirmation, and when it
    returns it has shown the four inputs of each peer and added the names
    nox-0, nox-1, ... to the keys of the compute peers and of the capacity
    commitments, and no other key.  (The counter of the source is exact up
    to 2^53.) *)
Theorem addComputePeers_adds_requested_number
    (numberOfNoxes : jsnum) (count fuel : nat) (s : State) :
  iterations numberOfNoxes = Some count ->
  (Z.of_nat count <= 2 ^ 53)%Z ->
  (count <= fuel)%nat ->
  let r := addComputePeers fuel (Some numberOfNoxes) s in
  is_unfinished (outcome r) = false
  /\ Forall (fun a => is_confirm a = false) (asked r)
  /\ (outcome r = Returned tt ->
      length (asked r) = (4 * count)%nat
      /\ dom (computePeers (providerConfig (final r)))
         = union (dom (computePeers (providerConfig s))) (noxes 0 count)
      /\ dom (capacityCommitments (providerConfig (final r)))
         = union (dom (capacityCommitments (providerConfig s)))
                 (noxes 0 count)).
Proof.
  intros Hit _ Hfuel r. subst r.
  destruct (js_gt_iterations _ _ Hit) as [Hpos Hgt].
  unfold addComputePeers.
  destruct (await_spec getMinCCDuration s) as (Hu1 & Ha1 & Hc1).
  destruct (provider_seq_cases (await getMinCCDuration)
              (fun minDuration =>
                 let* validateCCDuration := await ccDurationValidator in
                 addComputePeers_loop fuel (Some numberOfNoxes) minDuration
                                      validateCCDuration 0) s)
    as [(minDuration & Hm & -> & -> & ->)|(Hno & Hno' & -> & ->)].
  2:{ rewrite Ha1. split; [exact Hu1|]. split; [constructor|].
      intros Hok. rewrite Hok in Hno'. discriminate. }
  set (s1 := final (await getMinCCDuration s)) in *.
  destruct (await_spec ccDurationValidator s1) as (Hu2 & Ha2 & Hc2).
  destruct (provider_seq_cases (await ccDurationValidator)
              (fun validateCCDuration =>
                 addComputePeers_loop fuel (Some numberOfNoxes) minDuration
                                      validateCCDuration 0) s1)
    as [(validateCCDuration & Hv & -> & -> & ->)|(Hno & Hno' & -> & ->)].
  2:{ rewrite Ha1, Ha2. split; [exact Hu2|]. split; [constructor|].
      intros Hok. rewrite Hok in Hno'. discriminate. }
  set (s2 := final (await ccDurationValidator s1)) in *.
  rewrite Ha1, Ha2. simpl.
  destruct (addComputePeers_loop_counts numberOfNoxes count minDuration
              validateCCDuration Hgt fuel 0%nat s2)
    as (Hunf & Hconf & Hret); [lia..|].
  split; [exact Hunf|]. split; [exact Hconf|].
  intros Hok. destruct (Hret Hok) as (Hlen & Hcp & Hcc).
  rewrite Nat.sub_0_r in *. rewrite Hlen, Hcp, Hcc, Hc2, Hc1. now repeat split.
Qed.

Lemma addComputePeers_loop_infinite fuel minDuration validateCCDuration c s :
  is_returned
    (outcome (addComputePeers_loop fuel (Some (JInf false)) minDuration
                                   validateCCDuration c s)) = false.
Proof.
  revert c s. induction fuel as [|fuel IH]; intros c s; [reflexivity|].
  rewrite addComputePeers_loop_given.
  destruct (provider_seq_cases
              (addComputePeer (nox c) minDuration validateCCDuration)
              (fun _ => if js_gt (JInf false) (S c)
                        then addComputePeers_loop fuel (Some (JInf false))
                               minDuration validateCCDuration (S c)
                        else ret tt) s)
    as [(a & Ha & -> & _)|(_ & -> & _)]; [|reflexivity].
  simpl. apply IH.
Qed.

(** X29. With [Infinity] as the number of noxes [addComputePeers] never
    returns: whatever the fuel, the run ends with a rejected promise or is
    still in its loop. *)
Theorem addComputePeers_infinity_never_returns (fuel : nat) (s : State) :
  is_returned (outcome (addComputePeers fuel (Some (JInf false)) s)) = false.
Proof.
  unfold addComputePeers.
  destruct (provider_seq_cases (await getMinCCDuration)
              (fun minDuration =>
                 let* validateCCDuration := await ccDurationValidator in
                 addComputePeers_loop fuel (Some (JInf false)) minDuration
                                      validateCCDuration 0) s)
    as [(minDuration & Hm & -> & _)|(_ & -> & _)]; [|reflexivity].
  destruct (provider_seq_cases (await ccDurationValidator)
              (fun validateCCDuration =>
                 addComputePeers_loop fuel (Some (JInf false)) minDuration
                                      validateCCDuration 0)
              (final (await getMinCCDuration s)))
    as [(validateCCDuration & Hv & -> & _)|(_ & -> & _)]; [|reflexivity].
  apply addComputePeers_loop_infinite.
Qed.

End ProviderLoop.

Section ProviderDefault.
Import Provider.
Local Open Scope provider_scope.
Context `{Prompts}.

Lemma has_peer_insert config name peer commitment x :
  has_peer config x ->
  has_peer (mkProviderConfig
              (<[name := peer]> (computePeers config))
              (<[name := commitment]> (capacityCommitments config))) x.
Proof.
  intros [Hp Hc]. split; simpl; apply lookup_insert_is_Some';
    now right.
Qed.

Lemma has_peer_new config name peer commitment :
  has_peer (mkProviderConfig
              (<[name := peer]> (computePeers config))
              (<[name := commitment]> (capacityCommitments config))) name.
Proof.
  split; simpl; apply lookup_insert_is_Some'; now left.
Qed.

Lemma await_input_config args s :
  providerConfig (final (await_input args s)) = providerConfig s.
Proof.
  unfold await_input. now destruct (input args (env s)) as [[a|] e1].
Qed.

(** The loop without a number of noxes and without a terminal: it ends
    only when the counter has reached three, and every default name below
    the counter is a key. *)
Lemma addComputePeers_loop_default minDuration validateCCDuration :
  isInteractive = false ->
  forall fuel c s,
    (forall i, (i < c)%nat -> has_peer (providerConfig s) (nox i)) ->
    let r := addComputePeers_loop fuel None minDuration validateCCDuration
                                  c s in
    outcome r = Returned tt ->
    forall i, (i < DEFAULT_NUMBER_OF_NOXES)%nat ->
              has_peer (providerConfig (final r)) (nox i).
Proof.
  intros Hint. induction fuel as [|fuel IH]; intros c s Hinv;
    [discriminate|].
  cbv zeta. rewrite addComputePeers_loop_asked.
  match goal with
  | |- context [bind ?m ?k s] =>
      destruct (provider_seq_cases m k s)
        as [(name & Hname & -> & -> & _)|(_ & Hno & _)]
  end.
  2:{ intros Hok. rewrite Hok in Hno. discriminate. }
  pose proof (await_input_config
                (mkInputArgs (str "Enter name for compute peer")
                             (Some (nox c)) None) s) as Hcfg1.
  set (s1 := final (await_input _ s)) in *.
  pose proof (addComputePeer_spec name minDuration validateCCDuration s1)
    as (_ & _ & Hret).
  match goal with
  | |- context [bind ?m ?k s1] =>
      destruct (provider_seq_cases m k s1)
        as [(a & Ha & -> & -> & _)|(_ & Hno & _)]
  end.
  2:{ intros Hok. rewrite Hok in Hno. discriminate. }
  destruct a. destruct (Hret Ha) as (_ & peer & commitment & Hcfg2).
  set (s2 := final (addComputePeer name minDuration validateCCDuration s1))
    in *.
  set (c' := if jsstring_eqb name (nox c) then S c else c).
  assert (Hinv' : forall i, (i < c')%nat ->
                            has_peer (providerConfig s2) (nox i)).
  { intros i Hi. rewrite Hcfg2, Hcfg1. subst c'.
    unfold jsstring_eqb in Hi. case_bool_decide.
    - destruct (decide (i = c)) as [->|Hne].
      + subst name. apply has_peer_new.
      + apply has_peer_insert, Hinv. lia.
    - apply has_peer_insert, Hinv. lia. }
  cbv zeta. fold c'. rewrite Hint, provider_ret_bind.
  destruct (c' <? DEFAULT_NUMBER_OF_NOXES)%nat eqn:Hlt.
  - apply IH. exact Hinv'.
  - apply Nat.ltb_ge in Hlt. intros _ i Hi. apply Hinv'. lia.
Qed.

(** X30. Without a number of noxes and without a terminal,
    [addComputePeers] returns only after three peers got their default
    name as an answer: when it returns, nox-0, nox-1 and nox-2 are keys of
    the compute peers and of the capacity commitments. *)
Theorem addComputePeers_default_adds_three (fuel : nat) (s : State) :
  isInteractive = false ->
  let r := addComputePeers fuel None s in
  outcome r = Returned tt ->
  Forall (fun i => has_peer (providerConfig (final r)) (nox i))
         (seq 0 DEFAULT_NUMBER_OF_NOXES).
Proof.
  intros Hint r. subst r. unfold addComputePeers.
  match goal with
  | |- context [bind ?m ?k s] =>
      destruct (provider_seq_cases m k s)
        as [(minDuration & Hm & -> & -> & _)|(_ & Hno & _)]
  end.
  2:{ intros Hok. rewrite Hok in Hno. discriminate. }
  destruct (await_spec getMinCCDuration s) as (_ & _ & Hc1).
  set (s1 := final (await getMinCCDuration s)) in *.
  match goal with
  | |- context [bind ?m ?k s1] =>
      destruct (provider_seq_cases m k s1)
        as [(validateCCDuration & Hv & -> & -> & _)|(_ & Hno & _)]
  end.
  2:{ intros Hok. rewrite Hok in Hno. discriminate. }
  intros Hok. apply List.Forall_forall. intros i Hi.
  apply in_seq in Hi.
  eapply addComputePeers_loop_default; [exact Hint| |exact Hok|lia].
  intros j Hj. lia.
Qed.

End ProviderDefault.

Lemma addComputePeers_adds_requested_number_witness :
  let s := Provider.Demo.empty_state in
  let r := Provider.addComputePeers (H := Provider.Demo.demo_prompts) 2
             (Some (JFin 2)) s in
  Provider.is_unfinished (Provider.outcome r) = false
  /\ Forall (fun a => Provider.is_confirm (H := Provider.Demo.demo_prompts) a
                     = false) (Provider.asked r)
  /\ (Provider.outcome r = Provider.Returned tt ->
      length (Provider.asked r) = (4 * 2)%nat
      /\ dom (Provider.computePeers
                (Provider.providerConfig (Provider.final r)))
         = union (dom (Provider.computePeers (Provider.providerConfig s)))
                 (Provider.noxes (H := Provider.Demo.demo_prompts) 0 2)
      /\ dom (Provider.capacityCommitments
                (Provider.providerConfig (Provider.final r)))
         = union (dom (Provider.capacityCommitments
                         (Provider.providerConfig s)))
                 (Provider.noxes (H := Provider.Demo.demo_prompts) 0 2)).
Proof.
  apply (addComputePeers_adds_requested_number
           (H := Provider.Demo.demo_prompts) (JFin 2) 2 2
           Provider.Demo.empty_state).
  - reflexivity.
  - vm_compute. discriminate.
  - lia.
Defined.

Lemma addComputePeers_default_adds_three_witness :
  let r := Provider.addComputePeers (H := Provider.Demo.demo_prompts) 3 None
             Provider.Demo.empty_state in
  Forall (fun i => Provider.has_peer
                     (Provider.providerConfig (Provider.final r))
                     (Provider.nox (H := Provider.Demo.demo_prompts) i))
         (seq 0 Provider.DEFAULT_NUMBER_OF_NOXES).
Proof.
  apply (addComputePeers_default_adds_three
           (H := Provider.Demo.demo_prompts) 3 Provider.Demo.empty_state).
  - reflexivity.
  - vm_compute. reflexivity.
Defined.
